(** * SmartSparse: importance scoring and global top-k pruning

    A shallow embedding of [finalsmartsparse.py]: the three per-weight
    estimators, the z-score normaliser, the entropy-adaptive fusion policy and
    the global thresholding pruner of class [SmartSparsePruner].

    Conventions of the embedding.

    - A torch tensor is the list of its elements in row-major order.  Every
      tensor operation of the program is elementwise, a full reduction, a
      [flatten] or a [cat], so the shape of a tensor only matters through its
      number of elements.  The program combines a weight only with its own
      gradient and with scores computed from the two, which have its shape;
      the model raises torch's [RuntimeError] on operands of different
      sizes, where torch would still broadcast an operand of one element,
      and the statements about tensor-tensor operations are made for
      operands of the same size.
    - float32/float64 arithmetic is idealised by the real numbers: rounding
      error and [nan] are outside the model.  Where torch produces [nan]
      (the [mean] of an empty tensor, the [std] of fewer than two elements)
      the model has the value of Rocq's total division, [x / 0 = 0], and the
      statements that depend on such a value are made for tensors of at
      least two elements.  The one infinity the program can meet on finite
      inputs, the inverse [-inf] of a zero entropy, is modelled as such.
    - The keep-count of [prune] is the truncation of the exact product
      [(1 - s) * N]; the program truncates the binary64 product, which is
      the same number whenever [s], [1 - s], [N] and the product are
      binary64 numbers ([keep_count_exact]) and can differ by one where an
      operation rounds.  Statements that relate the keep-count to the
      sparsity by more than its sign or its monotonicity assume
      [keep_count_exact]; the others are statements about the keep-count,
      whatever the arithmetic that produced it.
    - A Python integer divides a tensor as a 64-bit scalar: one that does
      not fit raises [OverflowError].
    - Python exceptions are values: a pure tensor computation returns an
      [outcome]; a method of the pruner returns an [outcome] together with
      the state it leaves behind, because in-place updates made before an
      exception persist.
    - Parameters are heap objects: a module holds the locations of its
      parameters, so tied weights are two modules holding one location.
    - The forward and backward pass of the network is a black box that, for
      given inputs, leaves a gradient (or [None]) on every parameter.
    - For the data preparation and the experiment driver, text is a list of
      characters over an open character type; the downloaded file, the
      tokenizer, the loss of a forward pass, the loading of the pretrained
      model, the state of the random generator after seeding and the
      latency measurement are parameters of the development. *)

From Stdlib Require Import Reals Lra Lia ZArith List Sorted FunctionalExtensionality.
From stdpp Require Import functions gmap strings.

Open Scope R_scope.

(** ** Exceptions *)

Inductive exn :=
  RuntimeError | IndexError | KeyError | ValueError | AttributeError | OverflowError.

Inductive outcome (A : Type) :=
| Return (a : A)
| Raise (e : exn).
Arguments Return {A} a.
Arguments Raise {A} e.

#[global] Instance outcome_ret : MRet outcome := @Return.
#[global] Instance outcome_bind : MBind outcome :=
  fun A B f m => match m with Return a => f a | Raise e => Raise e end.

(** A [for] loop over a Python sequence whose body mutates the state [S] and
    may raise: the loop stops at the first exception and the state reached so
    far is kept. *)
Fixpoint for_each {A S : Type} (body : A → S → outcome unit * S)
    (l : list A) (s : S) : outcome unit * S :=
  match l with
  | [] => (Return (), s)
  | a :: l' =>
      match body a s with
      | (Return _, s') => for_each body l' s'
      | (Raise e, s') => (Raise e, s')
      end
  end.

(** ** Tensors *)

#[global] Instance R_eq_dec : EqDecision R := Req_dec_T.

Abbreviation tensor := (list R).

Definition numel (t : tensor) : nat := length t.

Definition tsum (t : tensor) : R := fold_right Rplus 0 t.

(** [t.mean()] *)
Definition tmean (t : tensor) : R := tsum t / INR (numel t).

(** [t.std()]: torch's default is the unbiased estimator (Bessel's
    correction, divisor [n - 1]).  It is a number for a tensor of at least
    two elements; for fewer torch gives [nan], and the value here is [0]. *)
Definition tstd (t : tensor) : R :=
  sqrt (tsum (map (fun v => (v - tmean t) ^ 2) t) / (INR (numel t) - 1)).

(** [t.min()] and [t.max()] raise on a tensor without elements. *)
Definition tmin (t : tensor) : outcome R :=
  match t with
  | [] => Raise RuntimeError
  | x :: t' => Return (fold_left Rmin t' x)
  end.

Definition tmax (t : tensor) : outcome R :=
  match t with
  | [] => Raise RuntimeError
  | x :: t' => Return (fold_left Rmax t' x)
  end.

(** Tensor-scalar operations broadcast the scalar. *)
Definition add_scalar (t : tensor) (c : R) : tensor := map (fun v => v + c) t.
Definition sub_scalar (t : tensor) (c : R) : tensor := map (fun v => v - c) t.
Definition mul_scalar (t : tensor) (c : R) : tensor := map (fun v => v * c) t.
Definition div_scalar (t : tensor) (c : R) : tensor := map (fun v => v / c) t.
Definition tpow (t : tensor) (n : nat) : tensor := map (fun v => v ^ n) t.
Definition tabs (t : tensor) : tensor := map Rabs t.
Definition tlog (t : tensor) : tensor := map ln t.
Definition clamp_min (t : tensor) (lo : R) : tensor := map (fun v => Rmax v lo) t.
Definition zeros_like (t : tensor) : tensor := map (fun _ => 0) t.

(** Tensor-tensor operations are elementwise on operands of one shape, the
    only ones the program applies them to.  On operands of different sizes
    the model raises; torch raises too unless the shapes broadcast (an
    operand of one element does). *)
Fixpoint zipT (f : R → R → R) (a b : tensor) : outcome tensor :=
  match a, b with
  | [], [] => Return []
  | x :: a', y :: b' => r ← zipT f a' b'; mret (f x y :: r)
  | _, _ => Raise RuntimeError
  end.

Definition tadd : tensor → tensor → outcome tensor := zipT Rplus.
Definition tsub : tensor → tensor → outcome tensor := zipT Rminus.
Definition tmul : tensor → tensor → outcome tensor := zipT Rmult.
Definition tdiv : tensor → tensor → outcome tensor := zipT Rdiv.

(** [torch.round]: to the nearest integer, halves to the even neighbour. *)
Definition round_half_even (x : R) : Z :=
  let f := Int_part x in
  let d := x - IZR f in
  if Rlt_dec d (1 / 2) then f
  else if Rlt_dec (1 / 2) d then (f + 1)%Z
  else if Z.even f then f else (f + 1)%Z.

Definition tround (t : tensor) : tensor := map (fun v => IZR (round_half_even v)) t.

(** Python's [int(x)] on a float: truncation towards zero. *)
Definition int (x : R) : Z :=
  if Rle_dec 0 x then Int_part x else (- Int_part (- x))%Z.

(** [torch.cat] of a Python list of one-dimensional tensors; the empty list
    is rejected. *)
Definition cat (ts : list tensor) : outcome tensor :=
  match ts with
  | [] => Raise RuntimeError
  | _ :: _ => Return (concat ts)
  end.

(** Sorting in descending order, for [torch.topk(..., largest=True)]. *)
Fixpoint insert_desc (x : R) (l : list R) : list R :=
  match l with
  | [] => [x]
  | y :: l' => if Rle_dec y x then x :: l else y :: insert_desc x l'
  end.

Definition sort_desc (l : list R) : list R := fold_right insert_desc [] l.

(** [torch.topk(t, k, largest=True).values]: the [k] largest elements in
    descending order; [k] outside [0..numel] is rejected. *)
Definition topk (t : tensor) (k : Z) : outcome tensor :=
  if bool_decide (0 ≤ k ≤ Z.of_nat (numel t))%Z
  then Return (take (Z.to_nat k) (sort_desc t))
  else Raise RuntimeError.

(** [v[-1]] *)
Definition last_item (v : tensor) : outcome R :=
  match last v with
  | Some x => Return x
  | None => Raise IndexError
  end.

(** [(t >= threshold).float()] *)
Definition ge_mask (t : tensor) (threshold : R) : tensor :=
  map (fun v => if Rge_dec v threshold then 1 else 0) t.

(** A Python [dict] used for its insertion order: assignment to a present
    key replaces the value in place, a new key goes to the end. *)
Fixpoint dict_set {V : Type} (k : string) (v : V) (d : list (string * V)) :
    list (string * V) :=
  match d with
  | [] => [(k, v)]
  | (k', v') :: d' =>
      if decide (k = k') then (k, v) :: d' else (k', v') :: dict_set k v d'
  end.

(** ** Estimators and normaliser *)

Definition _normalize (score : tensor) : tensor :=
  let mean := tmean score in
  let std := tstd score + 1e-8 in
  div_scalar (sub_scalar score mean) std.

(** Dividing a tensor by the Python integer [2**bits - 1] converts the
    integer to a machine scalar, which overflows from 65 bits on. *)
Definition _compute_pqi (weight : tensor) (bits : positive) : outcome tensor :=
  qmin ← tmin weight;
  qmax ← tmax weight;
  if (65 <=? bits)%positive then Raise OverflowError
  else
    let scale := (qmax - qmin) / IZR (2 ^ Z.pos bits - 1) in
    if Rlt_dec scale 1e-9 then mret (zeros_like weight)
    else
      let q_weight :=
        add_scalar (mul_scalar (tround (div_scalar (sub_scalar weight qmin) scale)) scale) qmin in
      d ← tsub weight q_weight;
      mret (tpow d 2).

Definition _compute_movement (grad : tensor) : tensor := tabs grad.

Definition _compute_hessian (weight grad : tensor) : outcome tensor :=
  let h_diag := tpow grad 2 in
  tdiv (tpow weight 2) (mul_scalar (clamp_min h_diag 1e-6) 2).

Definition compute_entropy (t : tensor) : outcome R :=
  lo ← tmin t;
  hi ← tmax t;
  let probs := div_scalar (sub_scalar t lo) (hi - lo + 1e-8) in
  let probs := div_scalar probs (tsum probs + 1e-8) in
  pl ← tmul probs (tlog (add_scalar probs 1e-8));
  mret (- tsum pl).

(** ** The model and the pruner *)

Abbreviation loc := nat.

(** A [torch.nn.Parameter]: its [.data] and its [.grad]. *)
Record Param := { data : tensor; grad : option tensor }.

(** The modules [named_modules()] yields.  Only [nn.Linear] is inspected;
    any other module is kept with the parameters it owns. *)
Inductive Module :=
| Linear (weight : loc) (bias : option loc)
| OtherModule (params : list loc).

Record Model := {
  named_modules : list (string * Module);
  heap : loc → Param
}.

(** The state of torch's global random generator: the sequence of standard
    normal draws fixed by the seed, and how many were consumed. *)
Record Generator := { draws : nat → R; consumed : nat }.

Definition randn (n : nat) (g : Generator) : tensor * Generator :=
  (map (draws g) (seq (consumed g) n),
   {| draws := draws g; consumed := (consumed g + n)%nat |}).

Record SmartSparsePruner := {
  model : Model;
  alpha : R;
  beta : R;
  gamma : R;
  layerwise_scores : gmap string tensor
}.

(** [SmartSparsePruner(model, alpha, beta, gamma)] on a model with at least
    one parameter, as every model with a linear layer is; the last
    definition of the class defaults the three weights to the sentinel [-1].
    On a model without parameters [next(model.parameters())] raises
    [StopIteration] and no pruner is built: there is no pruner to speak of
    then, and [init] is not used on such a model. *)
Definition init (m : Model) (a b c : R) : SmartSparsePruner :=
  {| model := m; alpha := a; beta := b; gamma := c; layerwise_scores := ∅ |}.

Definition set_heap (self : SmartSparsePruner) (h : loc → Param) : SmartSparsePruner :=
  {| model := {| named_modules := named_modules (model self); heap := h |};
     alpha := alpha self; beta := beta self; gamma := gamma self;
     layerwise_scores := layerwise_scores self |}.

Definition set_fusion (self : SmartSparsePruner) (a b c : R) : SmartSparsePruner :=
  {| model := model self; alpha := a; beta := b; gamma := c;
     layerwise_scores := layerwise_scores self |}.

Definition set_score (self : SmartSparsePruner) (name : string) (fused : tensor) :
    SmartSparsePruner :=
  {| model := model self; alpha := alpha self; beta := beta self; gamma := gamma self;
     layerwise_scores := <[name := fused]> (layerwise_scores self) |}.

(** [p.data.mul_(mask)]: in place, the gradient is not touched. *)
Definition mul_ (h : loc → Param) (l : loc) (mask : tensor) :
    outcome (loc → Param) :=
  d ← tmul (data (h l)) mask;
  mret (<[l := {| data := d; grad := grad (h l) |}]> h).

(** *** Scoring *)

(** The three normalised score tensors of one layer. *)
Definition layer_scores (w g : tensor) : outcome (tensor * tensor * tensor) :=
  q ← _compute_pqi w 8;
  let pqi := _normalize q in
  let move := _normalize (_compute_movement g) in
  h ← _compute_hessian w g;
  let hess := _normalize h in
  mret (pqi, move, hess).

(** [alpha * pqi + beta * move + gamma * hess] *)
Definition fuse (a b c : R) (pqi move hess : tensor) : outcome tensor :=
  s ← tadd (mul_scalar pqi a) (mul_scalar move b);
  tadd s (mul_scalar hess c).

(** [self.alpha == self.beta == self.gamma == -1], a chained comparison. *)
Definition is_adaptive (self : SmartSparsePruner) : bool :=
  bool_decide (alpha self = beta self) && bool_decide (beta self = gamma self)
  && bool_decide (gamma self = -1).

(** A float that may be [-inf]. *)
Inductive ereal := Finite (x : R) | NegInf.

(** [1 / E] for the zero-dimensional tensor [E] that [compute_entropy]
    returns.  The entropy is the negation of a sum, so an entropy of zero is
    the float [-0.0], and its inverse is [-inf]. *)
Definition inverse (E : R) : ereal :=
  if decide (E = 0) then NegInf else Finite (1 / E).

(** [weights += noise] on tensors of one shape; [-inf] stays [-inf]. *)
Fixpoint add_noise (weights : list ereal) (noise : tensor) : outcome (list ereal) :=
  match weights, noise with
  | [], [] => Return []
  | w :: weights', z :: noise' =>
      r ← add_noise weights' noise';
      mret (match w with Finite x => Finite (x + z) | NegInf => NegInf end :: r)
  | _, _ => Raise RuntimeError
  end.

(** [torch.clamp(weights, min=lo)]: [-inf] is raised to [lo]. *)
Definition clamp_floor (weights : list ereal) (lo : R) : tensor :=
  map (fun w => match w with Finite x => Rmax x lo | NegInf => lo end) weights.

(** The body of the adaptive branch up to the assignment of the weights;
    the generator is advanced once the three entropies are there. *)
Definition adaptive_weights (pqi move hess : tensor) (g : Generator) :
    outcome tensor * Generator :=
  match
    E_pqi ← compute_entropy pqi;
    E_move ← compute_entropy move;
    E_hess ← compute_entropy hess;
    mret [inverse E_pqi; inverse E_move; inverse E_hess]
  with
  | Raise e => (Raise e, g)
  | Return weights =>
      let '(z, g') := randn 3 g in
      let noise := mul_scalar z 0.01 in
      (weights ← add_noise weights noise;
       let weights := clamp_floor weights 0.01 in
       let weights := div_scalar weights (tsum weights) in
       mret weights,
       g')
  end.

(** The loop body of [compute_importance_scores] in the last definition of
    the class (lines 518-536). *)
Definition score_module (nm : string * Module) (st : SmartSparsePruner * Generator) :
    outcome unit * (SmartSparsePruner * Generator) :=
  let '(name, module) := nm in
  let '(self, rng) := st in
  match module with
  | Linear wl _ =>
      match grad (heap (model self) wl) with
      | Some g =>
          let w := data (heap (model self) wl) in
          match layer_scores w g with
          | Raise e => (Raise e, st)
          | Return (pqi, move, hess) =>
              let resolved :=
                if is_adaptive self then
                  match adaptive_weights pqi move hess rng with
                  | (Raise e, rng') => (Raise e, (self, rng'))
                  | (Return [a; b; c], rng') => (Return (), (set_fusion self a b c, rng'))
                  | (Return _, rng') => (Raise ValueError, (self, rng'))
                  end
                else (Return (), st) in
              match resolved with
              | (Raise e, st') => (Raise e, st')
              | (Return _, (self', rng')) =>
                  match fuse (alpha self') (beta self') (gamma self') pqi move hess with
                  | Raise e => (Raise e, (self', rng'))
                  | Return fused => (Return (), (set_score self' name fused, rng'))
                  end
              end
          end
      | None => (Return (), st)
      end
  | OtherModule _ => (Return (), st)
  end.

(** The loop body in the first two definitions of the class (lines 73-82 and
    286-295), which have no adaptive branch. *)
Definition score_module_fixed (nm : string * Module) (self : SmartSparsePruner) :
    outcome unit * SmartSparsePruner :=
  let '(name, module) := nm in
  match module with
  | Linear wl _ =>
      match grad (heap (model self) wl) with
      | Some g =>
          let w := data (heap (model self) wl) in
          match layer_scores w g with
          | Raise e => (Raise e, self)
          | Return (pqi, move, hess) =>
              match fuse (alpha self) (beta self) (gamma self) pqi move hess with
              | Raise e => (Raise e, self)
              | Return fused => (Return (), set_score self name fused)
              end
          end
      | None => (Return (), self)
      end
  | OtherModule _ => (Return (), self)
  end.

Section Scoring.

(** The calibration batch, and what [zero_grad()], the forward pass and
    [loss.backward()] leave in [.grad] of each parameter. *)
Variable Inputs : Type.
Variable backward : Inputs → Model → loc → option tensor.

Definition run_backward (inputs : Inputs) (self : SmartSparsePruner) : SmartSparsePruner :=
  let m := model self in
  set_heap self (fun l => {| data := data (heap m l); grad := backward inputs m l |}).

Definition compute_importance_scores (inputs : Inputs)
    (st : SmartSparsePruner * Generator) : outcome unit * (SmartSparsePruner * Generator) :=
  let '(self, rng) := st in
  let self := run_backward inputs self in
  for_each score_module (named_modules (model self)) (self, rng).

Definition compute_importance_scores_fixed (inputs : Inputs)
    (self : SmartSparsePruner) : outcome unit * SmartSparsePruner :=
  let self := run_backward inputs self in
  for_each score_module_fixed (named_modules (model self)) self.

End Scoring.

Arguments run_backward {Inputs} backward inputs self.
Arguments compute_importance_scores {Inputs} backward inputs st.
Arguments compute_importance_scores_fixed {Inputs} backward inputs self.

(** *** Pruning *)

(** The first loop of [prune]: the scores of the eligible layers, in
    traversal order, and the modules they belong to. *)
Definition gather (scores : gmap string tensor)
    (acc : list tensor * list (string * Module)) (nm : string * Module) :
    list tensor * list (string * Module) :=
  let '(name, module) := nm in
  match module, scores !! name with
  | Linear _ _, Some sc => (acc.1 ++ [sc], dict_set name module acc.2)
  | _, _ => acc
  end.

(** The body of the second loop of [prune]. *)
Definition apply_mask (threshold : R) (nm : string * Module) (self : SmartSparsePruner) :
    outcome unit * SmartSparsePruner :=
  let '(name, module) := nm in
  match layerwise_scores self !! name with
  | None => (Raise KeyError, self)
  | Some sc =>
      let mask := ge_mask sc threshold in
      match module with
      | Linear wl _ =>
          match mul_ (heap (model self)) wl mask with
          | Raise e => (Raise e, self)
          | Return h => (Return (), set_heap self h)
          end
      | OtherModule _ => (Raise AttributeError, self)
      end
  end.

Definition prune (sparsity : R) (self : SmartSparsePruner) :
    outcome unit * SmartSparsePruner :=
  let '(all_scores, module_map) :=
    fold_left (gather (layerwise_scores self)) (named_modules (model self)) ([], []) in
  match cat all_scores with
  | Raise e => (Raise e, self)
  | Return all_scores =>
      let k := int ((1 - sparsity) * INR (numel all_scores)) in
      match topk all_scores k ≫= last_item with
      | Raise e => (Raise e, self)
      | Return threshold => for_each (apply_mask threshold) module_map self
      end
  end.

(** ** Vocabulary of the statements *)

(** [m] is the least element of [t]. *)
Definition is_min (m : R) (t : tensor) : Prop := In m t ∧ Forall (fun v => m <= v) t.
(** [m] is the greatest element of [t]. *)
Definition is_max (m : R) (t : tensor) : Prop := In m t ∧ Forall (fun v => v <= m) t.

#[global] Instance Rle_decision (x y : R) : Decision (x <= y) := Rle_dec x y.
#[global] Instance Rlt_decision (x y : R) : Decision (x < y) := Rlt_dec x y.
#[global] Instance Rge_decision (x y : R) : Decision (x >= y) := Rge_dec x y.

(** Descending order: every element is at least every later one. *)
Abbreviation descending := (StronglySorted (fun a b : R => b <= a)).

(** How many elements of [t] are at least, respectively more than, [x]. *)
Definition count_ge (x : R) (t : tensor) : nat := length (filter (fun v => v >= x) t).
Definition count_gt (x : R) (t : tensor) : nat := length (filter (fun v => x < v) t).



(** The score a module contributes to the pool of [prune]: a linear module
    whose name is a key of the mapping contributes its entry. *)
Definition eligible (scores : gmap string tensor) (nm : string * Module) : option tensor :=
  match nm.2 with
  | Linear _ _ => scores !! nm.1
  | OtherModule _ => None
  end.

(** The pooled scores, in traversal order. *)
Definition pooled (self : SmartSparsePruner) : tensor :=
  concat (omap (eligible (layerwise_scores self)) (named_modules (model self))).

(** The masks that the modules of [mm] holding the parameter at [l] as their
    weight apply to it, in order; empty unless [l] is the weight of an
    eligible module, a single mask unless the weight is tied. *)
Definition masks_at (threshold : R) (scores : gmap string tensor)
    (mm : list (string * Module)) (l : loc) : list tensor :=
  omap (fun nm : string * Module =>
          match nm.2 with
          | Linear w _ =>
              if decide (w = l) then (fun sc => ge_mask sc threshold) <$> scores !! nm.1
              else None
          | OtherModule _ => None
          end) mm.

(** Every score tensor in the mapping has as many elements as the weight of
    the linear module it is stored for. *)
Definition shapes_agree (self : SmartSparsePruner) : Prop :=
  ∀ name w b sc,
    In (name, Linear w b) (named_modules (model self)) →
    layerwise_scores self !! name = Some sc →
    length sc = length (data (heap (model self) w)).

(** [named_modules()] yields every name once. *)
Definition unique_names (m : Model) : Prop := NoDup (map fst (named_modules m)).

(** The keep-count [k] that [prune] computes for a sparsity. *)
Definition keep_count (s : R) (self : SmartSparsePruner) : Z :=
  int ((1 - s) * INR (numel (pooled self))).

(** [x] is a finite binary64 number: an integer of magnitude below [2^53]
    times a power of two with an exponent from [-1074] to [971]. *)
Definition binary64 (x : R) : Prop :=
  ∃ m e : Z, (Z.abs m < 2 ^ 53)%Z ∧ (-1074 <= e <= 971)%Z ∧ x = IZR m * powerRZ 2 e.

(** The float arithmetic of the keep-count is exact for the sparsity [s] and
    [n] pooled scores: [s], [1 - s], [n] and the product [(1 - s) * n] are
    binary64 numbers, so that neither the subtraction, nor the conversion of
    [n], nor the multiplication rounds. *)
Definition keep_count_exact (s : R) (n : nat) : Prop :=
  binary64 s ∧ binary64 (1 - s) ∧ binary64 (INR n) ∧ binary64 ((1 - s) * INR n).

(** No other eligible module holds the parameter at [w] as its weight. *)
Definition untied (self : SmartSparsePruner) (name : string) (w : loc) : Prop :=
  ∀ name' w' b',
    In (name', Linear w' b') (named_modules (model self)) →
    is_Some (layerwise_scores self !! name') → w' = w → name' = name.

(** The linear layers a scoring pass processes, in traversal order: those
    whose weight carries a gradient; each with its name, the location of its
    weight and the gradient. *)
Definition scored_layers (m : Model) : list (string * loc * tensor) :=
  omap (fun nm : string * Module =>
          match nm.2 with
          | Linear w _ => (fun g => (nm.1, w, g)) <$> grad (heap m w)
          | OtherModule _ => None
          end) (named_modules m).

(** The names of the layers a scoring pass processes. *)
Definition scored_names (m : Model) : gset string :=
  list_to_set (map (fun l : string * loc * tensor => l.1.1) (scored_layers m)).

(** One adaptive weight before renormalisation: the inverse entropy with its
    jitter, clamped to the floor; the floor itself when the entropy is zero
    (the inverse is then [-inf], whatever the jitter). *)
Definition jittered (E z : R) : R :=
  if decide (E = 0) then 0.01 else Rmax (1 / E + z * 0.01) 0.01.

(** The entropy of a score tensor [t] in the words of the specification:
    the scores are shifted and scaled to [[0,1]] by their least and greatest
    element, renormalised to sum to [1], and the entropy is
    [- Σ p * log (p + ε)]; [ε = 1e-8] also guards the two divisions. *)
Definition entropy_of (t : tensor) (E : R) : Prop :=
  ∃ lo hi, is_min lo t ∧ is_max hi t ∧
    let q := map (fun v => (v - lo) / (hi - lo + 1e-8)) t in
    let p := map (fun x => x / (tsum q + 1e-8)) q in
    E = - tsum (map (fun x => x * ln (x + 1e-8)) p).

(** The entry of the layer [l] in the mapping [scores] is the fusion, with
    the weights [(a, b, c)], of the three normalised scores of its weight and
    gradient in the heap [h]. *)
Definition fused_with (a b c : R) (h : loc → Param) (scores : gmap string tensor)
    (l : string * loc * tensor) : Prop :=
  ∃ pqi move hess fused,
    layer_scores (data (h l.1.2)) l.2 = Return (pqi, move, hess) ∧
    fuse a b c pqi move hess = Return fused ∧
    scores !! l.1.1 = Some fused.

(** What a scoring loop over the modules [mods] with frozen weights makes of
    the mapping: the entries of the processed layers are added or replaced,
    every other entry is kept. *)
Definition scored_post (self self' : SmartSparsePruner) (mods : list (string * Module)) : Prop :=
  let m := {| named_modules := mods; heap := heap (model self) |} in
  dom (layerwise_scores self') = dom (layerwise_scores self) ∪ scored_names m ∧
  (∀ n, n ∉ scored_names m → layerwise_scores self' !! n = layerwise_scores self !! n) ∧
  (NoDup (map fst mods) →
   Forall (fused_with (alpha self) (beta self) (gamma self) (heap (model self))
             (layerwise_scores self')) (scored_layers m)).

(** [abc] is the triple the adaptive branch computes from the three
    normalised score tensors of a layer and the next three draws of the
    generator [g]. *)
Definition adaptive_triple (pqi move hess : tensor) (g : Generator) (abc : R * R * R) : Prop :=
  ∃ E1 E2 E3,
    entropy_of pqi E1 ∧ entropy_of move E2 ∧ entropy_of hess E3 ∧
    let c1 := jittered E1 (draws g (consumed g)) in
    let c2 := jittered E2 (draws g (S (consumed g))) in
    let c3 := jittered E3 (draws g (S (S (consumed g)))) in
    abc = (c1 / (c1 + c2 + c3), c2 / (c1 + c2 + c3), c3 / (c1 + c2 + c3)).

Section ScoringVocabulary.

Variable Inputs : Type.
Variable backward : Inputs → Model → loc → option tensor.

(** A sequence of scoring passes on one pruner, one per calibration batch. *)
Definition scoring_passes (batches : list Inputs) (st : SmartSparsePruner * Generator) :
    outcome unit * (SmartSparsePruner * Generator) :=
  for_each (compute_importance_scores backward) batches st.

(** The names of the layers whose gradient is observed in at least one
    pass of the sequence. *)
Fixpoint observed_over (batches : list Inputs) (st : SmartSparsePruner * Generator) :
    gset string :=
  match batches with
  | [] => ∅
  | i :: rest =>
      scored_names (model (run_backward backward i st.1))
      ∪ observed_over rest (compute_importance_scores backward i st).2
  end.

(** Every layer the pass processes has a non-empty weight and a gradient
    of the size of its weight. *)
Definition well_shaped (inputs : Inputs) (self : SmartSparsePruner) : Prop :=
  ∀ name w g,
    In (name, w, g) (scored_layers (model (run_backward backward inputs self))) →
    data (heap (model self) w) ≠ [] ∧ length g = length (data (heap (model self) w)).

End ScoringVocabulary.

Arguments scoring_passes {Inputs} backward batches st.
Arguments observed_over {Inputs} backward batches st.
Arguments well_shaped {Inputs} backward inputs self.

(** ** A small model for concrete runs

    The root module and one linear layer [fc] of two weights and one bias. *)

Definition example_model : Model :=
  {| named_modules := [("", OtherModule []); ("fc", Linear 0 (Some 1%nat))];
     heap := fun l => match l with
                      | O => {| data := [5; 7]; grad := None |}
                      | _ => {| data := [1 / 2]; grad := None |}
                      end |}.

(** A pruner whose mapping holds the scores [[3; 1]] for [fc], and one that
    holds the uniform scores [[2; 2]]. *)
Definition example_pruner : SmartSparsePruner :=
  {| model := example_model; alpha := 1; beta := 0; gamma := 0;
     layerwise_scores := {["fc" := [3; 1]]} |}.

Definition uniform_pruner : SmartSparsePruner :=
  {| model := example_model; alpha := 1; beta := 0; gamma := 0;
     layerwise_scores := {["fc" := [2; 2]]} |}.

(** A backward pass for the example: the batch [true] leaves the gradient
    [[1; 2]] on the weight of [fc] and [[1]] on its bias; with the batch
    [false] the weight takes no part and only the bias receives a gradient. *)
Definition example_backward (batch : bool) (m : Model) (l : loc) : option tensor :=
  match batch, l with
  | true, O => Some [1; 2]
  | false, O => None
  | _, _ => Some [1]
  end.

Definition example_rng : Generator := {| draws := fun _ => 0; consumed := 0 |}.



(** The state [prune(0.5)] leaves the example in: the weight with the lower
    score is zeroed. *)
Definition example_pruned : SmartSparsePruner :=
  set_heap example_pruner
    (<[0%nat := {| data := [5 * 1; 7 * 0]; grad := None |}]> (heap example_model)).

(** ** Calibration data, evaluation and the experiment

    Text is a list of characters over a character type that is left open,
    with Python's [str.isspace] on one character, the test for the
    character ['='] and the space character.  The downloaded file is the
    list of its lines as iterating over the file object yields them; the
    tokenizer is a black box that returns the padded matrix of token ids or
    raises. *)

(** A two-dimensional integer tensor: its rows and the size of dimension 1. *)
Record Tensor2 := { rows : list (list Z); width : nat }.

(** The dictionary [prepare_inputs] returns. *)
Record Batch := { input_ids : Tensor2; labels : Tensor2 }.

(** [labels[:, :-1] = input_ids[:, 1:]] on one row: the slice [1:] of the
    source row overwrites the leading elements of the destination row. *)
Definition assign_shifted (dst src : list Z) : list Z :=
  let tail := drop 1 src in
  tail ++ drop (length tail) dst.

(** [labels[:, -1] = -100]: indexing a dimension of size [0] raises. *)
Definition assign_last (t : Tensor2) (v : Z) : outcome Tensor2 :=
  if decide (width t = 0%nat) then Raise IndexError
  else Return {| rows := map (fun r => <[(width t - 1)%nat := v]> r) (rows t);
                 width := width t |}.

Section Text.

Context {char : Type}.
Variable isspace : char → bool.
Variable is_equals_sign : char → bool.
Variable space : char.

(** [s.lstrip()], [s.rstrip()] and [s.strip()] *)
Fixpoint lstrip (s : list char) : list char :=
  match s with
  | c :: s' => if isspace c then lstrip s' else s
  | [] => []
  end.

Definition rstrip (s : list char) : list char := rev (lstrip (rev s)).

Definition strip (s : list char) : list char := rstrip (lstrip s).

(** [s.split()]: the maximal runs of non-whitespace characters, in order;
    [word] is the run being read, most recent character first. *)
Fixpoint split_from (word s : list char) : list (list char) :=
  match s with
  | [] => match word with [] => [] | _ => [rev word] end
  | c :: s' =>
      if isspace c then
        match word with
        | [] => split_from [] s'
        | _ => rev word :: split_from [] s'
        end
      else split_from (c :: word) s'
  end.

Definition split (s : list char) : list (list char) := split_from [] s.

(** [line.startswith('=')] *)
Definition startswith_equals_sign (line : list char) : bool :=
  match line with
  | c :: _ => is_equals_sign c
  | [] => false
  end.

(** Truth value of a string. *)
Definition nonempty (s : list char) : bool :=
  match s with [] => false | _ => true end.

(** [[line.strip() for line in f if line.strip() and not line.startswith('=')]] *)
Definition kept_lines (f : list (list char)) : list (list char) :=
  omap (fun line =>
          if nonempty (strip line) && negb (startswith_equals_sign line)
          then Some (strip line) else None) f.

(** The loop of [load_wikitext2] from the state [(paragraphs, buffer)]. *)
Fixpoint group_lines (num_samples : Z) (lines paragraphs : list (list char))
    (buffer : list char) : list (list char) :=
  match lines with
  | [] => paragraphs
  | line :: rest =>
      let buffer := buffer ++ line ++ [space] in
      let '(paragraphs, buffer) :=
        if (100 <? length (split buffer))%nat
        then (paragraphs ++ [strip buffer], [])
        else (paragraphs, buffer) in
      if (num_samples <=? Z.of_nat (length paragraphs))%Z then paragraphs
      else group_lines num_samples rest paragraphs buffer
  end.

Definition load_wikitext2 (file : list (list char)) (num_samples : Z) : list (list char) :=
  group_lines num_samples (kept_lines file) [] [].

Variable tokenizer : list (list char) → nat → outcome Tensor2.

Definition prepare_inputs (texts : list (list char)) (max_len : nat) : outcome Batch :=
  enc ← tokenizer texts max_len;
  let input_ids := enc in
  let labels := input_ids in
  let labels := {| rows := zip_with assign_shifted (rows labels) (rows input_ids);
                   width := width labels |} in
  labels ← assign_last labels (-100);
  mret {| input_ids := input_ids; labels := labels |}.

End Text.

(** [eval_perplexity]: the loss of the forward pass is a black box. *)
Definition eval_perplexity {Inputs : Type} (loss : Model → Inputs → R)
    (m : Model) (inputs : Inputs) : R * R :=
  let l := loss m inputs in (exp l, l).

(** The dictionary [run_experiment] returns. *)
Record Report := {
  Seed : Z; Alpha : R; Beta : R; Gamma : R;
  Base_PPL : R; Pruned_PPL : R; Degradation : R;
  Latency : R; VRAM : R
}.

Section Experiment.

Context {char : Type}.
Variable isspace : char → bool.
Variable is_equals_sign : char → bool.
Variable space : char.
Variable tokenizer : list (list char) → nat → outcome Tensor2.
(** Gradients and loss of the network, the state of torch's generator when
    scoring starts ([torch.manual_seed(seed)] and whatever the loading of the
    model consumes), the model [from_pretrained] loads, and the measured
    latency and memory. *)
Variable backward : Batch → Model → loc → option tensor.
Variable loss : Model → Batch → R.
Variable manual_seed : Z → Generator.
Variable from_pretrained : Model.
Variable profile_model_latency : Model → R * R.

(** [run_experiment]; [file] is the downloaded text and [n_calib] the
    calibration size drawn from numpy's generator. *)
Definition run_experiment (file : list (list char)) (n_calib : Z)
    (sparsity a b c : R) (seed : Z) : outcome Report :=
  let rng := manual_seed seed in
  let texts := load_wikitext2 isspace is_equals_sign space file n_calib in
  inputs ← prepare_inputs tokenizer texts 64;
  let '(base_ppl, base_loss) := eval_perplexity loss from_pretrained inputs in
  let pruned_model := from_pretrained in
  let pruner := init pruned_model a b c in
  match compute_importance_scores backward inputs (pruner, rng) with
  | (Raise e, _) => Raise e
  | (Return _, (pruner, rng)) =>
      match prune sparsity pruner with
      | (Raise e, _) => Raise e
      | (Return _, pruner) =>
          let '(pruned_ppl, pruned_loss) := eval_perplexity loss (model pruner) inputs in
          let degradation := pruned_ppl / base_ppl in
          let '(latency, vram) := profile_model_latency (model pruner) in
          Return {| Seed := seed; Alpha := alpha pruner; Beta := beta pruner;
                    Gamma := gamma pruner; Base_PPL := base_ppl; Pruned_PPL := pruned_ppl;
                    Degradation := degradation; Latency := latency; VRAM := vram |}
      end
  end.

End Experiment.

(** ** Concrete text for the examples: ASCII with the blank and the control
    characters that Python counts as whitespace. *)

Definition ascii_isspace (c : Ascii.ascii) : bool :=
  let n := Ascii.nat_of_ascii c in
  (n =? 32)%nat || ((9 <=? n)%nat && (n <=? 13)%nat) || ((28 <=? n)%nat && (n <=? 31)%nat).

Definition ascii_is_equals_sign (c : Ascii.ascii) : bool := (Ascii.nat_of_ascii c =? 61)%nat.

Definition ascii_space : Ascii.ascii := Ascii.ascii_of_nat 32.

(** A file for the examples: an indented heading, an empty line, a line of
    101 words and a last line of two words. *)
Definition example_file : list (list Ascii.ascii) :=
  [String.list_ascii_of_string " = Heading = " ++ [Ascii.ascii_of_nat 10];
   [Ascii.ascii_of_nat 10];
   concat (replicate 101 (String.list_ascii_of_string "w ")) ++ [Ascii.ascii_of_nat 10];
   String.list_ascii_of_string "two words" ++ [Ascii.ascii_of_nat 10]].

(** A tokenizer, a loss and a profiler for the examples. *)
Definition example_tokenizer (texts : list (list Ascii.ascii)) (max_len : nat) :
    outcome Tensor2 :=
  Return {| rows := [[2; 7; 9]%Z; [2; 5; 1]%Z]; width := 3 |}.

Definition example_loss (m : Model) (inputs : Batch) : R := tsum (data (heap m 0%nat)).

Definition example_profile (m : Model) : R * R := (0, 0).

(** The batch [prepare_inputs] makes of the example tokenizer's output, and
    the experiment on the example model with one calibration paragraph. *)
Definition example_batch : Batch :=
  {| input_ids := {| rows := [[2; 7; 9]%Z; [2; 5; 1]%Z]; width := 3 |};
     labels := {| rows := [[7; 9; -100]%Z; [5; 1; -100]%Z]; width := 3 |} |}.

Definition example_experiment (batch : bool) (s a b c : R) : outcome Report :=
  run_experiment ascii_isspace ascii_is_equals_sign ascii_space example_tokenizer
    (fun _ => example_backward batch) example_loss (fun _ => example_rng) example_model
    example_profile example_file 1 s a b c 42.

(** * Properties *)

(** ** Exceptions and elementwise operations *)

Lemma for_each_cons {A S : Type} (body : A → S → outcome unit * S) (a : A) (l : list A)
    (s : S) :
  for_each body (a :: l) s =
  match body a s with
  | (Return _, s') => for_each body l s'
  | (Raise e, s') => (Raise e, s')
  end.
Proof. reflexivity. Qed.

Lemma zipT_Return (f : R → R → R) (a b : tensor) :
  length a = length b → zipT f a b = Return (zip_with f a b).
Proof.
  revert b. induction a as [|x a IH]; intros [|y b] Hlen; simpl in *; try lia.
  - reflexivity.
  - rewrite IH by lia. reflexivity.
Qed.

Lemma zipT_inv (f : R → R → R) (a b r : tensor) :
  zipT f a b = Return r → length a = length b ∧ r = zip_with f a b.
Proof.
  revert b r. induction a as [|x a IH]; intros [|y b] r; simpl; try discriminate.
  - intros [= <-]. auto.
  - destruct (zipT f a b) as [r'|e] eqn:E; simpl; try discriminate.
    intros [= <-]. destruct (IH _ _ E) as [-> ->]. auto.
Qed.

Lemma zipT_map_r (f : R → R → R) (g : R → R) (a : tensor) :
  zipT f a (map g a) = Return (map (fun x => f x (g x)) a).
Proof.
  induction a as [|x a IH]; simpl; [reflexivity|]. rewrite IH. reflexivity.
Qed.

(** ** Minimum and maximum *)

Lemma fold_left_Rmin_le (l : list R) (x : R) :
  fold_left Rmin l x <= x ∧ Forall (Rle (fold_left Rmin l x)) l.
Proof.
  revert x. induction l as [|y l IH]; intros x; simpl.
  - split; [lra | constructor].
  - destruct (IH (Rmin x y)) as [H1 H2].
    pose proof (Rmin_l x y). pose proof (Rmin_r x y).
    split; [lra|]. constructor; [lra | assumption].
Qed.

Lemma fold_left_Rmin_In (l : list R) (x : R) : In (fold_left Rmin l x) (x :: l).
Proof.
  revert x. induction l as [|y l IH]; intros x; simpl; [auto|].
  destruct (IH (Rmin x y)) as [H|H]; [|auto].
  unfold Rmin in H at 1. destruct (Rle_dec x y); auto.
Qed.

Lemma fold_left_Rmax_ge (l : list R) (x : R) :
  x <= fold_left Rmax l x ∧ Forall (fun v => v <= fold_left Rmax l x) l.
Proof.
  revert x. induction l as [|y l IH]; intros x; simpl.
  - split; [lra | constructor].
  - destruct (IH (Rmax x y)) as [H1 H2].
    pose proof (Rmax_l x y). pose proof (Rmax_r x y).
    split; [lra|]. constructor; [lra | assumption].
Qed.

Lemma fold_left_Rmax_In (l : list R) (x : R) : In (fold_left Rmax l x) (x :: l).
Proof.
  revert x. induction l as [|y l IH]; intros x; simpl; [auto|].
  destruct (IH (Rmax x y)) as [H|H]; [|auto].
  unfold Rmax in H at 1. destruct (Rle_dec x y); auto.
Qed.

Lemma is_min_unique (m m' : R) (t : tensor) : is_min m t → is_min m' t → m = m'.
Proof.
  intros [Hi Hf] [Hi' Hf']. rewrite Forall_forall in Hf, Hf'.
  apply list_elem_of_In in Hi, Hi'.
  specialize (Hf _ Hi'). specialize (Hf' _ Hi). lra.
Qed.

Lemma is_max_unique (m m' : R) (t : tensor) : is_max m t → is_max m' t → m = m'.
Proof.
  intros [Hi Hf] [Hi' Hf']. rewrite Forall_forall in Hf, Hf'.
  apply list_elem_of_In in Hi, Hi'.
  specialize (Hf _ Hi'). specialize (Hf' _ Hi). lra.
Qed.

Lemma tmin_spec (t : tensor) : t ≠ [] → ∃ m, tmin t = Return m ∧ is_min m t.
Proof.
  destruct t as [|x t]; [congruence|]. intros _. eexists. split; [reflexivity|].
  split; [apply fold_left_Rmin_In|].
  destruct (fold_left_Rmin_le t x). constructor; assumption.
Qed.

Lemma tmax_spec (t : tensor) : t ≠ [] → ∃ m, tmax t = Return m ∧ is_max m t.
Proof.
  destruct t as [|x t]; [congruence|]. intros _. eexists. split; [reflexivity|].
  split; [apply fold_left_Rmax_In|].
  destruct (fold_left_Rmax_ge t x). constructor; assumption.
Qed.

Lemma tmin_is_min (t : tensor) (m : R) : is_min m t → tmin t = Return m.
Proof.
  intros H. destruct t as [|x t]; [destruct H as [[] _]|].
  destruct (tmin_spec (x :: t)) as (m' & E & H'); [discriminate|].
  rewrite E. f_equal. eapply is_min_unique; eassumption.
Qed.

Lemma tmax_is_max (t : tensor) (m : R) : is_max m t → tmax t = Return m.
Proof.
  intros H. destruct t as [|x t]; [destruct H as [[] _]|].
  destruct (tmax_spec (x :: t)) as (m' & E & H'); [discriminate|].
  rewrite E. f_equal. eapply is_max_unique; eassumption.
Qed.

(** ** Rounding *)

Lemma round_half_even_nearest (x : R) : Rabs (IZR (round_half_even x) - x) <= 1 / 2.
Proof.
  unfold round_half_even. destruct (base_Int_part x) as [H1 H2].
  destruct (Rlt_dec _ _); [apply Rabs_le; lra|].
  destruct (Rlt_dec _ _); [rewrite plus_IZR; apply Rabs_le; lra|].
  destruct (Z.even _); [|rewrite plus_IZR]; apply Rabs_le; lra.
Qed.

Lemma round_half_even_tie (x : R) :
  Rabs (IZR (round_half_even x) - x) = 1 / 2 → Z.even (round_half_even x) = true.
Proof.
  unfold round_half_even. destruct (base_Int_part x) as [H1 H2].
  destruct (Rlt_dec _ _) as [Hlt|Hlt].
  { intros H. rewrite Rabs_left1 in H by lra. lra. }
  destruct (Rlt_dec _ _) as [Hgt|Hgt].
  { rewrite plus_IZR. intros H. rewrite Rabs_right in H by lra. lra. }
  intros _. destruct (Z.even (Int_part x)) eqn:E; [assumption|].
  rewrite Z.even_add, E. reflexivity.
Qed.

Lemma round_half_even_IZR (z : Z) : round_half_even (IZR z) = z.
Proof.
  unfold round_half_even.
  assert (Int_part (IZR z) = z) as ->.
  { symmetry. apply Int_part_spec. lra. }
  destruct (Rlt_dec _ _); [reflexivity | lra].
Qed.

(** ** The quantization-error estimator *)

Lemma quantized_as_map (W : tensor) (qmin scale : R) :
  add_scalar (mul_scalar (tround (div_scalar (sub_scalar W qmin) scale)) scale) qmin
  = map (fun w => IZR (round_half_even ((w - qmin) / scale)) * scale + qmin) W.
Proof.
  unfold add_scalar, mul_scalar, tround, div_scalar, sub_scalar.
  rewrite !map_map. reflexivity.
Qed.

Lemma compute_pqi_cases (W : tensor) (b : positive) (qmin qmax : R) :
  (b <= 64)%positive →
  is_min qmin W → is_max qmax W →
  let scale := (qmax - qmin) / IZR (2 ^ Z.pos b - 1) in
  ∃ E, _compute_pqi W b = Return E ∧ length E = length W ∧
    (qmax = qmin → scale < 1e-9) ∧
    (scale < 1e-9 → Forall (fun e => e = 0) E) ∧
    (¬ scale < 1e-9 →
       E = map (fun w =>
                  (w - (IZR (round_half_even ((w - qmin) / scale)) * scale + qmin)) ^ 2) W).
Proof.
  intros Hb Hmin Hmax scale. unfold _compute_pqi.
  rewrite (tmin_is_min _ _ Hmin), (tmax_is_max _ _ Hmax). simpl.
  rewrite (proj2 (Pos.leb_gt 65 b)) by lia. fold scale.
  assert (qmax = qmin → scale < 1e-9) as Heq.
  { intros ->. unfold scale. rewrite Rminus_diag. unfold Rdiv. rewrite Rmult_0_l. lra. }
  destruct (Rlt_dec scale 1e-9) as [Hs|Hs].
  - exists (zeros_like W). unfold zeros_like.
    split; [reflexivity|]. split; [apply length_map|]. split; [assumption|].
    split; [|contradiction].
    intros _. apply Forall_forall. intros e He.
    apply list_elem_of_In, in_map_iff in He. destruct He as (? & <- & _). reflexivity.
  - rewrite quantized_as_map. unfold tsub. rewrite zipT_map_r. simpl.
    eexists. split; [reflexivity|]. unfold tpow. rewrite map_map.
    split; [apply length_map|]. split; [assumption|].
    split; [contradiction | reflexivity].
Qed.

(** [min()] and [max()] of a tensor without elements raise, and so does the
    estimator. *)
Lemma compute_pqi_empty (b : positive) : _compute_pqi [] b = Raise RuntimeError.
Proof. reflexivity. Qed.

(** From 65 bits on the divisor does not fit a machine scalar. *)
Lemma compute_pqi_overflow (W : tensor) (b : positive) :
  W ≠ [] → (65 <= b)%positive → _compute_pqi W b = Raise OverflowError.
Proof.
  intros HW Hb. unfold _compute_pqi.
  destruct (tmin_spec W HW) as (qmin & -> & _).
  destruct (tmax_spec W HW) as (qmax & -> & _). simpl.
  rewrite (proj2 (Pos.leb_le 65 b)) by exact Hb. reflexivity.
Qed.

(** C4, as stated, fails: at a bit width of 65 the estimator returns
    neither zeros nor the round-trip error, it raises [OverflowError]. *)
Lemma compute_pqi_wide_counterexample :
  [1; 2] ≠ [] ∧ _compute_pqi [1; 2] 65 = Raise OverflowError ∧
  ¬ ∃ E, _compute_pqi [1; 2] 65 = Return E.
Proof.
  assert (_compute_pqi [1; 2] 65 = Raise OverflowError) as H
    by (apply compute_pqi_overflow; [discriminate | lia]).
  split; [discriminate|]. split; [exact H|].
  intros [E HE]. rewrite H in HE. discriminate.
Qed.

(** C4, amended.  For every weight tensor [W] with at least one element
    and every bit width [b] from 1 to 64, with [qmin] the least and [qmax]
    the greatest element of [W] and [scale = (qmax - qmin) / (2^b - 1)]:
    the estimator returns a tensor of [W]'s size; if [scale < 1e-9], which
    is the case whenever [qmax = qmin], every element of it is zero;
    otherwise it is the elementwise squared round-trip error
    [(w - (round((w - qmin) / scale) * scale + qmin))^2].  For a bit width
    of 65 or more it raises [OverflowError].  The estimator is a function
    of [W]: it builds new tensors only and [W] is not updated. *)
Theorem compute_pqi_spec (W : tensor) (b : positive) :
  W ≠ [] →
  ((b <= 64)%positive →
   ∃ qmin qmax E,
     is_min qmin W ∧ is_max qmax W ∧
     _compute_pqi W b = Return E ∧ length E = length W ∧
     (qmax = qmin → (qmax - qmin) / IZR (2 ^ Z.pos b - 1) < 1e-9) ∧
     ((qmax - qmin) / IZR (2 ^ Z.pos b - 1) < 1e-9 → Forall (fun e => e = 0) E) ∧
     (¬ (qmax - qmin) / IZR (2 ^ Z.pos b - 1) < 1e-9 →
        E = map (fun w =>
                   (w - (IZR (round_half_even
                                ((w - qmin) / ((qmax - qmin) / IZR (2 ^ Z.pos b - 1))))
                         * ((qmax - qmin) / IZR (2 ^ Z.pos b - 1)) + qmin)) ^ 2) W)) ∧
  ((65 <= b)%positive → _compute_pqi W b = Raise OverflowError).
Proof.
  intros HW. split.
  - intros Hb.
    destruct (tmin_spec W HW) as (qmin & _ & Hmin).
    destruct (tmax_spec W HW) as (qmax & _ & Hmax).
    destruct (compute_pqi_cases W b qmin qmax Hb Hmin Hmax) as (E & HE).
    exists qmin, qmax, E. split; [exact Hmin|]. split; [exact Hmax|]. exact HE.
  - apply compute_pqi_overflow, HW.
Qed.

Lemma compute_pqi_spec_witness :
  (∃ qmin qmax E,
     is_min qmin [1; 3 / 2; 2] ∧ is_max qmax [1; 3 / 2; 2] ∧
     _compute_pqi [1; 3 / 2; 2] 8 = Return E ∧ length E = length [1; 3 / 2; 2] ∧
     (qmax = qmin → (qmax - qmin) / IZR (2 ^ Z.pos 8 - 1) < 1e-9) ∧
     ((qmax - qmin) / IZR (2 ^ Z.pos 8 - 1) < 1e-9 → Forall (fun e => e = 0) E) ∧
     (¬ (qmax - qmin) / IZR (2 ^ Z.pos 8 - 1) < 1e-9 →
        E = map (fun w =>
                   (w - (IZR (round_half_even
                                ((w - qmin) / ((qmax - qmin) / IZR (2 ^ Z.pos 8 - 1))))
                         * ((qmax - qmin) / IZR (2 ^ Z.pos 8 - 1)) + qmin)) ^ 2)
              [1; 3 / 2; 2])) ∧
  _compute_pqi [1; 3 / 2; 2] 65 = Raise OverflowError.
Proof.
  assert ([1; 3 / 2; 2] ≠ []) as HW by discriminate.
  split.
  - apply (proj1 (compute_pqi_spec [1; 3 / 2; 2] 8 HW)). lia.
  - apply (proj2 (compute_pqi_spec [1; 3 / 2; 2] 65 HW)). lia.
Defined.

(** ** The score normaliser *)



Lemma normalize_as_map (score : tensor) :
  _normalize score = map (fun v => (v - tmean score) / (tstd score + 1e-8)) score.
Proof. unfold _normalize, div_scalar, sub_scalar. rewrite map_map. reflexivity. Qed.

Lemma tstd_nonneg (t : tensor) : 0 <= tstd t.
Proof. apply sqrt_pos. Qed.

Lemma normalize_length (score : tensor) : length (_normalize score) = length score.
Proof. rewrite normalize_as_map. apply length_map. Qed.




Lemma Rabs_le_bounds (a b : R) : Rabs a <= b ↔ - b <= a <= b.
Proof. unfold Rabs. destruct (Rcase_abs a); lra. Qed.




(** ** Truncation *)

Lemma int_nonneg (x : R) (z : Z) : 0 <= x → IZR z <= x < IZR z + 1 → int x = z.
Proof.
  intros Hx Hz. unfold int. destruct (Rle_dec 0 x); [|contradiction].
  symmetry. apply Int_part_spec. lra.
Qed.

Lemma int_neg (x : R) (z : Z) : x < 0 → IZR z - 1 < x <= IZR z → int x = z.
Proof.
  intros Hx Hz. unfold int. destruct (Rle_dec 0 x); [lra|].
  assert ((- z)%Z = Int_part (- x)) as <-; [|lia].
  apply Int_part_spec. rewrite opp_IZR. lra.
Qed.

Lemma int_floor (x : R) : 0 <= x → IZR (int x) <= x < IZR (int x) + 1.
Proof.
  intros Hx. unfold int. destruct (Rle_dec 0 x); [|contradiction].
  destruct (base_Int_part x). lra.
Qed.

Lemma int_nonpos (x : R) : x < 0 → (int x <= 0)%Z.
Proof.
  intros Hx. unfold int. destruct (Rle_dec 0 x); [lra|].
  destruct (base_Int_part (- x)) as [H1 H2].
  assert (-1 < IZR (Int_part (- x))) as H by lra.
  apply (lt_IZR (-1)) in H. lia.
Qed.

Lemma int_INR (n : nat) : int (INR n) = Z.of_nat n.
Proof.
  apply int_nonneg; [apply pos_INR|]. rewrite <- INR_IZR_INZ. lra.
Qed.

(** ** Sorting and order statistics *)

Lemma insert_desc_perm (x : R) (l : list R) : insert_desc x l ≡ₚ x :: l.
Proof.
  induction l as [|y l IH]; simpl; [reflexivity|].
  destruct (Rle_dec y x); [reflexivity|].
  rewrite IH. apply Permutation_swap.
Qed.

Lemma sort_desc_perm (l : list R) : sort_desc l ≡ₚ l.
Proof.
  induction l as [|x l IH]; simpl; [reflexivity|].
  rewrite insert_desc_perm, IH. reflexivity.
Qed.

Lemma sort_desc_length (l : list R) : length (sort_desc l) = length l.
Proof. apply Permutation_length, sort_desc_perm. Qed.

Lemma insert_desc_sorted (x : R) (l : list R) : descending l → descending (insert_desc x l).
Proof.
  induction 1 as [|y l Hl IH Hy]; simpl.
  - repeat constructor.
  - destruct (Rle_dec y x) as [Hyx|Hyx].
    + constructor; [constructor; assumption|].
      constructor; [assumption|].
      eapply Forall_impl; [exact Hy|]. simpl. intros; lra.
    + constructor; [assumption|].
      rewrite insert_desc_perm. constructor; [lra | assumption].
Qed.

Lemma sort_desc_sorted (l : list R) : descending (sort_desc l).
Proof.
  induction l as [|x l IH]; simpl; [constructor | apply insert_desc_sorted, IH].
Qed.

Lemma descending_app_inv (l1 l2 : list R) :
  descending (l1 ++ l2) →
  descending l1 ∧ descending l2 ∧ ∀ a b, In a l1 → In b l2 → b <= a.
Proof.
  induction l1 as [|x l1 IH]; simpl; intros H.
  - repeat split; [constructor | assumption | intros ? ? []].
  - inversion H as [|? ? Hs Hf]; subst.
    destruct (IH Hs) as (H1 & H2 & H3).
    rewrite Forall_app in Hf. destruct Hf as [Hf1 Hf2].
    repeat split; [constructor; assumption | assumption |].
    intros a b [<-|Ha] Hb; [|auto].
    rewrite Forall_forall in Hf2. apply Hf2, list_elem_of_In, Hb.
Qed.

Lemma count_ge_app (x : R) (l1 l2 : tensor) :
  count_ge x (l1 ++ l2) = (count_ge x l1 + count_ge x l2)%nat.
Proof. unfold count_ge. rewrite filter_app, length_app. reflexivity. Qed.

Lemma count_gt_app (x : R) (l1 l2 : tensor) :
  count_gt x (l1 ++ l2) = (count_gt x l1 + count_gt x l2)%nat.
Proof. unfold count_gt. rewrite filter_app, length_app. reflexivity. Qed.

Lemma count_ge_all (x : R) (l : tensor) :
  (∀ v, In v l → x <= v) → count_ge x l = length l.
Proof.
  intros H. induction l as [|y l IH]; [reflexivity|].
  unfold count_ge in *. rewrite filter_cons.
  destruct (decide (y >= x)) as [|Hn].
  - simpl. rewrite IH; [reflexivity|]. intros; apply H; right; assumption.
  - exfalso. apply Hn, Rle_ge, H. left; reflexivity.
Qed.

Lemma count_ge_none (x : R) (l : tensor) :
  (∀ v, In v l → v < x) → count_ge x l = 0%nat.
Proof.
  intros H. induction l as [|y l IH]; [reflexivity|].
  unfold count_ge in *. rewrite filter_cons.
  destruct (decide (y >= x)) as [Hy|].
  - exfalso. specialize (H y (or_introl eq_refl)). lra.
  - apply IH. intros; apply H; right; assumption.
Qed.

Lemma count_gt_none (x : R) (l : tensor) :
  (∀ v, In v l → v <= x) → count_gt x l = 0%nat.
Proof.
  intros H. induction l as [|y l IH]; [reflexivity|].
  unfold count_gt in *. rewrite filter_cons.
  destruct (decide (x < y)) as [Hy|].
  - exfalso. specialize (H y (or_introl eq_refl)). lra.
  - apply IH. intros; apply H; right; assumption.
Qed.

Lemma count_gt_le_length (x : R) (l : tensor) : (count_gt x l <= length l)%nat.
Proof. unfold count_gt. apply length_filter. Qed.

Lemma count_ge_perm (x : R) (l l' : tensor) : l ≡ₚ l' → count_ge x l = count_ge x l'.
Proof. intros H. unfold count_ge. rewrite H. reflexivity. Qed.


Lemma descending_kth (l : tensor) (i : nat) (x : R) :
  descending l → l !! i = Some x →
  (count_gt x l <= i)%nat ∧ (i < count_ge x l)%nat ∧ (NoDup l → count_ge x l = S i).
Proof.
  intros Hs Hi.
  assert (length (take i l) = i) as Hlen.
  { apply length_take_le. apply lookup_lt_Some in Hi. lia. }
  pose proof (take_drop_middle l i x Hi) as Hl.
  rewrite <- Hl in Hs. apply descending_app_inv in Hs.
  destruct Hs as (_ & Htail & Hcross).
  inversion Htail as [|? ? _ Hdrop]; subst.
  rewrite Forall_forall in Hdrop.
  assert (count_ge x (take i l) = i) as Hge1.
  { rewrite count_ge_all; [assumption|]. intros v Hv. apply Hcross; [assumption | left; reflexivity]. }
  assert (count_ge x [x] = 1%nat) as Hge2.
  { apply (count_ge_all x [x]). intros v [<-|[]]. lra. }
  assert (count_gt x (x :: drop (S i) l) = 0%nat) as Hgt2.
  { apply count_gt_none. intros v [<-|Hv]; [lra|]. apply Hdrop, list_elem_of_In, Hv. }
  rewrite <- Hl.
  rewrite count_gt_app, Hgt2.
  change (x :: drop (S i) l) with ([x] ++ drop (S i) l).
  rewrite !count_ge_app, Hge1, Hge2.
  pose proof (count_gt_le_length x (take i l)).
  split; [lia|]. split; [lia|].
  intros Hnd. apply NoDup_app in Hnd. destruct Hnd as (_ & _ & Hnd).
  apply NoDup_app in Hnd. destruct Hnd as (_ & Hnot & _).
  rewrite count_ge_none; [lia|].
  intros v Hv. apply list_elem_of_In in Hv.
  assert (v <= x) by (apply Hdrop, Hv).
  assert (v ≠ x); [|lra].
  intros ->. apply (Hnot x); [left | assumption].
Qed.


(** ** Top-k selection *)

Lemma topk_last_item (t : tensor) (k : Z) :
  (1 <= k <= Z.of_nat (numel t))%Z →
  ∃ x, sort_desc t !! (Z.to_nat k - 1)%nat = Some x ∧ topk t k ≫= last_item = Return x.
Proof.
  intros Hk. unfold topk. rewrite bool_decide_true by lia. simpl.
  unfold last_item. rewrite last_lookup.
  pose proof (sort_desc_length t) as Hlen. unfold numel in Hk.
  rewrite length_take_le by lia.
  rewrite lookup_take_lt by lia.
  replace (Nat.pred (Z.to_nat k)) with (Z.to_nat k - 1)%nat by lia.
  destruct (lookup_lt_is_Some_2 (sort_desc t) (Z.to_nat k - 1)) as [x Hx]; [lia|].
  exists x. rewrite Hx. auto.
Qed.

Lemma topk_zero (t : tensor) : topk t 0 ≫= last_item = Raise IndexError.
Proof.
  unfold topk. rewrite bool_decide_true by lia. reflexivity.
Qed.

Lemma topk_out_of_range (t : tensor) (k : Z) :
  (k < 0 ∨ Z.of_nat (numel t) < k)%Z → topk t k ≫= last_item = Raise RuntimeError.
Proof.
  intros Hk. unfold topk. rewrite bool_decide_false by lia. reflexivity.
Qed.

(** ** Masks *)

Lemma ge_mask_length (t : tensor) (x : R) : length (ge_mask t x) = length t.
Proof. apply length_map. Qed.




Lemma ge_mask_all_ones (t : tensor) (x : R) :
  (∀ v, In v t → x <= v) → ge_mask t x = map (fun _ => 1) t.
Proof.
  intros H. unfold ge_mask. apply map_ext_in. intros v Hv.
  destruct (Rge_dec v x) as [|Hn]; [reflexivity|].
  exfalso. apply Hn, Rle_ge, H, Hv.
Qed.

Lemma zip_with_mul_ones (d t : tensor) :
  length t = length d → zip_with Rmult d (map (fun _ => 1) t) = d.
Proof.
  revert t. induction d as [|x d IH]; intros [|y t] Hlen; simpl in *; try lia; [reflexivity|].
  rewrite IH by lia. f_equal. lra.
Qed.

(** ** The two loops of [prune] *)

Lemma set_heap_id (self : SmartSparsePruner) : set_heap self (heap (model self)) = self.
Proof. destruct self as [[? ?] ? ? ? ?]. reflexivity. Qed.

Lemma dict_set_In {V : Type} (k : string) (v : V) (d : list (string * V)) (kv : string * V) :
  In kv (dict_set k v d) → kv = (k, v) ∨ In kv d.
Proof.
  induction d as [|[k' v'] d IH]; simpl.
  - intros [<-|[]]. auto.
  - destruct (decide (k = k')); simpl; intros [<-|H]; auto.
    destruct (IH H); auto.
Qed.

Lemma dict_set_fresh {V : Type} (k : string) (v : V) (d : list (string * V)) :
  k ∉ map fst d → dict_set k v d = d ++ [(k, v)].
Proof.
  induction d as [|[k' v'] d IH]; simpl; intros Hk; [reflexivity|].
  rewrite not_elem_of_cons in Hk. destruct Hk as [Hne Hk].
  rewrite decide_False by assumption. rewrite IH by assumption. reflexivity.
Qed.

(** The modules [prune] keeps in [module_map] when every name occurs once:
    the eligible ones, in traversal order. *)
Lemma gather_pool (scores : gmap string tensor) (mods : list (string * Module))
    (acc : list tensor * list (string * Module)) :
  (fold_left (gather scores) mods acc).1 = acc.1 ++ omap (eligible scores) mods.
Proof.
  revert acc. induction mods as [|[name m] mods IH]; intros acc; simpl.
  - rewrite app_nil_r. reflexivity.
  - rewrite IH. unfold eligible at 2. simpl.
    destruct m as [w b|ps]; [|reflexivity].
    destruct (scores !! name); simpl; [|reflexivity].
    rewrite <- app_assoc. reflexivity.
Qed.

Lemma gather_map_In (scores : gmap string tensor) (mods : list (string * Module))
    (acc : list tensor * list (string * Module)) (nm : string * Module) :
  In nm (fold_left (gather scores) mods acc).2 →
  In nm acc.2 ∨ (In nm mods ∧ is_Some (eligible scores nm)).
Proof.
  revert acc. induction mods as [|[name m] mods IH]; intros acc; simpl; [auto|].
  intros H. apply IH in H. destruct H as [H|[H ?]]; [|auto].
  destruct m as [w b|ps]; [|auto].
  destruct (scores !! name) as [sc|] eqn:E; [|auto]. simpl in H.
  apply dict_set_In in H. destruct H as [->|H]; [|auto].
  right. split; [auto|]. unfold eligible. simpl. rewrite E. eauto.
Qed.

Lemma gather_map_unique (scores : gmap string tensor) (mods : list (string * Module))
    (acc : list tensor * list (string * Module)) :
  NoDup (map fst acc.2 ++ map fst mods) →
  (fold_left (gather scores) mods acc).2
  = acc.2 ++ filter (fun nm => is_Some (eligible scores nm)) mods.
Proof.
  revert acc. induction mods as [|[name m] mods IH]; intros acc Hnd; simpl.
  - rewrite app_nil_r. reflexivity.
  - simpl in Hnd. rewrite filter_cons.
    assert (NoDup (map fst acc.2 ++ map fst mods)) as Hnd'.
    { apply NoDup_app in Hnd. destruct Hnd as (H1 & H2 & H3).
      apply NoDup_app. split; [assumption|]. split.
      - intros x Hx Hx'. apply (H2 x Hx). right. assumption.
      - apply NoDup_cons in H3. apply H3. }
    destruct (decide (is_Some (eligible scores (name, m)))) as [[sc Hs]|Hs];
      unfold eligible in Hs; simpl in Hs.
    + destruct m as [w b|ps]; [|discriminate]. rewrite Hs.
      assert (name ∉ map fst acc.2) as Hfresh.
      { apply NoDup_app in Hnd. destruct Hnd as (_ & H2 & _).
        intros Hin. apply (H2 name Hin). left. }
      rewrite IH; simpl.
      * rewrite dict_set_fresh by assumption. rewrite <- app_assoc. reflexivity.
      * rewrite dict_set_fresh by assumption. rewrite map_app. simpl.
        rewrite <- app_assoc. simpl. assumption.
    + destruct m as [w b|ps]; [|apply IH, Hnd'].
      destruct (scores !! name) as [sc|]; [|apply IH, Hnd'].
      exfalso. apply Hs. eauto.
Qed.

Lemma masks_at_filter (thr : R) (scores : gmap string tensor)
    (mods : list (string * Module)) (l : loc) :
  masks_at thr scores (filter (fun nm => is_Some (eligible scores nm)) mods) l
  = masks_at thr scores mods l.
Proof.
  unfold masks_at. induction mods as [|[name m] mods IH]; [reflexivity|].
  rewrite filter_cons.
  change ((name, m) :: mods) with ([(name, m)] ++ mods). rewrite omap_app.
  destruct (decide (is_Some (eligible scores (name, m)))) as [[sc Hs]|Hs];
    unfold eligible in Hs; simpl in Hs.
  - change ((name, m) :: filter (fun nm => is_Some (eligible scores nm)) mods)
      with ([(name, m)] ++ filter (fun nm => is_Some (eligible scores nm)) mods).
    rewrite omap_app, IH. reflexivity.
  - rewrite IH. simpl. destruct m as [w b|ps]; [|reflexivity].
    destruct (decide (w = l)); [|reflexivity].
    destruct (scores !! name) as [sc|]; [|reflexivity].
    exfalso. apply Hs. eauto.
Qed.

Lemma masks_at_cons (thr : R) (scores : gmap string tensor) (name : string) (m : Module)
    (mm : list (string * Module)) (l : loc) :
  masks_at thr scores ((name, m) :: mm) l =
  match m with
  | Linear w _ =>
      if decide (w = l) then
        match scores !! name with
        | Some sc => ge_mask sc thr :: masks_at thr scores mm l
        | None => masks_at thr scores mm l
        end
      else masks_at thr scores mm l
  | OtherModule _ => masks_at thr scores mm l
  end.
Proof.
  unfold masks_at. simpl. destruct m as [w b|ps]; [|reflexivity].
  destruct (decide (w = l)); [|reflexivity].
  destruct (scores !! name); reflexivity.
Qed.

(** What the second loop of [prune] does to the heap, whatever its outcome:
    only [.data] of the weights of the listed modules can change. *)
Lemma for_each_apply_mask (thr : R) (mm : list (string * Module)) :
  ∀ self o self',
    for_each (apply_mask thr) mm self = (o, self') →
    self' = set_heap self (heap (model self')) ∧
    (∀ l, grad (heap (model self') l) = grad (heap (model self) l)) ∧
    (∀ l, masks_at thr (layerwise_scores self) mm l = [] →
          heap (model self') l = heap (model self) l) ∧
    (o = Return () →
     ∀ l, data (heap (model self') l)
          = fold_left (zip_with Rmult) (masks_at thr (layerwise_scores self) mm l)
              (data (heap (model self) l))).
Proof.
  induction mm as [|[name m] mm IH]; intros self o self'.
  - simpl. intros [= <- <-]. rewrite set_heap_id. auto.
  - assert (∀ e, (Raise e : outcome unit, self) = (o, self') →
      self' = set_heap self (heap (model self')) ∧
      (∀ l, grad (heap (model self') l) = grad (heap (model self) l)) ∧
      (∀ l, masks_at thr (layerwise_scores self) ((name, m) :: mm) l = [] →
            heap (model self') l = heap (model self) l) ∧
      (o = Return () →
       ∀ l, data (heap (model self') l)
            = fold_left (zip_with Rmult)
                (masks_at thr (layerwise_scores self) ((name, m) :: mm) l)
                (data (heap (model self) l)))) as Hraise.
    { intros e [= <- <-]. rewrite set_heap_id. repeat split; auto. discriminate. }
    intros Hrun. simpl in Hrun.
    destruct (layerwise_scores self !! name) as [sc|] eqn:Esc; [|eapply Hraise, Hrun].
    destruct m as [w b|ps]; [|eapply Hraise, Hrun].
    unfold mul_, tmul in Hrun.
    destruct (zipT Rmult (data (heap (model self) w)) (ge_mask sc thr)) as [d|e] eqn:Ez;
      simpl in Hrun; [|eapply Hraise, Hrun].
    apply zipT_inv in Ez. destruct Ez as [Hlen ->].
    apply IH in Hrun. simpl in Hrun.
    destruct Hrun as (Hself & Hgrad & Hframe & Hpost).
    split; [exact Hself|]. split; [|split].
    + intros l. rewrite Hgrad. destruct (decide (w = l)) as [->|Hne].
      * rewrite fn_lookup_insert. reflexivity.
      * rewrite fn_lookup_insert_ne by assumption. reflexivity.
    + intros l. rewrite masks_at_cons. destruct (decide (w = l)) as [->|Hne].
      * rewrite Esc. discriminate.
      * intros Hm. rewrite (Hframe l Hm). apply fn_lookup_insert_ne. assumption.
    + intros Ho l. rewrite (Hpost Ho l), masks_at_cons.
      destruct (decide (w = l)) as [->|Hne].
      * rewrite Esc, fn_lookup_insert. reflexivity.
      * rewrite fn_lookup_insert_ne by assumption. reflexivity.
Qed.

(** The second loop of [prune] completes when every listed module is linear
    and has a score tensor of the size of its weight. *)
Lemma for_each_apply_mask_total (thr : R) (mm : list (string * Module)) :
  ∀ self,
    (∀ name m, In (name, m) mm →
       ∃ w b sc, m = Linear w b ∧ layerwise_scores self !! name = Some sc ∧
                 length sc = length (data (heap (model self) w))) →
    ∃ self', for_each (apply_mask thr) mm self = (Return (), self').
Proof.
  induction mm as [|[name m] mm IH]; intros self Hok; simpl; [eauto|].
  destruct (Hok name m (or_introl eq_refl)) as (w & b & sc & -> & Esc & Hlen).
  rewrite Esc. unfold mul_, tmul.
  rewrite zipT_Return by (rewrite ge_mask_length; auto). simpl.
  apply IH. simpl. intros name' m' Hin.
  destruct (Hok name' m' (or_intror Hin)) as (w' & b' & sc' & -> & Esc' & Hlen').
  exists w', b', sc'. split; [reflexivity|]. split; [assumption|].
  destruct (decide (w = w')) as [->|Hne].
  - rewrite fn_lookup_insert. simpl. rewrite length_zip_with, ge_mask_length. lia.
  - rewrite fn_lookup_insert_ne by assumption. assumption.
Qed.

(** [prune], by cases on the pool, on [k] and on the threshold. *)
Lemma prune_cases (s : R) (self : SmartSparsePruner) :
  prune s self =
  match omap (eligible (layerwise_scores self)) (named_modules (model self)) with
  | [] => (Raise RuntimeError, self)
  | _ :: _ =>
      match topk (pooled self) (int ((1 - s) * INR (numel (pooled self)))) ≫= last_item with
      | Raise e => (Raise e, self)
      | Return thr =>
          for_each (apply_mask thr)
            (fold_left (gather (layerwise_scores self)) (named_modules (model self)) ([], [])).2
            self
      end
  end.
Proof.
  unfold prune, pooled.
  pose proof (gather_pool (layerwise_scores self) (named_modules (model self)) ([], [])) as Hp.
  destruct (fold_left _ _ _) as [all_scores module_map]. simpl in Hp. subst all_scores.
  destruct (omap _ _); reflexivity.
Qed.

(** ** Pruning: the outcome by keep-count *)

Lemma pooled_chunks_nonempty (self : SmartSparsePruner) :
  pooled self ≠ [] →
  omap (eligible (layerwise_scores self)) (named_modules (model self)) ≠ [].
Proof. unfold pooled. intros H E. rewrite E in H. apply H. reflexivity. Qed.

Lemma prune_no_chunks (s : R) (self : SmartSparsePruner) :
  omap (eligible (layerwise_scores self)) (named_modules (model self)) = [] →
  prune s self = (Raise RuntimeError, self).
Proof. intros E. rewrite prune_cases, E. reflexivity. Qed.

Lemma prune_keep_zero (s : R) (self : SmartSparsePruner) :
  omap (eligible (layerwise_scores self)) (named_modules (model self)) ≠ [] →
  int ((1 - s) * INR (numel (pooled self))) = 0%Z →
  prune s self = (Raise IndexError, self).
Proof.
  intros Hne Hk. rewrite prune_cases, Hk, topk_zero.
  destruct (omap _ _); [contradiction | reflexivity].
Qed.

Lemma prune_keep_out_of_range (s : R) (self : SmartSparsePruner) :
  omap (eligible (layerwise_scores self)) (named_modules (model self)) ≠ [] →
  (int ((1 - s) * INR (numel (pooled self))) < 0
   ∨ Z.of_nat (numel (pooled self)) < int ((1 - s) * INR (numel (pooled self))))%Z →
  prune s self = (Raise RuntimeError, self).
Proof.
  intros Hne Hk. rewrite prune_cases, topk_out_of_range by assumption.
  destruct (omap _ _); [contradiction | reflexivity].
Qed.

Lemma prune_keep_in_range (s : R) (self : SmartSparsePruner) :
  unique_names (model self) →
  (1 <= int ((1 - s) * INR (numel (pooled self))) <= Z.of_nat (numel (pooled self)))%Z →
  ∃ thr,
    sort_desc (pooled self)
      !! (Z.to_nat (int ((1 - s) * INR (numel (pooled self)))) - 1)%nat = Some thr ∧
    prune s self
    = for_each (apply_mask thr)
        (filter (fun nm => is_Some (eligible (layerwise_scores self) nm))
           (named_modules (model self))) self.
Proof.
  intros Hnames Hk. destruct (topk_last_item _ _ Hk) as (thr & Hthr & Htop).
  exists thr. split; [assumption|].
  rewrite prune_cases, Htop, gather_map_unique by exact Hnames. simpl.
  destruct (omap _ _) eqn:E; [|reflexivity].
  exfalso. assert (pooled self = []) as Hp by (unfold pooled; rewrite E; reflexivity).
  rewrite Hp in Hk. simpl in Hk. lia.
Qed.

(** ** Runs on the example model *)

Lemma example_chunks :
  omap (eligible (layerwise_scores example_pruner)) (named_modules (model example_pruner))
  = [[3; 1]].
Proof. reflexivity. Qed.

Lemma uniform_chunks :
  omap (eligible (layerwise_scores uniform_pruner)) (named_modules (model uniform_pruner))
  = [[2; 2]].
Proof. reflexivity. Qed.

Lemma example_unique_names : unique_names example_model.
Proof. unfold unique_names. simpl. apply (bool_decide_unpack _). reflexivity. Qed.

Lemma example_shapes_agree : shapes_agree example_pruner.
Proof.
  intros name w b sc [H|[H|[]]]; [discriminate|]. injection H as <- <- <-.
  intros [= <-]. reflexivity.
Qed.

Lemma uniform_shapes_agree : shapes_agree uniform_pruner.
Proof.
  intros name w b sc [H|[H|[]]]; [discriminate|]. injection H as <- <- <-.
  intros [= <-]. reflexivity.
Qed.

(** ** Sparsity 0 and sparsity 1 *)

Lemma int_zero : int 0 = 0%Z.
Proof. apply int_nonneg; simpl; lra. Qed.

Lemma count_ge_full (x : R) (l : tensor) :
  count_ge x l = length l → ∀ v, In v l → x <= v.
Proof.
  intros Hc v Hv. destruct (Rle_dec x v) as [|Hn]; [assumption|].
  exfalso. unfold count_ge in Hc.
  pose proof (length_filter_lt (fun u => u >= x) l v) as Hlt.
  assert (length (filter (λ u : R, (u >= x)%R) l) < length l)%nat; [|lia].
  apply Hlt; [apply list_elem_of_In, Hv | lra].
Qed.

Lemma eligible_In_pooled (self : SmartSparsePruner) (nm : string * Module) (sc : tensor) (v : R) :
  In nm (named_modules (model self)) → eligible (layerwise_scores self) nm = Some sc →
  In v sc → In v (pooled self).
Proof.
  intros Hnm He Hv. unfold pooled. apply in_concat. exists sc. split; [|assumption].
  apply list_elem_of_In, list_elem_of_omap. exists nm.
  split; [apply list_elem_of_In, Hnm | assumption].
Qed.

Lemma fold_mul_ones (masks : list tensor) (d : tensor) :
  (∀ m, In m masks → ∃ sc : tensor, m = map (fun _ => 1) sc ∧ length sc = length d) →
  fold_left (zip_with Rmult) masks d = d.
Proof.
  induction masks as [|m masks IH]; intros H; simpl; [reflexivity|].
  destruct (H m (or_introl eq_refl)) as (sc & -> & Hlen).
  rewrite zip_with_mul_ones by assumption.
  apply IH. intros; apply H; right; assumption.
Qed.

Lemma Param_eq (p q : Param) : data p = data q → grad p = grad q → p = q.
Proof. destruct p, q; simpl; intros -> ->; reflexivity. Qed.

Lemma filter_eligible_ok (self : SmartSparsePruner) :
  shapes_agree self →
  ∀ name m,
    In (name, m) (filter (fun nm => is_Some (eligible (layerwise_scores self) nm))
                    (named_modules (model self))) →
    ∃ w b sc, m = Linear w b ∧ layerwise_scores self !! name = Some sc ∧
              length sc = length (data (heap (model self) w)).
Proof.
  intros Hshapes name m Hin.
  apply list_elem_of_In, list_elem_of_filter in Hin. destruct Hin as [[sc Hsc] Hin].
  apply list_elem_of_In in Hin. unfold eligible in Hsc. simpl in Hsc.
  destruct m as [w b|ps]; [|discriminate].
  exists w, b, sc. repeat split; [assumption|]. eapply Hshapes; eassumption.
Qed.

(** Sparsity 0 on a pool with at least one element: [k = N], the threshold is
    the least pooled score, every mask is all ones and no weight changes. *)
Lemma prune_sparsity_zero (self : SmartSparsePruner) :
  unique_names (model self) → shapes_agree self → pooled self ≠ [] →
  prune 0 self = (Return (), self).
Proof.
  intros Hnames Hshapes Hne.
  assert (int ((1 - 0) * INR (numel (pooled self))) = Z.of_nat (numel (pooled self))) as Hk.
  { rewrite Rminus_0_r, Rmult_1_l. apply int_INR. }
  assert (1 <= numel (pooled self))%nat as HN.
  { unfold numel. destruct (pooled self); [contradiction | simpl; lia]. }
  destruct (prune_keep_in_range 0 self Hnames) as (thr & Hthr & Hrun); [lia|].
  rewrite Hk in Hthr. rewrite Hrun. clear Hrun Hk.
  assert (∀ v, In v (pooled self) → thr <= v) as Hmin.
  { apply count_ge_full.
    destruct (descending_kth _ _ _ (sort_desc_sorted (pooled self)) Hthr) as (_ & H2 & _).
    rewrite (count_ge_perm _ _ _ (sort_desc_perm (pooled self))) in H2.
    pose proof (length_filter (fun u => u >= thr) (pooled self)) as H3.
    unfold count_ge, numel in *. lia. }
  destruct (for_each_apply_mask_total thr _ self (filter_eligible_ok self Hshapes))
    as [self' Hrun].
  rewrite Hrun. f_equal.
  destruct (for_each_apply_mask _ _ _ _ _ Hrun) as (Hself & Hgrad & _ & Hpost).
  transitivity (set_heap self (heap (model self'))); [exact Hself|].
  transitivity (set_heap self (heap (model self))); [|apply set_heap_id]. f_equal.
  apply functional_extensionality. intros l.
  apply Param_eq; [|apply Hgrad].
  rewrite (Hpost eq_refl l), masks_at_filter. apply fold_mul_ones.
  intros m Hm. unfold masks_at in Hm.
  apply list_elem_of_In, list_elem_of_omap in Hm. destruct Hm as ([name md] & Hin & Hm).
  simpl in Hm. destruct md as [w b|ps]; [|discriminate].
  destruct (decide (w = l)) as [->|]; [|discriminate].
  destruct (layerwise_scores self !! name) as [sc|] eqn:Esc; [|discriminate].
  injection Hm as <-. apply list_elem_of_In in Hin.
  exists sc. split; [|eapply Hshapes; eassumption].
  apply ge_mask_all_ones. intros v Hv. apply Hmin.
  eapply eligible_In_pooled; [exact Hin | exact Esc | exact Hv].
Qed.

(** Sparsity 1: [k = 0], the top-k result is empty and indexing it raises. *)
Lemma prune_sparsity_one (self : SmartSparsePruner) :
  omap (eligible (layerwise_scores self)) (named_modules (model self)) ≠ [] →
  prune 1 self = (Raise IndexError, self).
Proof.
  intros Hne. apply prune_keep_zero; [assumption|].
  rewrite Rminus_diag, Rmult_0_l. apply int_zero.
Qed.

(** ** Pruning: the claims *)

Lemma eligible_empty (nm : string * Module) : eligible ∅ nm = None.
Proof. unfold eligible. destruct nm.2; [apply lookup_empty | reflexivity]. Qed.

(** C8.  When the fused-score mapping is empty at the time of the call (no
    linear layer received a gradient, so there is nothing to concatenate),
    [prune] does not skip pruning silently: it raises, [torch.cat] rejecting
    the empty list with a [RuntimeError], and the model is as it was. *)
Theorem prune_empty_mapping_raises (s : R) (self : SmartSparsePruner) :
  layerwise_scores self = ∅ → prune s self = (Raise RuntimeError, self).
Proof.
  intros Hempty. apply prune_no_chunks. rewrite Hempty.
  induction (named_modules (model self)) as [|nm mods IH]; [reflexivity|].
  simpl. rewrite eligible_empty. exact IH.
Qed.

Lemma prune_empty_mapping_raises_witness :
  prune (1 / 2) (init example_model (-1) (-1) (-1))
  = (Raise RuntimeError, init example_model (-1) (-1) (-1)).
Proof. apply prune_empty_mapping_raises. reflexivity. Defined.

(** C2, at the failing input.  With the uniform scores [[2; 2]] for the one
    linear layer and sparsity [1.0], the keep-count is [0], the top-k result
    is empty and [prune] raises [IndexError] on its last element: the call
    crashes, where the claim has it complete and keep both weights. *)
Theorem prune_full_sparsity_uniform_raises :
  prune 1 uniform_pruner = (Raise IndexError, uniform_pruner).
Proof. apply prune_sparsity_one. rewrite uniform_chunks. discriminate. Qed.

(** C7, as stated, fails: the sparsity [-1/4] lies outside [[0,1]], yet on
    the two pooled scores [[3; 1]] the keep-count is [int(2.5) = 2] and the
    call returns normally, having pruned nothing. *)
Lemma prune_negative_sparsity_counterexample :
  ¬ (0 <= -1 / 4 <= 1) ∧
  keep_count (-1 / 4) example_pruner = 2%Z ∧
  prune (-1 / 4) example_pruner = (Return (), example_pruner).
Proof.
  split; [lra|].
  assert (pooled example_pruner = [3; 1]) as Hp by reflexivity.
  assert (keep_count (-1 / 4) example_pruner = 2%Z) as Hk.
  { unfold keep_count. rewrite Hp. apply int_nonneg; simpl; lra. }
  split; [exact Hk|]. unfold keep_count in Hk.
  rewrite <- (prune_sparsity_zero example_pruner example_unique_names example_shapes_agree)
    by (rewrite Hp; discriminate).
  rewrite !prune_cases, Hk. rewrite Rminus_0_r, Rmult_1_l, int_INR, Hp. reflexivity.
Qed.

(** C7, amended.  [prune] does not validate the sparsity: the keep-count
    [k = int((1 - s) * N)] is computed from any [s].  On a non-empty pool of
    [N] scores, a sparsity above [1] gives [k <= 0] and the call raises only
    then, [IndexError] from indexing the empty top-k result when [k = 0] and
    [RuntimeError] from the top-k selection when [k < 0]; a sparsity below
    [0] gives [k >= N]: when [k > N] the call raises [RuntimeError] from the
    top-k selection, and when [k = N] the sparsity is accepted and the call
    does what [prune(0)] does. *)
Theorem prune_out_of_range_sparsity (s : R) (self : SmartSparsePruner) :
  pooled self ≠ [] →
  (1 < s →
     (keep_count s self <= 0)%Z ∧
     (keep_count s self = 0%Z → prune s self = (Raise IndexError, self)) ∧
     ((keep_count s self < 0)%Z → prune s self = (Raise RuntimeError, self))) ∧
  (s < 0 →
     (Z.of_nat (numel (pooled self)) <= keep_count s self)%Z ∧
     ((Z.of_nat (numel (pooled self)) < keep_count s self)%Z →
      prune s self = (Raise RuntimeError, self)) ∧
     (keep_count s self = Z.of_nat (numel (pooled self)) → prune s self = prune 0 self)).
Proof.
  unfold keep_count.
  intros Hne. pose proof (pooled_chunks_nonempty self Hne) as Hchunks.
  assert (1 <= INR (numel (pooled self))) as HN.
  { unfold numel. destruct (pooled self) as [|v t]; [contradiction|].
    change (length (v :: t)) with (S (length t)). rewrite S_INR.
    pose proof (pos_INR (length t)). lra. }
  split.
  - intros Hs.
    assert ((1 - s) * INR (numel (pooled self)) < 0) as Hx by nra.
    pose proof (int_nonpos _ Hx) as Hk. split; [assumption|]. split.
    + intros E. apply prune_keep_zero; assumption.
    + intros E. apply prune_keep_out_of_range; [assumption | lia].
  - intros Hs.
    assert (INR (numel (pooled self)) < (1 - s) * INR (numel (pooled self))) as Hx by nra.
    split; [|split].
    + destruct (int_floor ((1 - s) * INR (numel (pooled self)))) as [_ Hf]; [lra|].
      assert (IZR (Z.of_nat (numel (pooled self)))
              < IZR (int ((1 - s) * INR (numel (pooled self))) + 1)) as Hlt
        by (rewrite plus_IZR, <- INR_IZR_INZ; lra).
      apply lt_IZR in Hlt. lia.
    + intros Hk. apply prune_keep_out_of_range; [assumption | lia].
    + intros Hk. rewrite !prune_cases, Hk.
      rewrite Rminus_0_r, Rmult_1_l, int_INR. reflexivity.
Qed.

Lemma prune_out_of_range_sparsity_witness :
  (1 < -1 / 4 →
     (keep_count (-1 / 4) example_pruner <= 0)%Z ∧
     (keep_count (-1 / 4) example_pruner = 0%Z →
      prune (-1 / 4) example_pruner = (Raise IndexError, example_pruner)) ∧
     ((keep_count (-1 / 4) example_pruner < 0)%Z →
      prune (-1 / 4) example_pruner = (Raise RuntimeError, example_pruner))) ∧
  (-1 / 4 < 0 →
     (Z.of_nat (numel (pooled example_pruner)) <= keep_count (-1 / 4) example_pruner)%Z ∧
     ((Z.of_nat (numel (pooled example_pruner)) < keep_count (-1 / 4) example_pruner)%Z →
      prune (-1 / 4) example_pruner = (Raise RuntimeError, example_pruner)) ∧
     (keep_count (-1 / 4) example_pruner = Z.of_nat (numel (pooled example_pruner)) →
      prune (-1 / 4) example_pruner = prune 0 example_pruner)).
Proof.
  apply (prune_out_of_range_sparsity (-1 / 4) example_pruner). discriminate.
Defined.

Lemma masks_at_nil (thr : R) (scores : gmap string tensor) (mm : list (string * Module))
    (l : loc) :
  (∀ name w b, In (name, Linear w b) mm → is_Some (scores !! name) → w ≠ l) →
  masks_at thr scores mm l = [].
Proof.
  induction mm as [|[name m] mm IH]; intros H; [reflexivity|].
  rewrite masks_at_cons.
  assert (masks_at thr scores mm l = []) as E.
  { apply IH. intros name' w b Hin. apply (H name' w b). right. assumption. }
  destruct m as [w b|ps]; [|exact E].
  destruct (decide (w = l)) as [->|]; [|exact E].
  destruct (scores !! name) as [sc|] eqn:Esc; [|exact E].
  exfalso. apply (H name l b); [left; reflexivity | rewrite Esc; eauto | reflexivity].
Qed.

Lemma masks_at_untied (thr : R) (self : SmartSparsePruner) (name : string) (w : loc)
    (b : option loc) (sc : tensor) :
  unique_names (model self) →
  In (name, Linear w b) (named_modules (model self)) →
  layerwise_scores self !! name = Some sc →
  untied self name w →
  masks_at thr (layerwise_scores self) (named_modules (model self)) w = [ge_mask sc thr].
Proof.
  unfold unique_names, untied.
  generalize (layerwise_scores self) as scores.
  induction (named_modules (model self)) as [|[name' m'] mods IH];
    intros scores Hnd Hin Hsc Hun; [destruct Hin|].
  simpl in Hnd. apply NoDup_cons in Hnd. destruct Hnd as [Hfresh Hnd].
  rewrite masks_at_cons. destruct Hin as [Hhd|Hin].
  - injection Hhd as -> ->. rewrite decide_True by reflexivity. rewrite Hsc. f_equal.
    apply masks_at_nil. intros n2 w2 b2 Hin2 Hs2 ->.
    assert (n2 = name) as -> by (apply (Hun n2 w b2); [right | |]; auto).
    apply Hfresh, list_elem_of_In, in_map_iff. exists (name, Linear w b2). auto.
  - assert (masks_at thr scores mods w = [ge_mask sc thr]) as E.
    { apply IH; auto. intros n2 w2 b2 Hin2. apply (Hun n2 w2 b2). right. assumption. }
    destruct m' as [w' b'|ps]; [|exact E].
    destruct (decide (w' = w)) as [->|]; [|exact E].
    destruct (scores !! name') as [sc'|] eqn:Esc'; [|exact E].
    exfalso.
    assert (name' = name) as -> by (apply (Hun name' w b'); [left | rewrite Esc' |]; eauto).
    apply Hfresh, list_elem_of_In, in_map_iff. exists (name, Linear w b). auto.
Qed.




Lemma example_keep_half : keep_count (1 / 2) example_pruner = 1%Z.
Proof.
  assert (pooled example_pruner = [3; 1]) as Hp by reflexivity.
  unfold keep_count. rewrite Hp. apply int_nonneg; simpl; lra.
Qed.



(** C10.  When [prune] returns, the pruner's module list, fusion weights and
    score mapping are as before, no gradient has changed, and a parameter is
    unchanged unless it is the weight of a linear module whose name is a key
    of the mapping: biases, parameters of other modules and weights of linear
    layers without an entry stay as they were.  With every module name
    occurring once, each weight that is not tied to another eligible layer
    has been multiplied elementwise by the mask [score >= threshold] of its
    layer, for one threshold. *)
Theorem prune_frame (s : R) (self self' : SmartSparsePruner) :
  prune s self = (Return (), self') →
  named_modules (model self') = named_modules (model self) ∧
  alpha self' = alpha self ∧ beta self' = beta self ∧ gamma self' = gamma self ∧
  layerwise_scores self' = layerwise_scores self ∧
  (∀ l, grad (heap (model self') l) = grad (heap (model self) l)) ∧
  (∀ l, (∀ name w b, In (name, Linear w b) (named_modules (model self)) →
                     is_Some (layerwise_scores self !! name) → w ≠ l) →
        heap (model self') l = heap (model self) l) ∧
  (unique_names (model self) →
   ∃ thr, ∀ name w b sc,
     In (name, Linear w b) (named_modules (model self)) →
     layerwise_scores self !! name = Some sc →
     untied self name w →
     data (heap (model self') w)
     = zip_with Rmult (data (heap (model self) w)) (ge_mask sc thr)).
Proof.
  rewrite prune_cases.
  destruct (omap _ _) as [|c cs]; [discriminate|].
  destruct (topk _ _ ≫= last_item) as [thr|e]; [|discriminate].
  intros Hrun. pose proof (for_each_apply_mask _ _ _ _ _ Hrun) as (Hself & Hgrad & Hframe & Hpost).
  split; [rewrite Hself; reflexivity|].
  split; [rewrite Hself; reflexivity|].
  split; [rewrite Hself; reflexivity|].
  split; [rewrite Hself; reflexivity|].
  split; [rewrite Hself; reflexivity|].
  split; [exact Hgrad|]. split.
  - intros l Hl. apply Hframe, masks_at_nil.
    intros name w b Hin. apply gather_map_In in Hin. destruct Hin as [[]|[Hin _]].
    apply (Hl name w b Hin).
  - intros Hnames. exists thr. intros name w b sc Hin Hsc Hun.
    rewrite (Hpost eq_refl w), gather_map_unique by exact Hnames. simpl.
    rewrite masks_at_filter, (masks_at_untied thr self name w b sc) by assumption.
    reflexivity.
Qed.

(** The run of [prune(0.5)] on the example: [k = 1], the threshold is [3],
    the mask of [fc] is [[1; 0]]. *)
Lemma example_prune_half : prune (1 / 2) example_pruner = (Return (), example_pruned).
Proof.
  rewrite prune_cases, example_chunks.
  fold (keep_count (1 / 2) example_pruner). rewrite example_keep_half.
  change (pooled example_pruner) with [3; 1].
  change ((fold_left (gather (layerwise_scores example_pruner))
             (named_modules (model example_pruner)) ([], [])).2)
    with [("fc", Linear 0 (Some 1%nat))].
  unfold topk. rewrite bool_decide_true by (simpl; lia).
  unfold sort_desc. simpl fold_right. unfold insert_desc.
  destruct (Rle_dec 1 3); [|lra]. simpl.
  rewrite lookup_singleton_eq.
  unfold mul_, ge_mask. simpl.
  destruct (Rge_dec 3 3); [|lra]. destruct (Rge_dec 1 3); [lra|].
  reflexivity.
Qed.

Lemma prune_frame_witness :
  named_modules (model example_pruned) = named_modules (model example_pruner) ∧
  alpha example_pruned = alpha example_pruner ∧ beta example_pruned = beta example_pruner ∧
  gamma example_pruned = gamma example_pruner ∧
  layerwise_scores example_pruned = layerwise_scores example_pruner ∧
  (∀ l, grad (heap (model example_pruned) l) = grad (heap (model example_pruner) l)) ∧
  (∀ l, (∀ name w b, In (name, Linear w b) (named_modules (model example_pruner)) →
                     is_Some (layerwise_scores example_pruner !! name) → w ≠ l) →
        heap (model example_pruned) l = heap (model example_pruner) l) ∧
  (unique_names (model example_pruner) →
   ∃ thr, ∀ name w b sc,
     In (name, Linear w b) (named_modules (model example_pruner)) →
     layerwise_scores example_pruner !! name = Some sc →
     untied example_pruner name w →
     data (heap (model example_pruned) w)
     = zip_with Rmult (data (heap (model example_pruner) w)) (ge_mask sc thr)).
Proof. apply (prune_frame (1 / 2) example_pruner example_pruned example_prune_half). Defined.

(** ** Scoring: the estimators on a layer *)

Lemma compute_pqi_total (w : tensor) (b : positive) :
  (b <= 64)%positive → w ≠ [] → ∃ q, _compute_pqi w b = Return q ∧ length q = length w.
Proof.
  intros Hb Hw. destruct (tmin_spec w Hw) as (qmin & _ & Hmin).
  destruct (tmax_spec w Hw) as (qmax & _ & Hmax).
  destruct (compute_pqi_cases w b qmin qmax Hb Hmin Hmax) as (q & Hq & Hlen & _).
  eauto.
Qed.

Lemma compute_pqi_Return (w q : tensor) (b : positive) :
  _compute_pqi w b = Return q → w ≠ [] ∧ (b <= 64)%positive.
Proof.
  intros Hq. destruct w as [|x w]; [discriminate|]. split; [discriminate|].
  destruct (Pos.leb_spec 65 b) as [Hb|Hb]; [|lia].
  rewrite compute_pqi_overflow in Hq by (auto; discriminate). discriminate.
Qed.

Lemma compute_pqi_length (w q : tensor) (b : positive) :
  _compute_pqi w b = Return q → length q = length w.
Proof.
  intros Hq. destruct (compute_pqi_Return _ _ _ Hq) as [Hw Hb].
  destruct (compute_pqi_total w b Hb Hw) as (q' & Hq' & Hlen).
  congruence.
Qed.

Lemma compute_hessian_Return (w g : tensor) :
  length g = length w →
  ∃ h, _compute_hessian w g = Return h ∧ length h = length w.
Proof.
  intros Hlen. unfold _compute_hessian, tdiv.
  rewrite zipT_Return.
  - eexists. split; [reflexivity|]. rewrite length_zip_with.
    unfold tpow, mul_scalar, clamp_min. rewrite !length_map. lia.
  - unfold tpow, mul_scalar, clamp_min. rewrite !length_map. lia.
Qed.

Lemma compute_hessian_inv (w g h : tensor) :
  _compute_hessian w g = Return h → length g = length w ∧ length h = length w.
Proof.
  unfold _compute_hessian, tdiv. intros H. apply zipT_inv in H. destruct H as [Hlen ->].
  unfold tpow, mul_scalar, clamp_min in *. rewrite !length_map in Hlen.
  rewrite length_zip_with, !length_map. lia.
Qed.

Lemma layer_scores_total (w g : tensor) :
  w ≠ [] → length g = length w →
  ∃ pqi move hess, layer_scores w g = Return (pqi, move, hess) ∧
    length pqi = length w ∧ length move = length w ∧ length hess = length w.
Proof.
  intros Hw Hlen. unfold layer_scores.
  assert (8 <= 64)%positive as Hbits by lia.
  destruct (compute_pqi_total w 8 Hbits Hw) as (q & -> & Hq).
  destruct (compute_hessian_Return w g Hlen) as (h & -> & Hh). simpl.
  do 3 eexists. split; [reflexivity|].
  rewrite !normalize_length. unfold _compute_movement, tabs. rewrite length_map.
  auto.
Qed.

Lemma layer_scores_inv (w g pqi move hess : tensor) :
  layer_scores w g = Return (pqi, move, hess) →
  w ≠ [] ∧ length g = length w ∧
  (∃ q, _compute_pqi w 8 = Return q ∧ pqi = _normalize q) ∧
  move = _normalize (_compute_movement g) ∧
  (∃ h, _compute_hessian w g = Return h ∧ hess = _normalize h) ∧
  length pqi = length w ∧ length move = length w ∧ length hess = length w.
Proof.
  unfold layer_scores. intros H.
  destruct (_compute_pqi w 8) as [q|] eqn:Eq; [|discriminate]. simpl in H.
  destruct (_compute_hessian w g) as [h|] eqn:Eh; [|discriminate]. simpl in H.
  injection H as <- <- <-.
  apply compute_hessian_inv in Eh as Hh. destruct Hh as [Hg Hh].
  apply compute_pqi_length in Eq as Hq.
  split. { intros ->. discriminate. }
  split; [assumption|]. split; [eauto|]. split; [reflexivity|]. split; [eauto|].
  rewrite !normalize_length. unfold _compute_movement, tabs. rewrite length_map. auto.
Qed.

Lemma fuse_Return (a b c : R) (pqi move hess : tensor) :
  length move = length pqi → length hess = length pqi →
  fuse a b c pqi move hess
  = Return (zip_with Rplus (zip_with Rplus (mul_scalar pqi a) (mul_scalar move b))
              (mul_scalar hess c)).
Proof.
  intros Hm Hh. unfold fuse, tadd, mul_scalar.
  rewrite zipT_Return by (rewrite !length_map; lia). simpl.
  rewrite zipT_Return; [reflexivity|].
  rewrite length_zip_with, !length_map. lia.
Qed.

Lemma fuse_pqi_only (pqi move hess : tensor) :
  length move = length pqi → length hess = length pqi →
  fuse 1 0 0 pqi move hess = Return pqi.
Proof.
  intros Hm Hh. rewrite fuse_Return by assumption. f_equal.
  unfold mul_scalar. revert move hess Hm Hh.
  induction pqi as [|x p IH]; intros [|y m] [|z h] Hm Hh; simpl in *; try lia; [reflexivity|].
  rewrite IH by lia. f_equal. lra.
Qed.

(** ** Scoring: the adaptive weights *)

Lemma compute_entropy_total (t : tensor) : t ≠ [] → ∃ E, compute_entropy t = Return E.
Proof.
  intros Ht. unfold compute_entropy.
  destruct (tmin_spec t Ht) as (lo & -> & _). destruct (tmax_spec t Ht) as (hi & -> & _).
  simpl. unfold tmul, tlog, add_scalar. rewrite map_map, zipT_map_r. simpl. eauto.
Qed.

Lemma jittered_floor (E z : R) : 0.01 <= jittered E z.
Proof.
  unfold jittered. destruct (decide (E = 0)); [lra | apply Rmax_r].
Qed.

(** The entropy the code computes is the entropy of the specification. *)
Lemma compute_entropy_spec (t : tensor) (E : R) :
  compute_entropy t = Return E → entropy_of t E.
Proof.
  intros H. assert (t ≠ []) as Ht by (intros ->; discriminate).
  destruct (tmin_spec t Ht) as (lo & Hlo & Hmin).
  destruct (tmax_spec t Ht) as (hi & Hhi & Hmax).
  unfold compute_entropy in H. rewrite Hlo, Hhi in H.
  change (Return lo ≫= ?f) with (f lo) in H. cbv beta in H.
  change (Return hi ≫= ?f) with (f hi) in H. cbv beta zeta in H.
  assert (div_scalar (sub_scalar t lo) (hi - lo + 1e-8)
          = map (fun v => (v - lo) / (hi - lo + 1e-8)) t) as Hq
    by (unfold div_scalar, sub_scalar; apply map_map).
  rewrite Hq in H. unfold tmul, tlog, add_scalar, div_scalar in H.
  rewrite (map_map (fun v => v + 1e-8) ln), zipT_map_r in H.
  injection H as <-.
  exists lo, hi. split; [exact Hmin|]. split; [exact Hmax|]. reflexivity.
Qed.

(** The adaptive branch, given the three entropies: each inverse entropy
    receives its own draw scaled by [0.01], is clamped to [0.01], and the
    three are divided by their sum; three draws are consumed. *)
Lemma adaptive_weights_spec (pqi move hess : tensor) (g : Generator) (E1 E2 E3 : R) :
  compute_entropy pqi = Return E1 →
  compute_entropy move = Return E2 →
  compute_entropy hess = Return E3 →
  adaptive_weights pqi move hess g
  = (Return
       (let c1 := jittered E1 (draws g (consumed g)) in
        let c2 := jittered E2 (draws g (S (consumed g))) in
        let c3 := jittered E3 (draws g (S (S (consumed g)))) in
        [c1 / (c1 + (c2 + (c3 + 0))); c2 / (c1 + (c2 + (c3 + 0)));
         c3 / (c1 + (c2 + (c3 + 0)))]),
     {| draws := draws g; consumed := (consumed g + 3)%nat |}).
Proof.
  intros H1 H2 H3. unfold adaptive_weights. rewrite H1, H2, H3.
  change (Return E1 ≫= ?f) with (f E1). cbv beta.
  change (Return E2 ≫= ?f) with (f E2). cbv beta.
  change (Return E3 ≫= ?f) with (f E3). cbv beta.
  unfold jittered, inverse.
  destruct (decide (E1 = 0)), (decide (E2 = 0)), (decide (E3 = 0)); reflexivity.
Qed.

(** ** Scoring: the loop with frozen weights *)

Lemma scored_layers_cons (name : string) (md : Module) (mods : list (string * Module))
    (h : loc → Param) :
  scored_layers {| named_modules := (name, md) :: mods; heap := h |} =
  match md with
  | Linear w _ =>
      match grad (h w) with
      | Some g => (name, w, g) :: scored_layers {| named_modules := mods; heap := h |}
      | None => scored_layers {| named_modules := mods; heap := h |}
      end
  | OtherModule _ => scored_layers {| named_modules := mods; heap := h |}
  end.
Proof.
  unfold scored_layers. simpl. destruct md as [w b|ps]; [|reflexivity].
  destruct (grad (h w)); reflexivity.
Qed.

Lemma scored_names_sub (mods : list (string * Module)) (h : loc → Param) (n : string) :
  n ∈ scored_names {| named_modules := mods; heap := h |} → n ∈ map fst mods.
Proof.
  unfold scored_names. rewrite elem_of_list_to_set.
  induction mods as [|[name md] mods IH]; [intros H; inversion H|].
  rewrite scored_layers_cons. simpl.
  assert (n ∈ map (fun l : string * loc * tensor => l.1.1)
                (scored_layers {| named_modules := mods; heap := h |}) →
          n ∈ name :: map fst mods) as Htl.
  { intros H. right. apply IH, H. }
  destruct md as [w b|ps]; [|exact Htl].
  destruct (grad (h w)); [|exact Htl].
  simpl. intros H. apply elem_of_cons in H. destruct H as [->|H]; [left | auto].
Qed.

Lemma model_eta (m : Model) : {| named_modules := named_modules m; heap := heap m |} = m.
Proof. destruct m; reflexivity. Qed.

Lemma scored_post_nil (self : SmartSparsePruner) : scored_post self self [].
Proof.
  unfold scored_post, scored_names, scored_layers. simpl.
  split; [rewrite union_empty_r_L; reflexivity|].
  split; [reflexivity|]. intros _. constructor.
Qed.

Lemma scored_post_skip (self self' : SmartSparsePruner) (name : string) (md : Module)
    (mods : list (string * Module)) :
  match md with
  | Linear w _ => grad (heap (model self) w) = None
  | OtherModule _ => True
  end →
  scored_post self self' mods → scored_post self self' ((name, md) :: mods).
Proof.
  unfold scored_post, scored_names. intros Hmd (Hdom & Hother & Hall).
  rewrite scored_layers_cons.
  assert (NoDup (map fst ((name, md) :: mods)) → NoDup (map fst mods)) as Hnd.
  { simpl. intros H. apply NoDup_cons in H. apply H. }
  destruct md as [w b|ps]; [rewrite Hmd|]; auto.
Qed.

Lemma scored_post_step (self self' : SmartSparsePruner) (name : string) (w : loc)
    (b : option loc) (g pqi move hess fused : tensor) (mods : list (string * Module)) :
  grad (heap (model self) w) = Some g →
  layer_scores (data (heap (model self) w)) g = Return (pqi, move, hess) →
  fuse (alpha self) (beta self) (gamma self) pqi move hess = Return fused →
  scored_post (set_score self name fused) self' mods →
  scored_post self self' ((name, Linear w b) :: mods).
Proof.
  unfold scored_post, scored_names. simpl. intros Eg El Ef (Hdom & Hother & Hall).
  rewrite scored_layers_cons, Eg. simpl. split; [|split].
  - rewrite Hdom, dom_insert_L, (union_comm_L {[name]}), <- union_assoc_L. reflexivity.
  - intros n Hn. rewrite not_elem_of_union, not_elem_of_singleton in Hn.
    destruct Hn as [Hne Hn]. rewrite (Hother n Hn). apply lookup_insert_ne. congruence.
  - intros Hnd. apply NoDup_cons in Hnd. destruct Hnd as [Hfresh Hnd].
    constructor; [|apply Hall, Hnd].
    exists pqi, move, hess, fused. simpl. split; [assumption|]. split; [assumption|].
    rewrite Hother; [apply lookup_insert_eq|].
    intros Hin. apply Hfresh. eapply scored_names_sub. exact Hin.
Qed.

(** The loop of the first two definitions of the class. *)
Lemma fixed_loop (mods : list (string * Module)) :
  ∀ self o self',
    for_each score_module_fixed mods self = (o, self') →
    model self' = model self ∧
    alpha self' = alpha self ∧ beta self' = beta self ∧ gamma self' = gamma self ∧
    (o = Return () → scored_post self self' mods).
Proof.
  induction mods as [|[name md] mods IH]; intros self o self' Hrun.
  - simpl in Hrun. injection Hrun as <- <-.
    split; [reflexivity|]. split; [reflexivity|]. split; [reflexivity|].
    split; [reflexivity|]. intros _. apply scored_post_nil.
  - assert (∀ e, (Raise e : outcome unit, self) = (o, self') →
        model self' = model self ∧
        alpha self' = alpha self ∧ beta self' = beta self ∧ gamma self' = gamma self ∧
        (o = Return () → scored_post self self' ((name, md) :: mods))) as Hraise.
    { intros e [= <- <-]. repeat split; auto; discriminate. }
    assert (for_each score_module_fixed mods self = (o, self') →
        match md with
        | Linear w _ => grad (heap (model self) w) = None
        | OtherModule _ => True
        end →
        model self' = model self ∧
        alpha self' = alpha self ∧ beta self' = beta self ∧ gamma self' = gamma self ∧
        (o = Return () → scored_post self self' ((name, md) :: mods))) as Hskip.
    { intros Hrest Hmd. apply IH in Hrest.
      destruct Hrest as (Hm & Ha & Hb & Hc & Hpost).
      split; [assumption|]. split; [assumption|]. split; [assumption|].
      split; [assumption|]. intros Ho. apply scored_post_skip; auto. }
    simpl in Hrun.
    destruct md as [w b|ps]; [|apply Hskip; auto].
    destruct (grad (heap (model self) w)) as [g|] eqn:Eg; [|apply Hskip; auto].
    destruct (layer_scores (data (heap (model self) w)) g) as [[[pqi move] hess]|e] eqn:El;
      [|eapply Hraise, Hrun].
    destruct (fuse (alpha self) (beta self) (gamma self) pqi move hess) as [fused|e] eqn:Ef;
      [|eapply Hraise, Hrun].
    apply IH in Hrun. simpl in Hrun. destruct Hrun as (Hm & Ha & Hb & Hc & Hpost).
    split; [assumption|]. split; [assumption|]. split; [assumption|].
    split; [assumption|]. intros Ho. eapply scored_post_step; eauto.
Qed.

Lemma is_adaptive_true (self : SmartSparsePruner) :
  is_adaptive self = true ↔ alpha self = -1 ∧ beta self = -1 ∧ gamma self = -1.
Proof.
  unfold is_adaptive. rewrite !andb_true_iff, !bool_decide_eq_true. split.
  - intros [[H1 H2] H3]. repeat split; congruence.
  - intros (H1 & H2 & H3). repeat split; congruence.
Qed.

Lemma is_adaptive_positive (self : SmartSparsePruner) :
  0 < gamma self → is_adaptive self = false.
Proof.
  intros Hg. destruct (is_adaptive self) eqn:E; [|reflexivity].
  apply is_adaptive_true in E. destruct E as (_ & _ & E). lra.
Qed.

Lemma is_adaptive_ext (self self' : SmartSparsePruner) :
  alpha self' = alpha self → beta self' = beta self → gamma self' = gamma self →
  is_adaptive self' = is_adaptive self.
Proof. unfold is_adaptive. intros -> -> ->. reflexivity. Qed.

Lemma score_module_fixed_weights (nm : string * Module) (self self' : SmartSparsePruner)
    (o : outcome unit) :
  score_module_fixed nm self = (o, self') →
  alpha self' = alpha self ∧ beta self' = beta self ∧ gamma self' = gamma self.
Proof.
  destruct nm as [name md]. unfold score_module_fixed.
  destruct md as [w b|ps]; [|intros [= <- <-]; auto].
  destruct (grad _) as [g|]; [|intros [= <- <-]; auto].
  destruct (layer_scores _ _) as [[[pqi move] hess]|e]; [|intros [= <- <-]; auto].
  destruct (fuse _ _ _ _ _ _) as [fused|e]; intros [= <- <-]; auto.
Qed.

(** Outside adaptive mode the last definition of the class runs the loop body
    of the first two, and the generator is not used. *)
Lemma score_module_not_adaptive (nm : string * Module) (self : SmartSparsePruner)
    (rng : Generator) :
  is_adaptive self = false →
  score_module nm (self, rng)
  = (let '(o, self') := score_module_fixed nm self in (o, (self', rng))).
Proof.
  intros Hna. destruct nm as [name md]. unfold score_module, score_module_fixed.
  destruct md as [w b|ps]; [|reflexivity].
  destruct (grad _) as [g|]; [|reflexivity].
  destruct (layer_scores _ _) as [[[pqi move] hess]|e]; [|reflexivity].
  rewrite Hna. destruct (fuse _ _ _ _ _ _) as [fused|e]; reflexivity.
Qed.

Lemma score_loop_not_adaptive (mods : list (string * Module)) :
  ∀ self rng,
    is_adaptive self = false →
    for_each score_module mods (self, rng)
    = (let '(o, self') := for_each score_module_fixed mods self in (o, (self', rng))).
Proof.
  induction mods as [|nm mods IH]; intros self rng Hna; [reflexivity|].
  simpl. rewrite score_module_not_adaptive by assumption.
  destruct (score_module_fixed nm self) as [[u|e] self1] eqn:E; [|reflexivity].
  apply score_module_fixed_weights in E. destruct E as (Ha & Hb & Hc).
  apply IH. rewrite (is_adaptive_ext self self1); assumption.
Qed.

Lemma adaptive_weights_inv (pqi move hess : tensor) (g g' : Generator) (ws : tensor) :
  adaptive_weights pqi move hess g = (Return ws, g') →
  ∃ E1 E2 E3,
    compute_entropy pqi = Return E1 ∧ compute_entropy move = Return E2 ∧
    compute_entropy hess = Return E3.
Proof.
  unfold adaptive_weights.
  destruct (compute_entropy pqi) as [E1|]; [|discriminate].
  destruct (compute_entropy move) as [E2|]; [|discriminate].
  destruct (compute_entropy hess) as [E3|]; [|discriminate].
  intros _. exists E1, E2, E3. auto.
Qed.

(** ** Scoring: the loop in adaptive mode *)

Lemma adaptive_triple_sum (pqi move hess : tensor) (g : Generator) (a b c : R) :
  adaptive_triple pqi move hess g (a, b, c) → 0 < a ∧ 0 < b ∧ 0 < c ∧ a + b + c = 1.
Proof.
  intros (E1 & E2 & E3 & _ & _ & _ & Habc). simpl in Habc. injection Habc as -> -> ->.
  pose proof (jittered_floor E1 (draws g (consumed g))).
  pose proof (jittered_floor E2 (draws g (S (consumed g)))).
  pose proof (jittered_floor E3 (draws g (S (S (consumed g))))).
  repeat split; try (apply Rdiv_lt_0_compat; lra). field. lra.
Qed.

Lemma adaptive_weights_triple (pqi move hess : tensor) (g g' : Generator) (ws : tensor) :
  adaptive_weights pqi move hess g = (Return ws, g') →
  ∃ a b c, ws = [a; b; c] ∧
           g' = {| draws := draws g; consumed := (consumed g + 3)%nat |} ∧
           adaptive_triple pqi move hess g (a, b, c).
Proof.
  intros Hr. destruct (adaptive_weights_inv _ _ _ _ _ _ Hr) as (E1 & E2 & E3 & H1 & H2 & H3).
  rewrite (adaptive_weights_spec _ _ _ _ _ _ _ H1 H2 H3) in Hr. injection Hr as <- <-.
  do 3 eexists. split; [reflexivity|]. split; [reflexivity|].
  exists E1, E2, E3.
  split; [apply compute_entropy_spec, H1|]. split; [apply compute_entropy_spec, H2|].
  split; [apply compute_entropy_spec, H3|].
  simpl. rewrite !Rplus_0_r, !Rplus_assoc. reflexivity.
Qed.

Lemma adaptive_loop (mods : list (string * Module)) :
  ∀ self rng self' rng',
    is_adaptive self = true →
    for_each score_module mods (self, rng) = (Return (), (self', rng')) →
    model self' = model self ∧
    match scored_layers {| named_modules := mods; heap := heap (model self) |} with
    | [] => self' = self ∧ rng' = rng
    | l1 :: _ =>
        ∃ pqi move hess,
          layer_scores (data (heap (model self) l1.1.2)) l1.2 = Return (pqi, move, hess) ∧
          adaptive_triple pqi move hess rng (alpha self', beta self', gamma self') ∧
          rng' = {| draws := draws rng; consumed := (consumed rng + 3)%nat |} ∧
          scored_post (set_fusion self (alpha self') (beta self') (gamma self')) self' mods
    end.
Proof.
  induction mods as [|[name md] mods IH]; intros self rng self' rng' Had Hrun.
  - simpl in Hrun. injection Hrun as <- <-. split; [reflexivity|].
    unfold scored_layers. simpl. auto.
  - assert (for_each score_module mods (self, rng) = (Return (), (self', rng')) →
        match md with
        | Linear w _ => grad (heap (model self) w) = None
        | OtherModule _ => True
        end →
        model self' = model self ∧
        match scored_layers {| named_modules := (name, md) :: mods; heap := heap (model self) |}
        with
        | [] => self' = self ∧ rng' = rng
        | l1 :: _ =>
            ∃ pqi move hess,
              layer_scores (data (heap (model self) l1.1.2)) l1.2 = Return (pqi, move, hess) ∧
              adaptive_triple pqi move hess rng (alpha self', beta self', gamma self') ∧
              rng' = {| draws := draws rng; consumed := (consumed rng + 3)%nat |} ∧
              scored_post (set_fusion self (alpha self') (beta self') (gamma self')) self'
                ((name, md) :: mods)
        end) as Hskip.
    { intros Hrest Hmd. apply IH in Hrest; [|assumption]. destruct Hrest as [Hm Hrest].
      split; [assumption|]. rewrite scored_layers_cons.
      assert (match md with
              | Linear w _ =>
                  match grad (heap (model self) w) with
                  | Some g => (name, w, g)
                              :: scored_layers {| named_modules := mods; heap := heap (model self) |}
                  | None => scored_layers {| named_modules := mods; heap := heap (model self) |}
                  end
              | OtherModule _ => scored_layers {| named_modules := mods; heap := heap (model self) |}
              end = scored_layers {| named_modules := mods; heap := heap (model self) |}) as ->.
      { destruct md as [w b|ps]; [rewrite Hmd|]; reflexivity. }
      destruct (scored_layers _) as [|l1 ls]; [assumption|].
      destruct Hrest as (pqi & move & hess & Hl & Ht & Hr & Hp).
      exists pqi, move, hess. split; [assumption|]. split; [assumption|].
      split; [assumption|]. apply scored_post_skip; assumption. }
    simpl in Hrun.
    destruct md as [w b|ps]; [|apply Hskip; auto].
    destruct (grad (heap (model self) w)) as [g|] eqn:Eg; [|apply Hskip; auto].
    clear Hskip. rewrite scored_layers_cons, Eg. simpl.
    destruct (layer_scores (data (heap (model self) w)) g) as [[[pqi move] hess]|e] eqn:El;
      [|discriminate].
    rewrite Had in Hrun.
    destruct (adaptive_weights pqi move hess rng) as [[ws|e] rng1] eqn:Ew; [|discriminate].
    destruct (adaptive_weights_triple _ _ _ _ _ _ Ew) as (a & b0 & c & -> & -> & Htriple).
    destruct (adaptive_triple_sum _ _ _ _ _ _ _ Htriple) as (Ha & Hb & Hc & Hsum).
    simpl in Hrun.
    destruct (fuse a b0 c pqi move hess) as [fused|e] eqn:Ef; [|discriminate].
    rewrite score_loop_not_adaptive in Hrun by (apply is_adaptive_positive; exact Hc).
    destruct (for_each score_module_fixed mods _) as [o1 self1] eqn:Eloop.
    injection Hrun as -> -> <-.
    apply fixed_loop in Eloop. simpl in Eloop.
    destruct Eloop as (Hm & Hal & Hbe & Hga & Hpost).
    split; [assumption|]. exists pqi, move, hess.
    rewrite Hal, Hbe, Hga. split; [reflexivity|]. split; [assumption|].
    split; [reflexivity|].
    eapply scored_post_step; simpl; eauto.
Qed.

(** ** Scoring: a pass returns on well-shaped layers *)

Lemma score_module_total (nm : string * Module) (self : SmartSparsePruner) (rng : Generator) :
  match nm.2 with
  | Linear w _ =>
      match grad (heap (model self) w) with
      | Some g => data (heap (model self) w) ≠ [] ∧ length g = length (data (heap (model self) w))
      | None => True
      end
  | OtherModule _ => True
  end →
  ∃ self1 rng1,
    score_module nm (self, rng) = (Return (), (self1, rng1)) ∧ model self1 = model self.
Proof.
  destruct nm as [name md]. simpl. intros Hok. unfold score_module.
  destruct md as [w b|ps]; [|eauto].
  destruct (grad (heap (model self) w)) as [g|]; [|eauto].
  destruct Hok as [Hw Hg].
  destruct (layer_scores_total _ _ Hw Hg) as (pqi & move & hess & -> & Hp & Hm & Hh).
  assert (∀ t : tensor, length t = length (data (heap (model self) w)) → t ≠ []) as Hne.
  { intros t Ht ->. simpl in Ht. destruct (data (heap (model self) w)); [congruence | discriminate]. }
  destruct (is_adaptive self).
  - destruct (compute_entropy_total pqi (Hne _ Hp)) as [E1 H1].
    destruct (compute_entropy_total move (Hne _ Hm)) as [E2 H2].
    destruct (compute_entropy_total hess (Hne _ Hh)) as [E3 H3].
    rewrite (adaptive_weights_spec _ _ _ _ _ _ _ H1 H2 H3). cbv zeta. simpl.
    rewrite fuse_Return by congruence. eauto.
  - rewrite fuse_Return by congruence. eauto.
Qed.

Lemma score_loop_total (mods : list (string * Module)) :
  ∀ self rng,
    (∀ name w g,
       In (name, w, g) (scored_layers {| named_modules := mods; heap := heap (model self) |}) →
       data (heap (model self) w) ≠ [] ∧ length g = length (data (heap (model self) w))) →
    ∃ self' rng', for_each score_module mods (self, rng) = (Return (), (self', rng')).
Proof.
  induction mods as [|[name md] mods IH]; intros self rng Hok; [simpl; eauto|].
  rewrite scored_layers_cons in Hok.
  destruct (score_module_total (name, md) self rng) as (self1 & rng1 & Hstep & Hm).
  { simpl. destruct md as [w b|ps]; [|exact I].
    destruct (grad (heap (model self) w)) as [g|]; [|exact I].
    apply (Hok name w g). left. reflexivity. }
  rewrite for_each_cons, Hstep. apply IH. rewrite Hm. intros n w g Hin. apply (Hok n w g).
  destruct md as [w' b|ps]; [|exact Hin].
  destruct (grad (heap (model self) w')); [right|]; exact Hin.
Qed.

(** ** Scoring: the claims *)

Section ScoringProperties.

Variable Inputs : Type.
Variable backward : Inputs → Model → loc → option tensor.

(** A pass outside adaptive mode. *)
Lemma fixed_pass (inputs : Inputs) (self self' : SmartSparsePruner) (rng rng' : Generator) :
  is_adaptive self = false →
  compute_importance_scores backward inputs (self, rng) = (Return (), (self', rng')) →
  rng' = rng ∧
  compute_importance_scores_fixed backward inputs self = (Return (), self') ∧
  model self' = model (run_backward backward inputs self) ∧
  alpha self' = alpha self ∧ beta self' = beta self ∧ gamma self' = gamma self ∧
  scored_post (run_backward backward inputs self) self' (named_modules (model self)).
Proof.
  intros Hna Hrun. unfold compute_importance_scores in Hrun.
  rewrite score_loop_not_adaptive in Hrun by exact Hna.
  unfold compute_importance_scores_fixed.
  destruct (for_each score_module_fixed _ _) as [o self1] eqn:Eloop.
  injection Hrun as -> -> ->. split; [reflexivity|]. split; [reflexivity|].
  apply fixed_loop in Eloop. destruct Eloop as (Hm & Ha & Hb & Hc & Hpost).
  split; [exact Hm|]. split; [exact Ha|]. split; [exact Hb|]. split; [exact Hc|].
  apply Hpost. reflexivity.
Qed.

(** A pass in adaptive mode. *)
Lemma adaptive_pass (inputs : Inputs) (self self' : SmartSparsePruner) (rng rng' : Generator) :
  is_adaptive self = true →
  compute_importance_scores backward inputs (self, rng) = (Return (), (self', rng')) →
  model self' = model (run_backward backward inputs self) ∧
  match scored_layers (model (run_backward backward inputs self)) with
  | [] => self' = run_backward backward inputs self ∧ rng' = rng
  | l1 :: _ =>
      ∃ pqi move hess,
        layer_scores (data (heap (model self) l1.1.2)) l1.2 = Return (pqi, move, hess) ∧
        adaptive_triple pqi move hess rng (alpha self', beta self', gamma self') ∧
        rng' = {| draws := draws rng; consumed := (consumed rng + 3)%nat |} ∧
        scored_post
          (set_fusion (run_backward backward inputs self)
             (alpha self') (beta self') (gamma self'))
          self' (named_modules (model self))
  end.
Proof.
  intros Had Hrun. unfold compute_importance_scores in Hrun.
  apply adaptive_loop in Hrun; [|exact Had].
  rewrite model_eta in Hrun. exact Hrun.
Qed.

(** What a pass that returns makes of the key set of the mapping. *)
Lemma pass_domain (inputs : Inputs) (self self' : SmartSparsePruner) (rng rng' : Generator) :
  compute_importance_scores backward inputs (self, rng) = (Return (), (self', rng')) →
  dom (layerwise_scores self')
  = dom (layerwise_scores self) ∪ scored_names (model (run_backward backward inputs self)).
Proof.
  intros Hrun. destruct (is_adaptive self) eqn:Had.
  - apply adaptive_pass in Hrun; [|exact Had]. destruct Hrun as [_ Hrun].
    unfold scored_names.
    destruct (scored_layers _) as [|l1 ls] eqn:El.
    + destruct Hrun as [-> _]. simpl. rewrite union_empty_r_L. reflexivity.
    + destruct Hrun as (pqi & move & hess & _ & _ & _ & Hpost).
      destruct Hpost as (Hdom & _ & _). rewrite Hdom. unfold scored_names.
      change (scored_layers _) with (scored_layers (model (run_backward backward inputs self))).
      rewrite El. reflexivity.
  - destruct (fixed_pass _ _ _ _ _ Had Hrun) as (_ & _ & _ & _ & _ & _ & Hpost).
    destruct Hpost as (Hdom & _ & _). exact Hdom.
Qed.

Lemma pass_model (inputs : Inputs) (self self' : SmartSparsePruner) (rng rng' : Generator) :
  compute_importance_scores backward inputs (self, rng) = (Return (), (self', rng')) →
  model self' = model (run_backward backward inputs self).
Proof.
  intros Hrun. destruct (is_adaptive self) eqn:Had.
  - apply adaptive_pass in Hrun; [apply Hrun | exact Had].
  - apply fixed_pass in Hrun; [apply Hrun | exact Had].
Qed.

Lemma pass_total (inputs : Inputs) (self : SmartSparsePruner) (rng : Generator) :
  well_shaped backward inputs self →
  ∃ self' rng',
    compute_importance_scores backward inputs (self, rng) = (Return (), (self', rng')).
Proof.
  intros Hok. unfold compute_importance_scores. apply score_loop_total.
  rewrite model_eta. exact Hok.
Qed.

(** C6.  In fixed mode with [alpha = 1], [beta = 0], [gamma = 0], after a
    scoring pass that returns, in the last definition of the class as in
    the first two, the entry stored for every processed layer is the
    normalised quantization-error score of that layer, elementwise. *)
Theorem fixed_pqi_only_fusion (inputs : Inputs) (self : SmartSparsePruner) :
  alpha self = 1 → beta self = 0 → gamma self = 0 → unique_names (model self) →
  (∀ rng self' rng',
     compute_importance_scores backward inputs (self, rng) = (Return (), (self', rng')) →
     ∀ name w g,
       In (name, w, g) (scored_layers (model (run_backward backward inputs self))) →
       ∃ q, _compute_pqi (data (heap (model self) w)) 8 = Return q ∧
            layerwise_scores self' !! name = Some (_normalize q)) ∧
  (∀ self',
     compute_importance_scores_fixed backward inputs self = (Return (), self') →
     ∀ name w g,
       In (name, w, g) (scored_layers (model (run_backward backward inputs self))) →
       ∃ q, _compute_pqi (data (heap (model self) w)) 8 = Return q ∧
            layerwise_scores self' !! name = Some (_normalize q)).
Proof.
  intros Ha Hb Hc Hnames.
  assert (∀ self',
     compute_importance_scores_fixed backward inputs self = (Return (), self') →
     ∀ name w g,
       In (name, w, g) (scored_layers (model (run_backward backward inputs self))) →
       ∃ q, _compute_pqi (data (heap (model self) w)) 8 = Return q ∧
            layerwise_scores self' !! name = Some (_normalize q)) as Hfixed.
  { intros self' Hrun name w g Hin. unfold compute_importance_scores_fixed in Hrun.
    apply fixed_loop in Hrun. destruct Hrun as (_ & _ & _ & _ & Hpost).
    destruct (Hpost eq_refl) as (_ & _ & Hall). specialize (Hall Hnames).
    rewrite model_eta in Hall. rewrite Forall_forall in Hall.
    apply list_elem_of_In in Hin. specialize (Hall _ Hin).
    destruct Hall as (pqi & move & hess & fused & Hl & Hf & Hs). simpl in Hl, Hf, Hs.
    rewrite Ha, Hb, Hc in Hf.
    apply layer_scores_inv in Hl.
    destruct Hl as (_ & _ & (q & Hq & ->) & _ & _ & Hp & Hm & Hh).
    rewrite fuse_pqi_only in Hf by congruence. injection Hf as <-.
    exists q. split; assumption. }
  split; [|exact Hfixed].
  intros rng self' rng' Hrun. apply Hfixed.
  apply fixed_pass in Hrun; [apply Hrun|].
  destruct (is_adaptive self) eqn:E; [|reflexivity].
  apply is_adaptive_true in E. lra.
Qed.


Lemma passes_domain (batches : list Inputs) :
  ∀ st st',
    scoring_passes backward batches st = (Return (), st') →
    dom (layerwise_scores st'.1)
    = dom (layerwise_scores st.1) ∪ observed_over backward batches st.
Proof.
  unfold scoring_passes.
  induction batches as [|i batches IH]; intros st st' Hrun.
  - simpl in Hrun. injection Hrun as <-. simpl. rewrite union_empty_r_L. reflexivity.
  - rewrite for_each_cons in Hrun.
    change (observed_over backward (i :: batches) st)
      with (scored_names (model (run_backward backward i st.1))
            ∪ observed_over backward batches (compute_importance_scores backward i st).2).
    destruct (compute_importance_scores backward i st) as [[[]|e] st1] eqn:Epass;
      [|discriminate].
    apply IH in Hrun. rewrite Hrun.
    destruct st as [self rng], st1 as [self1 rng1].
    apply pass_domain in Epass. unfold fst, snd. rewrite Epass, union_assoc_L.
    reflexivity.
Qed.

(** C9, amended.  After any sequence of scoring passes that return on one
    pruner, the keys of the mapping are exactly the keys it had before the
    sequence (none after construction) together with the names of the linear
    layers whose gradient was observed during at least one of the passes: a
    pass adds or replaces the entries of the layers it processes and removes
    none. *)
Theorem scoring_passes_domain (batches : list Inputs) (st st' : SmartSparsePruner * Generator) :
  scoring_passes backward batches st = (Return (), st') →
  dom (layerwise_scores st'.1)
  = dom (layerwise_scores st.1) ∪ observed_over backward batches st ∧
  (layerwise_scores st.1 = ∅ →
   dom (layerwise_scores st'.1) = observed_over backward batches st).
Proof.
  intros Hrun. apply passes_domain in Hrun. split; [exact Hrun|].
  intros Hempty. rewrite Hrun, Hempty, dom_empty_L, union_empty_l_L. reflexivity.
Qed.

End ScoringProperties.

(** ** Scoring passes on the example model *)

Lemma example_scored_layers_none (self : SmartSparsePruner) :
  named_modules (model self) = named_modules example_model →
  scored_layers (model (run_backward example_backward false self)) = [].
Proof. unfold scored_layers. simpl. intros ->. reflexivity. Qed.

Lemma example_scored_layers (self : SmartSparsePruner) :
  named_modules (model self) = named_modules example_model →
  scored_layers (model (run_backward example_backward true self)) = [("fc", 0%nat, [1; 2])].
Proof. unfold scored_layers. simpl. intros ->. reflexivity. Qed.

Lemma example_well_shaped (batch : bool) (self : SmartSparsePruner) :
  named_modules (model self) = named_modules example_model →
  (∀ l, data (heap (model self) l) = data (heap example_model l)) →
  well_shaped example_backward batch self.
Proof.
  intros Hmods Hdata name w g Hin. destruct batch.
  - rewrite example_scored_layers in Hin by exact Hmods.
    destruct Hin as [[= <- <- <-]|[]]. rewrite Hdata. simpl. split; [discriminate | reflexivity].
  - rewrite example_scored_layers_none in Hin by exact Hmods. destruct Hin.
Qed.

Lemma stale_scores_run :
  ∃ st',
    scoring_passes example_backward [true; false]
      (init example_model (-1) (-1) (-1), example_rng) = (Return (), st').
Proof.
  destruct (pass_total bool example_backward true (init example_model (-1) (-1) (-1))
              example_rng) as (self1 & rng1 & Hrun1).
  { apply example_well_shaped; reflexivity. }
  pose proof (pass_model _ _ _ _ _ _ _ Hrun1) as Hm1.
  destruct (pass_total bool example_backward false self1 rng1) as (self2 & rng2 & Hrun2).
  { apply example_well_shaped; rewrite Hm1; reflexivity. }
  exists (self2, rng2).
  unfold scoring_passes. rewrite for_each_cons, Hrun1, for_each_cons, Hrun2. reflexivity.
Qed.

(** C9, as stated, fails: a first pass observes a gradient on the weight of
    [fc], a second pass observes none on it (no layer is processed), and
    after the second pass the mapping still holds the entry of [fc]. *)
Lemma stale_scores_counterexample :
  ∃ self2 rng2,
    scoring_passes example_backward [true; false]
      (init example_model (-1) (-1) (-1), example_rng) = (Return (), (self2, rng2)) ∧
    scored_names (model self2) = ∅ ∧
    "fc" ∈ dom (layerwise_scores self2).
Proof.
  destruct (pass_total bool example_backward true (init example_model (-1) (-1) (-1))
              example_rng) as (self1 & rng1 & Hrun1).
  { apply example_well_shaped; reflexivity. }
  pose proof (pass_model _ _ _ _ _ _ _ Hrun1) as Hm1.
  destruct (pass_total bool example_backward false self1 rng1) as (self2 & rng2 & Hrun2).
  { apply example_well_shaped; rewrite Hm1; reflexivity. }
  pose proof (pass_model _ _ _ _ _ _ _ Hrun2) as Hm2.
  assert (scoring_passes example_backward [true; false]
            (init example_model (-1) (-1) (-1), example_rng) = (Return (), (self2, rng2)))
    as Hrun.
  { unfold scoring_passes. rewrite for_each_cons, Hrun1, for_each_cons, Hrun2. reflexivity. }
  exists self2, rng2. split; [exact Hrun|]. split.
  - unfold scored_names. rewrite Hm2, example_scored_layers_none; [reflexivity|].
    rewrite Hm1. reflexivity.
  - pose proof (passes_domain _ _ _ _ _ Hrun) as Hdom.
    unfold fst in Hdom. rewrite Hdom.
    apply elem_of_union_r, elem_of_union_l.
    unfold scored_names.
    rewrite example_scored_layers by reflexivity. simpl. apply elem_of_union_l.
    apply elem_of_singleton. reflexivity.
Qed.

Lemma scoring_passes_domain_witness :
  ∃ st',
    scoring_passes example_backward [true; false]
      (init example_model (-1) (-1) (-1), example_rng) = (Return (), st') ∧
    dom (layerwise_scores st'.1)
    = dom (layerwise_scores (init example_model (-1) (-1) (-1), example_rng).1)
      ∪ observed_over example_backward [true; false]
          (init example_model (-1) (-1) (-1), example_rng) ∧
    (layerwise_scores (init example_model (-1) (-1) (-1), example_rng).1 = ∅ →
     dom (layerwise_scores st'.1)
     = observed_over example_backward [true; false]
         (init example_model (-1) (-1) (-1), example_rng)).
Proof.
  destruct stale_scores_run as (st' & Hrun).
  exists st'. split; [exact Hrun|].
  apply (scoring_passes_domain bool example_backward [true; false] _ _ Hrun).
Defined.

Lemma fixed_pqi_only_fusion_witness :
  (∃ self' rng',
     compute_importance_scores example_backward true (init example_model 1 0 0, example_rng)
     = (Return (), (self', rng'))) ∧
  (∀ rng self' rng',
     compute_importance_scores example_backward true (init example_model 1 0 0, rng)
     = (Return (), (self', rng')) →
     ∀ name w g,
       In (name, w, g)
         (scored_layers (model (run_backward example_backward true (init example_model 1 0 0)))) →
       ∃ q, _compute_pqi (data (heap (model (init example_model 1 0 0)) w)) 8 = Return q ∧
            layerwise_scores self' !! name = Some (_normalize q)) ∧
  (∀ self',
     compute_importance_scores_fixed example_backward true (init example_model 1 0 0)
     = (Return (), self') →
     ∀ name w g,
       In (name, w, g)
         (scored_layers (model (run_backward example_backward true (init example_model 1 0 0)))) →
       ∃ q, _compute_pqi (data (heap (model (init example_model 1 0 0)) w)) 8 = Return q ∧
            layerwise_scores self' !! name = Some (_normalize q)).
Proof.
  split.
  - apply pass_total, example_well_shaped; reflexivity.
  - apply (fixed_pqi_only_fusion bool example_backward true (init example_model 1 0 0)).
    + reflexivity.
    + reflexivity.
    + reflexivity.
    + exact example_unique_names.
Defined.

(** ** Scoring passes on the model of two layers *)





(** * Further properties of the estimators *)

Lemma lookup_map {A B : Type} (f : A → B) (l : list A) (i : nat) :
  map f l !! i = f <$> (l !! i).
Proof.
  revert i. induction l as [|x l IH]; intros [|i]; simpl; auto.
Qed.

Lemma zipT_mismatch (f : R → R → R) (a b : tensor) :
  length a ≠ length b → zipT f a b = Raise RuntimeError.
Proof.
  revert b. induction a as [|x a IH]; intros [|y b] Hlen; simpl in *; try congruence.
  rewrite IH by lia. reflexivity.
Qed.

(** ** Quantization error *)

Lemma round_trip_error (w qmin scale : R) :
  0 < scale →
  0 <= (w - (IZR (round_half_even ((w - qmin) / scale)) * scale + qmin)) ^ 2
    <= (scale / 2) ^ 2.
Proof.
  intros Hs. pose proof (round_half_even_nearest ((w - qmin) / scale)) as Hr.
  apply Rabs_le_bounds in Hr.
  set (z := IZR (round_half_even ((w - qmin) / scale))) in *.
  assert (w - qmin = (w - qmin) / scale * scale) as Hw by (field; lra).
  set (x := (w - qmin) / scale) in *.
  replace (w - (z * scale + qmin)) with ((x - z) * scale) by lra.
  split; [apply pow2_ge_0|].
  replace (((x - z) * scale) ^ 2) with ((x - z) ^ 2 * scale ^ 2) by ring.
  replace ((scale / 2) ^ 2) with ((1 / 2) ^ 2 * scale ^ 2) by field.
  apply Rmult_le_compat_r; [apply pow2_ge_0|]. nra.
Qed.

(** X1.  The quantization error of every weight lies between [0] and
    [(scale / 2)^2], and it is [0] at every position that holds the least or
    the greatest weight: the two ends of the range are quantization levels. *)
Theorem compute_pqi_error_bound (W E : tensor) (b : positive) (qmin qmax : R) :
  is_min qmin W → is_max qmax W → _compute_pqi W b = Return E →
  Forall (fun e => 0 <= e <= ((qmax - qmin) / IZR (2 ^ Z.pos b - 1) / 2) ^ 2) E ∧
  ∀ i, W !! i = Some qmin ∨ W !! i = Some qmax → E !! i = Some 0.
Proof.
  intros Hmin Hmax HE.
  destruct (compute_pqi_Return _ _ _ HE) as [_ Hb].
  destruct (compute_pqi_cases W b qmin qmax Hb Hmin Hmax) as (E' & HE' & _ & _ & Hzero & Herr).
  rewrite HE in HE'. injection HE' as <-.
  set (scale := (qmax - qmin) / IZR (2 ^ Z.pos b - 1)) in *.
  assert (1 <= IZR (2 ^ Z.pos b - 1)) as Hlev.
  { apply IZR_le. assert (2 ^ 1 <= 2 ^ Z.pos b)%Z by (apply Z.pow_le_mono_r; lia). lia. }
  destruct (Rlt_dec scale 1e-9) as [Hs|Hs].
  - specialize (Hzero Hs). split.
    + eapply Forall_impl; [exact Hzero|]. simpl. intros e ->.
      split; [lra | apply pow2_ge_0].
    + intros i Hi.
      assert (is_Some (E !! i)) as [e He].
      { apply lookup_lt_is_Some.
        destruct (compute_pqi_cases W b qmin qmax Hb Hmin Hmax) as (E' & HE' & Hl & _).
        rewrite HE in HE'. injection HE' as <-. rewrite Hl.
        destruct Hi as [Hi|Hi]; apply lookup_lt_Some in Hi; exact Hi. }
      rewrite He. f_equal. rewrite Forall_forall in Hzero.
      apply Hzero. eapply list_elem_of_lookup_2, He.
  - specialize (Herr Hs). assert (0 < scale) as Hpos by lra. subst E. split.
    + apply Forall_forall. intros e He.
      apply list_elem_of_In, in_map_iff in He. destruct He as (w & <- & _).
      apply round_trip_error. exact Hpos.
    + intros i Hi. rewrite lookup_map.
      assert (qmax - qmin = IZR (2 ^ Z.pos b - 1) * scale) as Hrange.
      { unfold scale. field. lra. }
      destruct Hi as [-> | ->]; simpl; f_equal.
      * rewrite Rminus_diag. unfold Rdiv at 1. rewrite Rmult_0_l.
        rewrite (round_half_even_IZR 0). lra.
      * replace ((qmax - qmin) / scale) with (IZR (2 ^ Z.pos b - 1)) by (rewrite Hrange; field; lra).
        rewrite round_half_even_IZR. rewrite <- Hrange. lra.
Qed.

Lemma compute_pqi_error_bound_witness :
  ∃ E,
    _compute_pqi [1; 3 / 2; 2] 8 = Return E ∧
    Forall (fun e => 0 <= e <= ((2 - 1) / IZR (2 ^ Z.pos 8 - 1) / 2) ^ 2) E ∧
    ∀ i, [1; 3 / 2; 2] !! i = Some 1 ∨ [1; 3 / 2; 2] !! i = Some 2 → E !! i = Some 0.
Proof.
  assert (is_min 1 [1; 3 / 2; 2]) as Hmin
    by (split; [left; reflexivity | repeat constructor; lra]).
  assert (is_max 2 [1; 3 / 2; 2]) as Hmax
    by (split; [right; right; left; reflexivity | repeat constructor; lra]).
  assert (8 <= 64)%positive as Hb by lia.
  destruct (compute_pqi_cases [1; 3 / 2; 2] 8 1 2 Hb Hmin Hmax) as (E & HE & _).
  exists E. split; [exact HE|].
  exact (compute_pqi_error_bound [1; 3 / 2; 2] E 8 1 2 Hmin Hmax HE).
Defined.

(** ** Curvature proxy *)

Lemma clamped_square (g : R) : 1e-6 <= Rmax (g ^ 2) 1e-6 ∧ g ^ 2 <= Rmax (g ^ 2) 1e-6.
Proof. split; [apply Rmax_r | apply Rmax_l]. Qed.

(** X2.  On a gradient of the size of the weight, as the gradient of a
    parameter is, the curvature estimator returns, position by position,
    [w^2 / (2 * max(g^2, 1e-6))]: a value between [0] and [500000 * w^2],
    equal to [500000 * w^2] whenever [|g| <= 1e-3] (the clamp takes over and
    the gradient no longer matters) and to [w^2 / (2 * g^2)] whenever
    [|g| >= 1e-3]. *)
Theorem compute_hessian_spec (w g : tensor) :
  length g = length w →
  ∃ h, _compute_hessian w g = Return h ∧ length h = length w ∧
    ∀ i wi gi, w !! i = Some wi → g !! i = Some gi →
      ∃ hi, h !! i = Some hi ∧
        hi = wi ^ 2 / (Rmax (gi ^ 2) 1e-6 * 2) ∧
        0 <= hi <= 500000 * wi ^ 2 ∧
        (Rabs gi <= 1e-3 → hi = 500000 * wi ^ 2) ∧
        (1e-3 <= Rabs gi → hi = wi ^ 2 / (2 * gi ^ 2)).
Proof.
  - intros Hlen. unfold _compute_hessian, tdiv.
    rewrite zipT_Return by (unfold tpow, mul_scalar, clamp_min; rewrite !length_map; lia).
    eexists. split; [reflexivity|]. split.
    { rewrite length_zip_with. unfold tpow, mul_scalar, clamp_min.
      rewrite !length_map. lia. }
    intros i wi gi Hw Hg. rewrite lookup_zip_with.
    unfold tpow, mul_scalar, clamp_min. rewrite !map_map, !lookup_map, Hw, Hg. simpl.
    change (wi * (wi * 1)) with (wi ^ 2). change (gi * (gi * 1)) with (gi ^ 2).
    eexists. split; [reflexivity|].
    destruct (clamped_square gi) as [Hfloor Hsq].
    assert (0 <= wi ^ 2) as Hw2 by apply pow2_ge_0.
    assert (0 <= gi ^ 2) as Hg2 by apply pow2_ge_0.
    set (c := Rmax (gi ^ 2) 1e-6) in *.
    split; [reflexivity|]. split; [|split].
    + split.
      * apply Rmult_le_pos; [lra|]. apply Rlt_le, Rinv_0_lt_compat. lra.
      * apply (Rmult_le_reg_r (c * 2)); [lra|].
        unfold Rdiv. rewrite Rmult_assoc, Rinv_l by lra. nra.
    + intros Habs. apply Rabs_le_bounds in Habs.
      assert (gi ^ 2 <= 1e-6) as Hsmall by nra.
      assert (c = 1e-6) as -> by (unfold c; apply Rmax_right; exact Hsmall).
      field.
    + intros Habs.
      assert (1e-6 <= gi ^ 2) as Hbig.
      { unfold Rabs in Habs. destruct (Rcase_abs gi); nra. }
      assert (c = gi ^ 2) as -> by (unfold c; apply Rmax_left; exact Hbig).
      field. intros Hz. rewrite Hz in Hbig. lra.
Qed.

(** ** Normaliser *)


(** X3.  The normaliser keeps the order of the scores: of two positions, the
    one with the smaller score has the smaller normalised score, strictly so
    when the scores differ; a ranking by a normalised score is the ranking
    by the raw score. *)
Theorem normalize_monotone (score : tensor) (i j : nat) (vi vj : R) :
  score !! i = Some vi → score !! j = Some vj → vi <= vj →
  ∃ ni nj, _normalize score !! i = Some ni ∧ _normalize score !! j = Some nj ∧
           ni <= nj ∧ (vi < vj → ni < nj).
Proof.
  intros Hi Hj Hle. rewrite normalize_as_map, !lookup_map, Hi, Hj. simpl.
  pose proof (tstd_nonneg score) as Hs.
  assert (0 < / (tstd score + 1e-8)) as Hinv by (apply Rinv_0_lt_compat; lra).
  do 2 eexists. split; [reflexivity|]. split; [reflexivity|].
  unfold Rdiv. split; [|intros Hlt]; nra.
Qed.

Lemma normalize_monotone_witness :
  ∃ ni nj, _normalize [3; 1; 2] !! 1%nat = Some ni ∧ _normalize [3; 1; 2] !! 0%nat = Some nj ∧
           ni <= nj ∧ (1 < 3 → ni < nj).
Proof.
  apply (normalize_monotone [3; 1; 2] 1 0 1 3); [reflexivity | reflexivity | lra].
Defined.



(** ** Entropy *)

Lemma fold_left_Rmin_shift (l : list R) (x c : R) :
  fold_left Rmin (map (fun v => v + c) l) (x + c) = fold_left Rmin l x + c.
Proof.
  revert x. induction l as [|y l IH]; intros x; simpl; [reflexivity|].
  rewrite <- IH. f_equal. unfold Rmin.
  destruct (Rle_dec (x + c) (y + c)), (Rle_dec x y); lra.
Qed.

Lemma fold_left_Rmax_shift (l : list R) (x c : R) :
  fold_left Rmax (map (fun v => v + c) l) (x + c) = fold_left Rmax l x + c.
Proof.
  revert x. induction l as [|y l IH]; intros x; simpl; [reflexivity|].
  rewrite <- IH. f_equal. unfold Rmax.
  destruct (Rle_dec (x + c) (y + c)), (Rle_dec x y); lra.
Qed.

(** X5.  The entropy of a tensor does not change when a constant is added to
    all its elements -- the tensor is shifted to its minimum first -- and the
    entropy of a tensor without elements is a [RuntimeError] (of [t.min()]). *)
Theorem compute_entropy_shift (t : tensor) (c : R) :
  compute_entropy (add_scalar t c) = compute_entropy t ∧
  compute_entropy [] = Raise RuntimeError.
Proof.
  split; [|reflexivity].
  destruct t as [|x t]; [reflexivity|].
  set (lo := fold_left Rmin t x). set (hi := fold_left Rmax t x).
  assert (tmin (add_scalar (x :: t) c) = Return (lo + c)) as Hlo.
  { unfold add_scalar. simpl. f_equal. apply fold_left_Rmin_shift. }
  assert (tmax (add_scalar (x :: t) c) = Return (hi + c)) as Hhi.
  { unfold add_scalar. simpl. f_equal. apply fold_left_Rmax_shift. }
  assert (sub_scalar (add_scalar (x :: t) c) (lo + c) = sub_scalar (x :: t) lo) as Hsub.
  { unfold sub_scalar, add_scalar. rewrite map_map. apply map_ext. intros v. lra. }
  unfold compute_entropy. rewrite Hlo, Hhi.
  change (tmin (x :: t)) with (Return lo). change (tmax (x :: t)) with (Return hi).
  change (Return (lo + c) ≫= ?f) with (f (lo + c)).
  change (Return lo ≫= ?f) with (f lo). cbv beta.
  change (Return (hi + c) ≫= ?f) with (f (hi + c)).
  change (Return hi ≫= ?f) with (f hi). cbv beta zeta.
  rewrite Hsub. replace (hi + c - (lo + c)) with (hi - lo) by lra. reflexivity.
Qed.

Lemma tsum_zeros (t : tensor) : Forall (fun v => v = 0) t → tsum t = 0.
Proof.
  induction 1 as [|v t -> _ IH]; [reflexivity|].
  change (tsum (0 :: t)) with (0 + tsum t). rewrite IH. lra.
Qed.

(** X6.  The entropy of a non-empty tensor whose elements are all equal is
    [0]: every probability is [0], and so is every term [p * log(p + 1e-8)].
    (The adaptive weights take [1 / E] of this entropy.) *)
Theorem compute_entropy_constant (t : tensor) (c : R) :
  t ≠ [] → Forall (fun v => v = c) t → compute_entropy t = Return 0.
Proof.
  intros Hne Hc.
  assert (is_min c t) as Hmin.
  { split; [|eapply Forall_impl; [exact Hc | intros v ->; lra]].
    destruct t as [|x t]; [congruence|]. inversion Hc; subst. left. reflexivity. }
  assert (is_max c t) as Hmax.
  { split; [|eapply Forall_impl; [exact Hc | intros v ->; lra]].
    destruct t as [|x t]; [congruence|]. inversion Hc; subst. left. reflexivity. }
  unfold compute_entropy. rewrite (tmin_is_min _ _ Hmin), (tmax_is_max _ _ Hmax). simpl.
  assert (sub_scalar t c = zeros_like t) as ->.
  { unfold sub_scalar, zeros_like. apply map_ext_in. intros v Hv.
    rewrite Forall_forall in Hc. rewrite (Hc v) by (apply list_elem_of_In, Hv). lra. }
  assert (∀ d, div_scalar (zeros_like t) d = zeros_like t) as Hz.
  { intros d. unfold div_scalar, zeros_like. rewrite map_map. apply map_ext.
    intros _. unfold Rdiv. apply Rmult_0_l. }
  rewrite !Hz. unfold tmul, tlog, add_scalar. rewrite map_map.
  unfold zeros_like at 1 2. rewrite map_map.
  assert (∀ (f : R → R) (l : tensor),
            zipT Rmult (map (fun _ => 0) l) (map f l) = Return (zeros_like l)) as Hzip.
  { intros f l. induction l as [|v l IH]; simpl; [reflexivity|].
    rewrite IH. simpl. rewrite Rmult_0_l. reflexivity. }
  rewrite Hzip. simpl. f_equal.
  rewrite tsum_zeros; [lra|]. unfold zeros_like. apply Forall_forall.
  intros v Hv. apply list_elem_of_In, in_map_iff in Hv as (? & <- & _). reflexivity.
Qed.

Lemma compute_entropy_constant_witness : compute_entropy [3; 3] = Return 0.
Proof.
  apply (compute_entropy_constant [3; 3] 3); [discriminate | repeat constructor].
Defined.

(** * Further properties of the scoring pass *)

Lemma adaptive_weights_rng (pqi move hess : tensor) (g g' : Generator) (o : outcome tensor) :
  adaptive_weights pqi move hess g = (o, g') →
  g' = g ∨ g' = {| draws := draws g; consumed := (consumed g + 3)%nat |}.
Proof.
  unfold adaptive_weights.
  destruct (compute_entropy pqi) as [E1|e1]; [|intros [= _ <-]; auto].
  destruct (compute_entropy move) as [E2|e2]; [|intros [= _ <-]; auto].
  destruct (compute_entropy hess) as [E3|e3]; [|intros [= _ <-]; auto].
  simpl. intros [= _ <-]. auto.
Qed.

Lemma fuse_length (a b c : R) (pqi move hess fused : tensor) :
  length move = length pqi → length hess = length pqi →
  fuse a b c pqi move hess = Return fused → length fused = length pqi.
Proof.
  intros Hm Hh. rewrite fuse_Return by assumption. intros [= <-].
  unfold mul_scalar. rewrite !length_zip_with, !length_map. lia.
Qed.

Lemma NoDup_fst_In {A : Type} (l : list (string * A)) (k : string) (a b : A) :
  NoDup (map fst l) → In (k, a) l → In (k, b) l → a = b.
Proof.
  induction l as [|[k' c] l IH]; simpl; [intros _ []|].
  intros Hnd Ha Hb. apply NoDup_cons in Hnd. destruct Hnd as [Hfresh Hnd].
  assert (∀ x : A, In (k', x) l → False) as Hno.
  { intros x Hx. apply Hfresh. apply list_elem_of_In.
    change k' with (fst (k', x)). apply in_map, Hx. }
  destruct Ha as [Ha|Ha], Hb as [Hb|Hb].
  - congruence.
  - injection Ha as -> ->. destruct (Hno _ Hb).
  - injection Hb as -> ->. destruct (Hno _ Ha).
  - apply IH; assumption.
Qed.

(** One iteration of the scoring loop, whatever its outcome: the model is
    not touched, the mapping is kept or receives one entry of the size of the
    weight, and the generator advances by three draws at most once, on the
    way out of adaptive mode. *)
Lemma score_module_step (name : string) (md : Module) (self self' : SmartSparsePruner)
    (rng rng' : Generator) (o : outcome unit) :
  score_module (name, md) (self, rng) = (o, (self', rng')) →
  model self' = model self ∧
  (layerwise_scores self' = layerwise_scores self ∨
   ∃ w b g fused, md = Linear w b ∧ grad (heap (model self) w) = Some g ∧
     layerwise_scores self' = <[name := fused]> (layerwise_scores self) ∧
     length fused = length (data (heap (model self) w))) ∧
  (is_adaptive self = false →
   rng' = rng ∧ alpha self' = alpha self ∧ beta self' = beta self ∧ gamma self' = gamma self) ∧
  (is_adaptive self = true →
   (rng' = rng ∧ alpha self' = alpha self ∧ beta self' = beta self ∧ gamma self' = gamma self) ∨
   (rng' = {| draws := draws rng; consumed := (consumed rng + 3)%nat |} ∧
    (o = Return () → is_adaptive self' = false))).
Proof.
  assert (∀ o0 : outcome unit, (o0, (self, rng)) = (o, (self', rng')) →
    model self' = model self ∧
    (layerwise_scores self' = layerwise_scores self ∨
     ∃ w b g fused, md = Linear w b ∧ grad (heap (model self) w) = Some g ∧
       layerwise_scores self' = <[name := fused]> (layerwise_scores self) ∧
       length fused = length (data (heap (model self) w))) ∧
    (is_adaptive self = false →
     rng' = rng ∧ alpha self' = alpha self ∧ beta self' = beta self ∧ gamma self' = gamma self) ∧
    (is_adaptive self = true →
     (rng' = rng ∧ alpha self' = alpha self ∧ beta self' = beta self ∧ gamma self' = gamma self) ∨
     (rng' = {| draws := draws rng; consumed := (consumed rng + 3)%nat |} ∧
      (o = Return () → is_adaptive self' = false)))) as Hsame.
  { intros o0 [= _ <- <-]. split; [reflexivity|]. split; [left; reflexivity|].
    split; [auto|]. intros _. left. auto. }
  unfold score_module.
  destruct md as [w b|ps]; [|apply Hsame].
  destruct (grad (heap (model self) w)) as [g|] eqn:Eg; [|apply Hsame].
  destruct (layer_scores (data (heap (model self) w)) g) as [[[pqi move] hess]|e] eqn:El;
    [|apply Hsame].
  apply layer_scores_inv in El. destruct El as (_ & _ & _ & _ & _ & Hp & Hm & Hh).
  destruct (is_adaptive self) eqn:Had.
  - destruct (adaptive_weights pqi move hess rng) as [[ws|e] rng1] eqn:Ew.
    + destruct (adaptive_weights_triple _ _ _ _ _ _ Ew) as (a & b0 & c & -> & -> & Htriple).
      destruct (adaptive_triple_sum _ _ _ _ _ _ _ Htriple) as (_ & _ & Hc & _).
      simpl.
      destruct (fuse a b0 c pqi move hess) as [fused|e] eqn:Ef.
      * intros [= <- <- <-]. split; [reflexivity|]. split.
        { right. exists w, b, g, fused. split; [reflexivity|]. split; [exact Eg|].
          split; [reflexivity|]. apply fuse_length in Ef; congruence. }
        split; [discriminate|]. intros _. right. split; [reflexivity|].
        intros _. apply is_adaptive_positive. exact Hc.
      * intros [= <- <- <-]. split; [reflexivity|]. split; [left; reflexivity|].
        split; [discriminate|]. intros _. right. split; [reflexivity | discriminate].
    + apply adaptive_weights_rng in Ew.
      intros [= <- <- <-]. split; [reflexivity|]. split; [left; reflexivity|].
      split; [discriminate|]. intros _.
      destruct Ew as [->| ->]; [left; auto | right; split; [reflexivity | discriminate]].
  - destruct (fuse (alpha self) (beta self) (gamma self) pqi move hess) as [fused|e] eqn:Ef;
      [|apply Hsame].
    intros [= <- <- <-]. split; [reflexivity|]. split.
    { right. exists w, b, g, fused. split; [reflexivity|]. split; [exact Eg|].
      split; [reflexivity|]. apply fuse_length in Ef; congruence. }
    split; [auto | discriminate].
Qed.

(** The scoring loop, whatever its outcome. *)
Lemma score_loop_frame (mods : list (string * Module)) :
  ∀ self rng o self' rng',
    for_each score_module mods (self, rng) = (o, (self', rng')) →
    model self' = model self ∧
    dom (layerwise_scores self) ⊆ dom (layerwise_scores self') ∧
    (∀ n, n ∉ scored_names {| named_modules := mods; heap := heap (model self) |} →
          layerwise_scores self' !! n = layerwise_scores self !! n) ∧
    (is_adaptive self = false →
     rng' = rng ∧ alpha self' = alpha self ∧ beta self' = beta self ∧ gamma self' = gamma self) ∧
    (rng' = rng ∨ rng' = {| draws := draws rng; consumed := (consumed rng + 3)%nat |}).
Proof.
  induction mods as [|[name md] mods IH]; intros self rng o self' rng' Hrun.
  - simpl in Hrun. injection Hrun as <- <- <-.
    split; [reflexivity|]. split; [reflexivity|]. split; [reflexivity|].
    split; [auto|]. left. reflexivity.
  - rewrite for_each_cons in Hrun.
    destruct (score_module (name, md) (self, rng)) as [o1 [self1 rng1]] eqn:Estep.
    apply score_module_step in Estep. destruct Estep as (Hm1 & Hs1 & Hf1 & Ha1).
    assert (dom (layerwise_scores self) ⊆ dom (layerwise_scores self1)) as Hdom1.
    { destruct Hs1 as [->|(w & b & g & fused & _ & _ & -> & _)]; [reflexivity|].
      rewrite dom_insert_L. apply union_subseteq_r. }
    assert (∀ n, n ∉ scored_names {| named_modules := (name, md) :: mods;
                                     heap := heap (model self) |} →
                 layerwise_scores self1 !! n = layerwise_scores self !! n ∧
                 n ∉ scored_names {| named_modules := mods; heap := heap (model self) |})
      as Hkeep.
    { intros n. unfold scored_names. rewrite scored_layers_cons.
      destruct Hs1 as [->|(w & b & g & fused & -> & Eg & -> & _)].
      - intros Hn. split; [reflexivity|].
        destruct md as [w b|ps]; [|exact Hn].
        destruct (grad (heap (model self) w)); [|exact Hn].
        simpl in Hn. rewrite not_elem_of_union in Hn. apply Hn.
      - rewrite Eg. simpl. rewrite not_elem_of_union, not_elem_of_singleton.
        intros [Hne Hn]. split; [apply lookup_insert_ne; congruence | exact Hn]. }
    destruct o1 as [[]|e].
    + apply IH in Hrun. destruct Hrun as (Hm & Hd & Hs & Hf & Hr). rewrite Hm1 in Hs.
      split; [congruence|]. split; [etransitivity; eassumption|]. split.
      { intros n Hn. destruct (Hkeep n Hn) as [H1 H2]. rewrite (Hs n H2). exact H1. }
      split.
      * intros Had. destruct (Hf1 Had) as (-> & Ea & Eb & Ec).
        destruct Hf as (-> & Ea' & Eb' & Ec').
        { rewrite (is_adaptive_ext self self1); assumption. }
        split; [reflexivity|]. split; [congruence|]. split; congruence.
      * destruct (is_adaptive self) eqn:Had.
        -- destruct (Ha1 eq_refl) as [(-> & _)|[-> Hna]]; [exact Hr|].
           destruct (Hf (Hna eq_refl)) as (-> & _). right. reflexivity.
        -- destruct (Hf1 eq_refl) as (-> & _). exact Hr.
    + injection Hrun as <- <- <-. split; [exact Hm1|]. split; [exact Hdom1|]. split.
      { intros n Hn. apply (Hkeep n Hn). }
      split; [exact Hf1|].
      destruct (is_adaptive self) eqn:Had.
      * destruct (Ha1 eq_refl) as [(-> & _)|[-> _]]; auto.
      * destruct (Hf1 eq_refl) as (-> & _). auto.
Qed.

(** The scoring loop keeps the shapes of the entries, whatever its outcome. *)
Lemma score_loop_shapes (mods : list (string * Module)) :
  ∀ self rng o self' rng',
    unique_names (model self) →
    (∀ nm, In nm mods → In nm (named_modules (model self))) →
    shapes_agree self →
    for_each score_module mods (self, rng) = (o, (self', rng')) →
    shapes_agree self'.
Proof.
  induction mods as [|[name md] mods IH]; intros self rng o self' rng' Hnames Hsub Hshapes Hrun.
  - simpl in Hrun. injection Hrun as <- <- <-. exact Hshapes.
  - rewrite for_each_cons in Hrun.
    destruct (score_module (name, md) (self, rng)) as [o1 [self1 rng1]] eqn:Estep.
    apply score_module_step in Estep. destruct Estep as (Hm1 & Hs1 & _ & _).
    assert (shapes_agree self1) as Hshapes1.
    { unfold shapes_agree. rewrite Hm1.
      destruct Hs1 as [->|(w & b & g & fused & -> & _ & -> & Hlen)]; [exact Hshapes|].
      intros name' w' b' sc Hin. destruct (decide (name' = name)) as [->|Hne].
      - rewrite lookup_insert_eq. intros [= <-].
        assert (Linear w' b' = Linear w b) as [= -> ->].
        { eapply NoDup_fst_In; [exact Hnames | exact Hin |]. apply Hsub. left. reflexivity. }
        exact Hlen.
      - rewrite lookup_insert_ne by congruence. intros Hsc.
        eapply Hshapes; eassumption. }
    destruct o1 as [[]|e].
    + eapply IH; [| |exact Hshapes1|exact Hrun].
      * rewrite Hm1. exact Hnames.
      * rewrite Hm1. intros nm Hnm. apply Hsub. right. exact Hnm.
    + injection Hrun as <- <- <-. exact Hshapes1.
Qed.

(** The masking loop of [prune] keeps the size of every parameter, whatever
    its outcome. *)
Lemma apply_mask_loop_lengths (thr : R) (mm : list (string * Module)) :
  ∀ self o self',
    for_each (apply_mask thr) mm self = (o, self') →
    ∀ l, length (data (heap (model self') l)) = length (data (heap (model self) l)).
Proof.
  induction mm as [|[name m] mm IH]; intros self o self' Hrun l.
  - simpl in Hrun. injection Hrun as <- <-. reflexivity.
  - simpl in Hrun.
    destruct (layerwise_scores self !! name) as [sc|]; [|injection Hrun as <- <-; reflexivity].
    destruct m as [w b|ps]; [|injection Hrun as <- <-; reflexivity].
    unfold mul_, tmul in Hrun.
    destruct (zipT Rmult (data (heap (model self) w)) (ge_mask sc thr)) as [d|e] eqn:Ez;
      simpl in Hrun; [|injection Hrun as <- <-; reflexivity].
    apply zipT_inv in Ez. destruct Ez as [Hlen ->].
    rewrite (IH _ _ _ Hrun l). simpl.
    destruct (decide (w = l)) as [->|Hne].
    + rewrite fn_lookup_insert. simpl. rewrite length_zip_with. lia.
    + rewrite fn_lookup_insert_ne by assumption. reflexivity.
Qed.

Lemma prune_lengths (s : R) (self self' : SmartSparsePruner) (o : outcome unit) :
  prune s self = (o, self') →
  self' = set_heap self (heap (model self')) ∧
  ∀ l, length (data (heap (model self') l)) = length (data (heap (model self) l)).
Proof.
  rewrite prune_cases.
  destruct (omap _ _) as [|c cs].
  { intros [= <- <-]. rewrite set_heap_id. auto. }
  destruct (topk _ _ ≫= last_item) as [thr|e].
  - intros Hrun. split.
    + apply (for_each_apply_mask _ _ _ _ _ Hrun).
    + apply (apply_mask_loop_lengths _ _ _ _ _ Hrun).
  - intros [= <- <-]. rewrite set_heap_id. auto.
Qed.

Lemma shapes_agree_init (m : Model) (a b c : R) : shapes_agree (init m a b c).
Proof. intros name w b0 sc _ Hsc. simpl in Hsc. rewrite lookup_empty in Hsc. discriminate. Qed.

(** A call of [prune] that returns had a keep-count between [1] and the
    number of pooled scores. *)
Lemma prune_Return_keep (s : R) (self self' : SmartSparsePruner) :
  prune s self = (Return (), self') →
  (1 <= keep_count s self <= Z.of_nat (numel (pooled self)))%Z.
Proof.
  intros Hrun. unfold keep_count.
  destruct (omap (eligible (layerwise_scores self)) (named_modules (model self)))
    as [|c cs] eqn:Ech.
  { rewrite prune_no_chunks in Hrun by exact Ech. discriminate. }
  assert (omap (eligible (layerwise_scores self)) (named_modules (model self)) ≠ [])
    as Hne by (rewrite Ech; discriminate).
  destruct (Z.eq_dec (int ((1 - s) * INR (numel (pooled self)))) 0%Z) as [Hz|Hz].
  { rewrite prune_keep_zero in Hrun by assumption. discriminate. }
  destruct (Z_lt_le_dec (int ((1 - s) * INR (numel (pooled self)))) 0%Z) as [Hneg|Hpos].
  { rewrite prune_keep_out_of_range in Hrun by (auto; lia). discriminate. }
  destruct (Z_lt_le_dec (Z.of_nat (numel (pooled self)))
              (int ((1 - s) * INR (numel (pooled self))))) as [Hbig|Hok].
  { rewrite prune_keep_out_of_range in Hrun by (auto; lia). discriminate. }
  lia.
Qed.

Section ScoringInvariants.

Variable Inputs : Type.
Variable backward : Inputs → Model → loc → option tensor.

Lemma run_backward_shapes (inputs : Inputs) (self : SmartSparsePruner) :
  shapes_agree self → shapes_agree (run_backward backward inputs self).
Proof. intros H name w b sc Hin Hsc. apply (H name w b sc Hin Hsc). Qed.

(** A scoring pass, whatever its outcome. *)
Lemma pass_any (inputs : Inputs) (self self' : SmartSparsePruner) (rng rng' : Generator)
    (o : outcome unit) :
  compute_importance_scores backward inputs (self, rng) = (o, (self', rng')) →
  model self' = model (run_backward backward inputs self) ∧
  dom (layerwise_scores self) ⊆ dom (layerwise_scores self') ∧
  (∀ n, n ∉ scored_names (model (run_backward backward inputs self)) →
        layerwise_scores self' !! n = layerwise_scores self !! n) ∧
  (is_adaptive self = false →
   rng' = rng ∧ alpha self' = alpha self ∧ beta self' = beta self ∧ gamma self' = gamma self) ∧
  (rng' = rng ∨ rng' = {| draws := draws rng; consumed := (consumed rng + 3)%nat |}) ∧
  (unique_names (model self) → shapes_agree self → shapes_agree self').
Proof.
  unfold compute_importance_scores. intros Hrun.
  pose proof (score_loop_frame _ _ _ _ _ _ Hrun) as (Hm & Hd & Hs & Hf & Hr).
  rewrite model_eta in Hs.
  split; [exact Hm|]. split; [exact Hd|]. split; [exact Hs|]. split; [exact Hf|].
  split; [exact Hr|]. intros Hnames Hshapes.
  eapply score_loop_shapes; [| |apply run_backward_shapes, Hshapes|exact Hrun].
  - exact Hnames.
  - auto.
Qed.

(** A sequence of passes started outside adaptive mode, whatever its
    outcome, keeps the fusion weights and the generator. *)
Lemma fixed_passes (batches : list Inputs) :
  ∀ self rng o self' rng',
    is_adaptive self = false →
    scoring_passes backward batches (self, rng) = (o, (self', rng')) →
    rng' = rng ∧ alpha self' = alpha self ∧ beta self' = beta self ∧ gamma self' = gamma self.
Proof.
  unfold scoring_passes.
  induction batches as [|i batches IH]; intros self rng o self' rng' Hna Hrun.
  - simpl in Hrun. injection Hrun as <- <- <-. auto.
  - rewrite for_each_cons in Hrun.
    destruct (compute_importance_scores backward i (self, rng)) as [o1 [self1 rng1]] eqn:Ep.
    apply pass_any in Ep. destruct Ep as (_ & _ & _ & Hf & _). specialize (Hf Hna).
    destruct Hf as (-> & Ha & Hb & Hc).
    destruct o1 as [[]|e].
    + apply IH in Hrun; [|rewrite (is_adaptive_ext self self1); assumption].
      destruct Hrun as (-> & Ha' & Hb' & Hc'). split; [reflexivity|].
      split; [congruence|]. split; congruence.
    + injection Hrun as <- <- <-. auto.
Qed.

(** A sequence of passes keeps the module list, the uniqueness of the names
    and the shapes of the entries. *)
Lemma passes_shapes (batches : list Inputs) :
  ∀ self rng o self' rng',
    unique_names (model self) → shapes_agree self →
    scoring_passes backward batches (self, rng) = (o, (self', rng')) →
    named_modules (model self') = named_modules (model self) ∧ shapes_agree self'.
Proof.
  unfold scoring_passes.
  induction batches as [|i batches IH]; intros self rng o self' rng' Hnames Hshapes Hrun.
  - simpl in Hrun. injection Hrun as <- <- <-. auto.
  - rewrite for_each_cons in Hrun.
    destruct (compute_importance_scores backward i (self, rng)) as [o1 [self1 rng1]] eqn:Ep.
    apply pass_any in Ep. destruct Ep as (Hm & _ & _ & _ & _ & Hsh).
    specialize (Hsh Hnames Hshapes).
    assert (named_modules (model self1) = named_modules (model self)) as Hmods
      by (rewrite Hm; reflexivity).
    destruct o1 as [[]|e].
    + apply IH in Hrun; [| |exact Hsh].
      * destruct Hrun as [Hmods' Hsh']. split; [congruence | exact Hsh'].
      * unfold unique_names. rewrite Hmods. exact Hnames.
    + injection Hrun as <- <- <-. auto.
Qed.

(** X7.  A scoring pass, whether it returns or raises, changes no weight
    and no module: the module list and the data of every parameter are as
    before, the gradient of every parameter is the one the backward pass
    left, no entry of the mapping is removed, and the entry of a name that
    is not a processed layer (a linear layer whose weight received a
    gradient) is the one from before the pass. *)
Theorem scoring_pass_frame (inputs : Inputs) (self self' : SmartSparsePruner)
    (rng rng' : Generator) (o : outcome unit) :
  compute_importance_scores backward inputs (self, rng) = (o, (self', rng')) →
  named_modules (model self') = named_modules (model self) ∧
  (∀ l, data (heap (model self') l) = data (heap (model self) l)) ∧
  (∀ l, grad (heap (model self') l) = backward inputs (model self) l) ∧
  dom (layerwise_scores self) ⊆ dom (layerwise_scores self') ∧
  (∀ n, n ∉ scored_names (model (run_backward backward inputs self)) →
        layerwise_scores self' !! n = layerwise_scores self !! n).
Proof.
  intros Hrun. apply pass_any in Hrun. destruct Hrun as (Hm & Hd & Hs & _).
  rewrite Hm. split; [reflexivity|]. split; [reflexivity|]. split; [reflexivity|].
  split; [exact Hd | exact Hs].
Qed.

(** X8.  Outside adaptive mode the last definition of the class does what
    the first two definitions do, whatever the outcome: the same exception
    or return, the same pruner afterwards; the random generator is not
    touched and the fusion weights stay as given. *)
Theorem fixed_mode_same_as_earlier_definitions (inputs : Inputs) (self : SmartSparsePruner)
    (rng : Generator) :
  is_adaptive self = false →
  ∃ o self',
    compute_importance_scores_fixed backward inputs self = (o, self') ∧
    compute_importance_scores backward inputs (self, rng) = (o, (self', rng)) ∧
    alpha self' = alpha self ∧ beta self' = beta self ∧ gamma self' = gamma self.
Proof.
  intros Hna. unfold compute_importance_scores, compute_importance_scores_fixed.
  rewrite score_loop_not_adaptive by exact Hna.
  destruct (for_each score_module_fixed _ _) as [o self'] eqn:Eloop.
  exists o, self'. split; [reflexivity|]. split; [reflexivity|].
  apply fixed_loop in Eloop. destruct Eloop as (_ & Ha & Hb & Hc & _). auto.
Qed.

(** X9.  The adaptive weights are computed once in the life of a pruner.
    An adaptive pass that returns and processed no layer leaves the pruner
    adaptive and the generator where it was; one that processed a layer has
    consumed exactly three draws and left the adaptive mode, and then every
    later sequence of passes, on any batches and whatever its outcome, keeps
    these fusion weights and does not touch the generator. *)
Theorem adaptive_weights_once (inputs : Inputs) (batches : list Inputs)
    (self self1 self2 : SmartSparsePruner) (rng rng1 rng2 : Generator) (o : outcome unit) :
  is_adaptive self = true →
  compute_importance_scores backward inputs (self, rng) = (Return (), (self1, rng1)) →
  scoring_passes backward batches (self1, rng1) = (o, (self2, rng2)) →
  (scored_layers (model (run_backward backward inputs self)) = [] →
   is_adaptive self1 = true ∧ rng1 = rng) ∧
  (scored_layers (model (run_backward backward inputs self)) ≠ [] →
   is_adaptive self1 = false ∧
   rng1 = {| draws := draws rng; consumed := (consumed rng + 3)%nat |} ∧
   rng2 = rng1 ∧
   alpha self2 = alpha self1 ∧ beta self2 = beta self1 ∧ gamma self2 = gamma self1).
Proof.
  intros Had Hrun Hlater. apply adaptive_pass in Hrun; [|exact Had].
  destruct Hrun as [_ Hrun].
  destruct (scored_layers (model (run_backward backward inputs self))) as [|l1 ls].
  - split; [|congruence]. intros _. destruct Hrun as [-> ->]. auto.
  - split; [discriminate|]. intros _.
    destruct Hrun as (pqi & move & hess & _ & Htriple & -> & _).
    destruct (adaptive_triple_sum _ _ _ _ _ _ _ Htriple) as (_ & _ & Hc & _).
    assert (is_adaptive self1 = false) as Hna by (apply is_adaptive_positive, Hc).
    split; [exact Hna|]. split; [reflexivity|].
    apply (fixed_passes _ _ _ _ _ _ Hna Hlater).
Qed.

(** X10.  That every stored score tensor has the size of the weight of its
    layer is an invariant of the pruner when module names are unique: it
    holds after construction, and a scoring pass and a call of [prune]
    keep it (and the module list), whether they return or raise. *)
Theorem shapes_agree_invariant (self : SmartSparsePruner) :
  unique_names (model self) → shapes_agree self →
  (∀ inputs rng o self' rng',
     compute_importance_scores backward inputs (self, rng) = (o, (self', rng')) →
     unique_names (model self') ∧ shapes_agree self') ∧
  (∀ s o self',
     prune s self = (o, self') → unique_names (model self') ∧ shapes_agree self') ∧
  (∀ a b c, shapes_agree (init (model self) a b c)).
Proof.
  intros Hnames Hshapes. split; [|split].
  - intros inputs rng o self' rng' Hrun. apply pass_any in Hrun.
    destruct Hrun as (Hm & _ & _ & _ & _ & Hsh). split; [|apply Hsh; assumption].
    unfold unique_names. rewrite Hm. exact Hnames.
  - intros s o self' Hrun. apply prune_lengths in Hrun. destruct Hrun as [Hself Hlen].
    split; [rewrite Hself; exact Hnames|].
    intros name w b sc Hin Hsc. rewrite Hlen. rewrite Hself in Hin, Hsc.
    apply (Hshapes name w b sc Hin Hsc).
  - intros a b c. apply shapes_agree_init.
Qed.

(** X11.  The pipeline of an experiment: a pruner is constructed on a model
    with unique module names, scored by passes that return, and pruned.
    The call of [prune] then returns exactly when the keep-count lies
    between [1] and the number of pooled scores: after scoring, no shape
    mismatch, missing key or non-linear module can make it fail. *)
Theorem scored_prune_returns (m : Model) (a b c s : R) (batches : list Inputs)
    (rng rng' : Generator) (self' : SmartSparsePruner) :
  unique_names m →
  scoring_passes backward batches (init m a b c, rng) = (Return (), (self', rng')) →
  (∃ self'', prune s self' = (Return (), self'')) ↔
  (1 <= keep_count s self' <= Z.of_nat (numel (pooled self')))%Z.
Proof.
  intros Hnames Hrun.
  apply passes_shapes in Hrun; [|exact Hnames|apply shapes_agree_init].
  destruct Hrun as [Hmods Hshapes]. simpl in Hmods.
  assert (unique_names (model self')) as Hnames'
    by (unfold unique_names; rewrite Hmods; exact Hnames).
  split.
  - intros [self'' Hp]. eapply prune_Return_keep, Hp.
  - intros Hk. destruct (prune_keep_in_range s self' Hnames' Hk) as (thr & _ & ->).
    apply for_each_apply_mask_total, filter_eligible_ok, Hshapes.
Qed.

End ScoringInvariants.

(** ** The scoring pass on the example model *)

Lemma scoring_pass_frame_witness :
  ∃ self' rng',
    compute_importance_scores example_backward true
      (init example_model (-1) (-1) (-1), example_rng) = (Return (), (self', rng')) ∧
    named_modules (model self') = named_modules (model (init example_model (-1) (-1) (-1))) ∧
    (∀ l, data (heap (model self') l)
          = data (heap (model (init example_model (-1) (-1) (-1))) l)) ∧
    (∀ l, grad (heap (model self') l)
          = example_backward true (model (init example_model (-1) (-1) (-1))) l) ∧
    dom (layerwise_scores (init example_model (-1) (-1) (-1))) ⊆ dom (layerwise_scores self') ∧
    (∀ n, n ∉ scored_names
                (model (run_backward example_backward true (init example_model (-1) (-1) (-1)))) →
          layerwise_scores self' !! n
          = layerwise_scores (init example_model (-1) (-1) (-1)) !! n).
Proof.
  destruct (pass_total bool example_backward true (init example_model (-1) (-1) (-1))
              example_rng) as (self' & rng' & Hrun).
  { apply example_well_shaped; reflexivity. }
  exists self', rng'. split; [exact Hrun|].
  apply (scoring_pass_frame bool example_backward true _ _ _ _ _ Hrun).
Defined.

Lemma fixed_mode_same_as_earlier_definitions_witness :
  ∃ o self',
    compute_importance_scores_fixed example_backward true
      (init example_model (1 / 3) (1 / 3) (1 / 3)) = (o, self') ∧
    compute_importance_scores example_backward true
      (init example_model (1 / 3) (1 / 3) (1 / 3), example_rng) = (o, (self', example_rng)) ∧
    alpha self' = alpha (init example_model (1 / 3) (1 / 3) (1 / 3)) ∧
    beta self' = beta (init example_model (1 / 3) (1 / 3) (1 / 3)) ∧
    gamma self' = gamma (init example_model (1 / 3) (1 / 3) (1 / 3)).
Proof.
  apply (fixed_mode_same_as_earlier_definitions bool example_backward true
           (init example_model (1 / 3) (1 / 3) (1 / 3)) example_rng).
  apply is_adaptive_positive. simpl. lra.
Defined.

Lemma adaptive_weights_once_witness :
  ∃ self1 rng1 o self2 rng2,
    compute_importance_scores example_backward true
      (init example_model (-1) (-1) (-1), example_rng) = (Return (), (self1, rng1)) ∧
    scoring_passes example_backward [false; true] (self1, rng1) = (o, (self2, rng2)) ∧
    (scored_layers
       (model (run_backward example_backward true (init example_model (-1) (-1) (-1)))) = [] →
     is_adaptive self1 = true ∧ rng1 = example_rng) ∧
    (scored_layers
       (model (run_backward example_backward true (init example_model (-1) (-1) (-1)))) ≠ [] →
     is_adaptive self1 = false ∧
     rng1 = {| draws := draws example_rng; consumed := (consumed example_rng + 3)%nat |} ∧
     rng2 = rng1 ∧
     alpha self2 = alpha self1 ∧ beta self2 = beta self1 ∧ gamma self2 = gamma self1).
Proof.
  destruct (pass_total bool example_backward true (init example_model (-1) (-1) (-1))
              example_rng) as (self1 & rng1 & Hrun).
  { apply example_well_shaped; reflexivity. }
  destruct (scoring_passes example_backward [false; true] (self1, rng1))
    as [o [self2 rng2]] eqn:Hlater.
  exists self1, rng1, o, self2, rng2. split; [exact Hrun|]. split; [exact Hlater|].
  apply (adaptive_weights_once bool example_backward true [false; true]
           (init example_model (-1) (-1) (-1)) self1 self2 example_rng rng1 rng2 o).
  - apply is_adaptive_true. auto.
  - exact Hrun.
  - exact Hlater.
Defined.

Lemma shapes_agree_invariant_witness :
  (∀ inputs rng o self' rng',
     compute_importance_scores example_backward inputs (example_pruner, rng)
     = (o, (self', rng')) →
     unique_names (model self') ∧ shapes_agree self') ∧
  (∀ s o self',
     prune s example_pruner = (o, self') → unique_names (model self') ∧ shapes_agree self') ∧
  (∀ a b c, shapes_agree (init (model example_pruner) a b c)).
Proof.
  apply (shapes_agree_invariant bool example_backward example_pruner).
  - exact example_unique_names.
  - exact example_shapes_agree.
Defined.

Lemma scored_prune_returns_witness :
  ∃ self' rng',
    scoring_passes example_backward [true] (init example_model 1 0 0, example_rng)
    = (Return (), (self', rng')) ∧
    ((∃ self'', prune (1 / 2) self' = (Return (), self'')) ↔
     (1 <= keep_count (1 / 2) self' <= Z.of_nat (numel (pooled self')))%Z).
Proof.
  destruct (pass_total bool example_backward true (init example_model 1 0 0) example_rng)
    as (self' & rng' & Hrun).
  { apply example_well_shaped; reflexivity. }
  assert (scoring_passes example_backward [true] (init example_model 1 0 0, example_rng)
          = (Return (), (self', rng'))) as Hpasses.
  { unfold scoring_passes. rewrite for_each_cons, Hrun. reflexivity. }
  exists self', rng'. split; [exact Hpasses|].
  apply (scored_prune_returns bool example_backward example_model 1 0 0 (1 / 2) [true]
           example_rng rng' self').
  - exact example_unique_names.
  - exact Hpasses.
Defined.

(** * Further properties of pruning *)

Lemma int_mono (x y : R) : 0 <= x → x <= y → (int x <= int y)%Z.
Proof.
  intros Hx Hxy. destruct (int_floor x Hx) as [H1 _].
  destruct (int_floor y) as [_ H2]; [lra|].
  assert (IZR (int x) < IZR (int y + 1)) as Hlt by (rewrite plus_IZR; lra).
  apply lt_IZR in Hlt. lia.
Qed.

Lemma descending_lookup_le (l : tensor) :
  descending l →
  ∀ i j a b, (i <= j)%nat → l !! i = Some a → l !! j = Some b → b <= a.
Proof.
  induction 1 as [|x l Hs IH Hall]; intros i j a b Hij Ha Hb.
  - rewrite lookup_nil in Ha. discriminate.
  - destruct i as [|i], j as [|j]; simpl in Ha, Hb.
    + injection Ha as <-. injection Hb as <-. lra.
    + injection Ha as <-. rewrite Forall_forall in Hall. apply Hall.
      eapply list_elem_of_lookup_2, Hb.
    + lia.
    + eapply IH; [|eassumption|eassumption]. lia.
Qed.

(** A call of [prune] that returns, with unique module names: the threshold
    and what became of the heap. *)
Lemma prune_Return_threshold (s : R) (self self' : SmartSparsePruner) :
  unique_names (model self) →
  prune s self = (Return (), self') →
  ∃ thr,
    sort_desc (pooled self) !! (Z.to_nat (keep_count s self) - 1)%nat = Some thr ∧
    self' = set_heap self (heap (model self')) ∧
    (∀ l, grad (heap (model self') l) = grad (heap (model self) l)) ∧
    (∀ l, data (heap (model self') l)
          = fold_left (zip_with Rmult)
              (masks_at thr (layerwise_scores self) (named_modules (model self)) l)
              (data (heap (model self) l))).
Proof.
  intros Hnames Hrun. pose proof (prune_Return_keep _ _ _ Hrun) as Hk.
  destruct (prune_keep_in_range s self Hnames Hk) as (thr & Hthr & Heq).
  rewrite Heq in Hrun. exists thr. split; [exact Hthr|].
  destruct (for_each_apply_mask _ _ _ _ _ Hrun) as (Hself & Hgrad & _ & Hpost).
  split; [exact Hself|]. split; [exact Hgrad|].
  intros l. rewrite (Hpost eq_refl l), masks_at_filter. reflexivity.
Qed.

(** A higher sparsity gives a keep-count that is not larger and a threshold
    that is not smaller. *)
Lemma threshold_mono (s1 s2 : R) (self : SmartSparsePruner) (thr1 thr2 : R) :
  s1 <= s2 →
  (1 <= keep_count s2 self)%Z →
  sort_desc (pooled self) !! (Z.to_nat (keep_count s1 self) - 1)%nat = Some thr1 →
  sort_desc (pooled self) !! (Z.to_nat (keep_count s2 self) - 1)%nat = Some thr2 →
  (keep_count s2 self <= keep_count s1 self)%Z ∧ thr1 <= thr2.
Proof.
  unfold keep_count. intros Hs Hk2 H1 H2.
  pose proof (pos_INR (numel (pooled self))) as HN.
  assert (0 <= (1 - s2) * INR (numel (pooled self))) as Hx2.
  { destruct (Rle_dec 0 ((1 - s2) * INR (numel (pooled self)))) as [|Hn]; [assumption|].
    assert ((1 - s2) * INR (numel (pooled self)) < 0) as Hneg by lra.
    apply int_nonpos in Hneg. lia. }
  assert (int ((1 - s2) * INR (numel (pooled self)))
          <= int ((1 - s1) * INR (numel (pooled self))))%Z as Hk
    by (apply int_mono; [assumption | nra]).
  split; [exact Hk|].
  eapply (descending_lookup_le _ (sort_desc_sorted (pooled self))); [|exact H2|exact H1].
  lia.
Qed.

Lemma zip_mul_swap (d m1 m2 : tensor) :
  zip_with Rmult (zip_with Rmult d m1) m2 = zip_with Rmult (zip_with Rmult d m2) m1.
Proof.
  revert m1 m2. induction d as [|x d IH]; intros [|y1 m1] [|y2 m2]; simpl; try reflexivity.
  rewrite IH. f_equal. lra.
Qed.

Lemma fold_zip_comm (ms : list tensor) (d m : tensor) :
  zip_with Rmult (fold_left (zip_with Rmult) ms d) m
  = fold_left (zip_with Rmult) ms (zip_with Rmult d m).
Proof.
  revert d. induction ms as [|m' ms IH]; intros d; simpl; [reflexivity|].
  rewrite IH, zip_mul_swap. reflexivity.
Qed.

(** Of the masks of one score tensor at two thresholds, the one at the
    higher threshold absorbs the other. *)
Lemma mask_absorb (thr1 thr2 : R) (sc d : tensor) :
  thr1 <= thr2 →
  zip_with Rmult (zip_with Rmult d (ge_mask sc thr1)) (ge_mask sc thr2)
  = zip_with Rmult d (ge_mask sc thr2) ∧
  zip_with Rmult (zip_with Rmult d (ge_mask sc thr2)) (ge_mask sc thr1)
  = zip_with Rmult d (ge_mask sc thr2).
Proof.
  intros Hle. unfold ge_mask. revert d.
  induction sc as [|v sc IH]; intros [|x d]; simpl; try (split; reflexivity).
  destruct (IH d) as [-> ->].
  destruct (Rge_dec v thr1), (Rge_dec v thr2); try lra; split; f_equal; lra.
Qed.

Lemma masks_absorb (thr1 thr2 : R) (scores : gmap string tensor)
    (mm : list (string * Module)) (l : loc) :
  thr1 <= thr2 →
  ∀ d,
    fold_left (zip_with Rmult) (masks_at thr2 scores mm l)
      (fold_left (zip_with Rmult) (masks_at thr1 scores mm l) d)
    = fold_left (zip_with Rmult) (masks_at thr2 scores mm l) d ∧
    fold_left (zip_with Rmult) (masks_at thr1 scores mm l)
      (fold_left (zip_with Rmult) (masks_at thr2 scores mm l) d)
    = fold_left (zip_with Rmult) (masks_at thr2 scores mm l) d.
Proof.
  intros Hle. induction mm as [|[name m] mm IH]; intros d; [split; reflexivity|].
  rewrite !masks_at_cons.
  destruct m as [w b|ps]; [|apply IH].
  destruct (decide (w = l)); [|apply IH].
  destruct (scores !! name) as [sc|]; [|apply IH].
  cbn [fold_left]. destruct (mask_absorb thr1 thr2 sc d Hle) as [Ha Hb].
  destruct (IH (zip_with Rmult d (ge_mask sc thr2))) as [IH1 IH2].
  split.
  - rewrite (fold_zip_comm (masks_at thr1 scores mm l)), Ha. exact IH1.
  - rewrite (fold_zip_comm (masks_at thr2 scores mm l)), Hb. exact IH2.
Qed.

(** What is zero under the masks of a threshold is zero under the masks of a
    higher one. *)
Lemma masks_zero_mono (thr1 thr2 : R) (scores : gmap string tensor)
    (mm : list (string * Module)) (l : loc) :
  thr1 <= thr2 →
  ∀ d1 d2,
    length d1 = length d2 →
    (∀ i, d1 !! i = Some 0 → d2 !! i = Some 0) →
    ∀ i, fold_left (zip_with Rmult) (masks_at thr1 scores mm l) d1 !! i = Some 0 →
         fold_left (zip_with Rmult) (masks_at thr2 scores mm l) d2 !! i = Some 0.
Proof.
  intros Hle. induction mm as [|[name m] mm IH]; intros d1 d2 Hlen Hz; [exact Hz|].
  rewrite !masks_at_cons.
  destruct m as [w b|ps]; [|apply IH; assumption].
  destruct (decide (w = l)); [|apply IH; assumption].
  destruct (scores !! name) as [sc|]; [|apply IH; assumption].
  cbn [fold_left]. apply IH.
  - rewrite !length_zip_with, !ge_mask_length. lia.
  - intros i Hi. apply lookup_zip_with_Some in Hi. destruct Hi as (x & y & Hxy & Hx & Hy).
    unfold ge_mask in Hy. rewrite lookup_map in Hy.
    destruct (sc !! i) as [v|] eqn:Ev; [|discriminate]. simpl in Hy. injection Hy as <-.
    destruct (lookup_lt_is_Some_2 d2 i) as [x' Hx'].
    { rewrite <- Hlen. eapply lookup_lt_Some, Hx. }
    apply lookup_zip_with_Some.
    exists x', (if Rge_dec v thr2 then 1 else 0). split; [|split; [exact Hx'|]].
    + destruct (Rge_dec v thr1) as [H1|H1].
      * assert (x = 0) as -> by lra. rewrite (Hz i Hx) in Hx'. injection Hx' as <-. lra.
      * destruct (Rge_dec v thr2); lra.
    + unfold ge_mask. rewrite lookup_map, Ev. reflexivity.
Qed.

(** Two pruners that differ from a third in the heap only are equal when
    their parameters are. *)
Lemma pruner_heap_eq (self a b : SmartSparsePruner) :
  a = set_heap self (heap (model a)) → b = set_heap self (heap (model b)) →
  (∀ l, data (heap (model a) l) = data (heap (model b) l)) →
  (∀ l, grad (heap (model a) l) = grad (heap (model b) l)) →
  a = b.
Proof.
  intros Ha Hb Hd Hg. rewrite Ha, Hb. f_equal.
  apply functional_extensionality. intros l. apply Param_eq; auto.
Qed.

(** [prune] on a pruner whose weights were masked before: the pool, the
    keep-count and the threshold are those of the unmasked pruner. *)
Lemma prune_rerun (s : R) (self self1 : SmartSparsePruner) :
  unique_names (model self) → shapes_agree self →
  self1 = set_heap self (heap (model self1)) →
  (∀ l, length (data (heap (model self1) l)) = length (data (heap (model self) l))) →
  (1 <= keep_count s self <= Z.of_nat (numel (pooled self)))%Z →
  ∃ thr self3,
    sort_desc (pooled self) !! (Z.to_nat (keep_count s self) - 1)%nat = Some thr ∧
    prune s self1 = (Return (), self3) ∧
    self3 = set_heap self (heap (model self3)) ∧
    (∀ l, grad (heap (model self3) l) = grad (heap (model self1) l)) ∧
    (∀ l, data (heap (model self3) l)
          = fold_left (zip_with Rmult)
              (masks_at thr (layerwise_scores self) (named_modules (model self)) l)
              (data (heap (model self1) l))).
Proof.
  intros Hnames Hshapes Hself1 Hlen Hk.
  assert (named_modules (model self1) = named_modules (model self)) as Hmods
    by (rewrite Hself1; reflexivity).
  assert (layerwise_scores self1 = layerwise_scores self) as Hscores
    by (rewrite Hself1; reflexivity).
  assert (pooled self1 = pooled self) as Hpool
    by (unfold pooled; rewrite Hmods, Hscores; reflexivity).
  assert (unique_names (model self1)) as Hnames1
    by (unfold unique_names; rewrite Hmods; exact Hnames).
  assert (shapes_agree self1) as Hshapes1.
  { intros name w b sc Hin Hsc. rewrite Hlen. rewrite Hmods in Hin. rewrite Hscores in Hsc.
    apply (Hshapes name w b sc Hin Hsc). }
  destruct (prune_keep_in_range s self1 Hnames1) as (thr & Hthr & Heq).
  { rewrite Hpool. exact Hk. }
  rewrite Hpool in Hthr.
  destruct (for_each_apply_mask_total thr _ self1 (filter_eligible_ok self1 Hshapes1))
    as [self3 Hrun].
  exists thr, self3. split; [exact Hthr|]. split; [rewrite Heq; exact Hrun|].
  destruct (for_each_apply_mask _ _ _ _ _ Hrun) as (Hself3 & Hgrad & _ & Hpost).
  split.
  - rewrite Hself3 at 1. rewrite Hself1. reflexivity.
  - split; [exact Hgrad|]. intros l.
    rewrite (Hpost eq_refl l), masks_at_filter, Hmods, Hscores. reflexivity.
Qed.

(** X12.  For a sparsity between [0] and [1] and a pool of [N >= 1] scores
    (unique module names, stored scores of the size of their weights), when
    the float arithmetic of the keep-count is exact ([s], [1 - s], [N] and
    [(1 - s) * N] are binary64 numbers), [prune] returns exactly when
    [(1 - s) * N >= 1]; when [(1 - s) * N < 1] the keep-count is [0] and the
    call raises [IndexError], leaving the model as it was. *)
Theorem prune_unit_interval (s : R) (self : SmartSparsePruner) :
  unique_names (model self) → shapes_agree self → pooled self ≠ [] →
  0 <= s <= 1 →
  keep_count_exact s (numel (pooled self)) →
  ((1 - s) * INR (numel (pooled self)) < 1 → prune s self = (Raise IndexError, self)) ∧
  (1 <= (1 - s) * INR (numel (pooled self)) → ∃ self', prune s self = (Return (), self')).
Proof.
  intros Hnames Hshapes Hne Hs _.
  pose proof (pos_INR (numel (pooled self))) as HN.
  split.
  - intros Hlt. apply prune_keep_zero; [apply pooled_chunks_nonempty, Hne|].
    apply int_nonneg; [nra|]. simpl. split; [nra | lra].
  - intros Hge.
    destruct (int_floor ((1 - s) * INR (numel (pooled self)))) as [Hlo Hhi]; [lra|].
    assert (1 <= int ((1 - s) * INR (numel (pooled self)))
            <= Z.of_nat (numel (pooled self)))%Z as Hk.
    { split.
      - assert (IZR 0 < IZR (int ((1 - s) * INR (numel (pooled self))))) as H0 by (simpl; lra).
        apply lt_IZR in H0. lia.
      - apply le_IZR. rewrite <- INR_IZR_INZ. nra. }
    destruct (prune_keep_in_range s self Hnames Hk) as (thr & _ & ->).
    apply for_each_apply_mask_total, filter_eligible_ok, Hshapes.
Qed.

Lemma prune_unit_interval_witness :
  keep_count_exact (3 / 4) (numel (pooled example_pruner)) ∧
  (1 - 3 / 4) * INR (numel (pooled example_pruner)) < 1 ∧
  ((1 - 3 / 4) * INR (numel (pooled example_pruner)) < 1 →
   prune (3 / 4) example_pruner = (Raise IndexError, example_pruner)) ∧
  (1 <= (1 - 3 / 4) * INR (numel (pooled example_pruner)) →
   ∃ self', prune (3 / 4) example_pruner = (Return (), self')).
Proof.
  assert (keep_count_exact (3 / 4) (numel (pooled example_pruner))) as Hexact.
  { change (numel (pooled example_pruner)) with 2%nat.
    split; [|split; [|split]].
    - exists 3%Z, (-2)%Z. split; [lia|]. split; [lia|]. simpl. lra.
    - exists 1%Z, (-2)%Z. split; [lia|]. split; [lia|]. simpl. lra.
    - exists 2%Z, 0%Z. split; [lia|]. split; [lia|]. simpl. lra.
    - exists 1%Z, (-1)%Z. split; [lia|]. split; [lia|]. simpl. lra. }
  split; [exact Hexact|].
  split; [change (numel (pooled example_pruner)) with 2%nat; simpl; lra|].
  apply (prune_unit_interval (3 / 4) example_pruner).
  - exact example_unique_names.
  - exact example_shapes_agree.
  - discriminate.
  - lra.
  - exact Hexact.
Defined.

(** X13.  Pruning is monotone in the sparsity.  Of two calls on the same
    pruner that return, the one with the higher sparsity has the smaller
    (or equal) keep-count, and every weight element that the lower sparsity
    leaves at zero is at zero after the higher one. *)
Theorem prune_monotone (s1 s2 : R) (self self1 self2 : SmartSparsePruner) :
  unique_names (model self) → s1 <= s2 →
  prune s1 self = (Return (), self1) →
  prune s2 self = (Return (), self2) →
  (keep_count s2 self <= keep_count s1 self)%Z ∧
  ∀ l i, data (heap (model self1) l) !! i = Some 0 →
         data (heap (model self2) l) !! i = Some 0.
Proof.
  intros Hnames Hs H1 H2.
  pose proof (prune_Return_keep _ _ _ H2) as Hk2.
  destruct (prune_Return_threshold _ _ _ Hnames H1) as (thr1 & Ht1 & _ & _ & Hd1).
  destruct (prune_Return_threshold _ _ _ Hnames H2) as (thr2 & Ht2 & _ & _ & Hd2).
  destruct (threshold_mono s1 s2 self thr1 thr2 Hs) as [Hk Hle]; [lia|assumption|assumption|].
  split; [exact Hk|]. intros l i. rewrite Hd1, Hd2.
  apply masks_zero_mono; auto.
Qed.

Lemma prune_monotone_witness :
  (keep_count (1 / 2) example_pruner <= keep_count 0 example_pruner)%Z ∧
  ∀ l i, data (heap (model example_pruner) l) !! i = Some 0 →
         data (heap (model example_pruned) l) !! i = Some 0.
Proof.
  apply (prune_monotone 0 (1 / 2) example_pruner example_pruner example_pruned).
  - exact example_unique_names.
  - lra.
  - apply prune_sparsity_zero;
      [exact example_unique_names | exact example_shapes_agree | discriminate].
  - exact example_prune_half.
Defined.

(** X14.  Sparsities do not accumulate across calls of [prune] that use the
    same scores.  When the calls at [s1 <= s2] both return on a pruner,
    pruning at [s2] after having pruned at [s1] gives the very pruner that
    pruning at [s2] alone gives, and pruning at [s1] after [s2] changes
    nothing; in particular [prune] is idempotent. *)
Theorem prune_compose (s1 s2 : R) (self self1 self2 : SmartSparsePruner) :
  unique_names (model self) → shapes_agree self → s1 <= s2 →
  prune s1 self = (Return (), self1) →
  prune s2 self = (Return (), self2) →
  prune s2 self1 = (Return (), self2) ∧ prune s1 self2 = (Return (), self2).
Proof.
  intros Hnames Hshapes Hs H1 H2.
  pose proof (prune_Return_keep _ _ _ H1) as Hk1.
  pose proof (prune_Return_keep _ _ _ H2) as Hk2.
  destruct (prune_lengths _ _ _ _ H1) as [_ Hlen1].
  destruct (prune_lengths _ _ _ _ H2) as [_ Hlen2].
  destruct (prune_Return_threshold _ _ _ Hnames H1) as (thr1 & Ht1 & Hself1 & Hg1 & Hd1).
  destruct (prune_Return_threshold _ _ _ Hnames H2) as (thr2 & Ht2 & Hself2 & Hg2 & Hd2).
  destruct (threshold_mono s1 s2 self thr1 thr2 Hs) as [_ Hle]; [lia|assumption|assumption|].
  split.
  - destruct (prune_rerun s2 self self1 Hnames Hshapes Hself1 Hlen1 Hk2)
      as (thr & self3 & Ht & -> & Hself3 & Hg3 & Hd3).
    assert (thr = thr2) as -> by congruence.
    f_equal. apply (pruner_heap_eq self); [exact Hself3 | exact Hself2 | |].
    + intros l. rewrite Hd3, Hd1, Hd2. apply masks_absorb, Hle.
    + intros l. rewrite Hg3, Hg1, Hg2. reflexivity.
  - destruct (prune_rerun s1 self self2 Hnames Hshapes Hself2 Hlen2 Hk1)
      as (thr & self3 & Ht & -> & Hself3 & Hg3 & Hd3).
    assert (thr = thr1) as -> by congruence.
    f_equal. apply (pruner_heap_eq self); [exact Hself3 | exact Hself2 | |].
    + intros l. rewrite Hd3, Hd2. apply masks_absorb, Hle.
    + intros l. rewrite Hg3. reflexivity.
Qed.

Lemma prune_compose_witness :
  prune (1 / 2) example_pruner = (Return (), example_pruned) ∧
  prune 0 example_pruned = (Return (), example_pruned).
Proof.
  apply (prune_compose 0 (1 / 2) example_pruner example_pruner example_pruned).
  - exact example_unique_names.
  - exact example_shapes_agree.
  - lra.
  - apply prune_sparsity_zero;
      [exact example_unique_names | exact example_shapes_agree | discriminate].
  - exact example_prune_half.
Defined.

(** * Properties of the calibration data *)

Section TextProperties.

Context {char : Type}.
Variable isspace : char → bool.
Variable is_equals_sign : char → bool.
Variable space : char.
Hypothesis space_isspace : isspace space = true.

Lemma lstrip_decomp (s : list char) :
  ∃ ws, s = ws ++ lstrip isspace s ∧ Forall (fun c => isspace c = true) ws.
Proof.
  induction s as [|c s (ws & Hs & Hws)]; [exists []; split; [reflexivity | constructor]|].
  simpl. destruct (isspace c) eqn:Ec.
  - exists (c :: ws). split; [simpl; f_equal; exact Hs | constructor; assumption].
  - exists []. split; [reflexivity | constructor].
Qed.

Lemma lstrip_head (s : list char) :
  lstrip isspace s = [] ∨ ∃ c t, lstrip isspace s = c :: t ∧ isspace c = false.
Proof.
  induction s as [|c s IH]; [left; reflexivity|].
  simpl. destruct (isspace c) eqn:Ec; [exact IH|]. right. eauto.
Qed.

Lemma lstrip_nonspace (c : char) (t : list char) :
  isspace c = false → lstrip isspace (c :: t) = c :: t.
Proof. intros Ec. simpl. rewrite Ec. reflexivity. Qed.

Lemma lstrip_idem (s : list char) : lstrip isspace (lstrip isspace s) = lstrip isspace s.
Proof.
  destruct (lstrip_head s) as [->|(c & t & -> & Ec)]; [reflexivity|].
  apply lstrip_nonspace, Ec.
Qed.

Lemma lstrip_app_nonspace (x y : list char) (c : char) :
  isspace c = false → lstrip isspace (x ++ c :: y) = lstrip isspace x ++ c :: y.
Proof.
  intros Ec. induction x as [|d x IH]; simpl; [rewrite Ec; reflexivity|].
  destruct (isspace d); [exact IH | reflexivity].
Qed.

Lemma rstrip_cons_nonspace (c : char) (t : list char) :
  isspace c = false → rstrip isspace (c :: t) = c :: rstrip isspace t.
Proof.
  intros Ec. unfold rstrip. simpl. rewrite lstrip_app_nonspace by exact Ec.
  rewrite rev_app_distr. reflexivity.
Qed.

Lemma rstrip_idem (s : list char) : rstrip isspace (rstrip isspace s) = rstrip isspace s.
Proof. unfold rstrip. rewrite rev_involutive, lstrip_idem. reflexivity. Qed.

Lemma rstrip_decomp (s : list char) :
  ∃ ws, s = rstrip isspace s ++ ws ∧ Forall (fun c => isspace c = true) ws.
Proof.
  destruct (lstrip_decomp (rev s)) as (ws & Hs & Hws).
  exists (rev ws). split.
  - unfold rstrip. rewrite <- rev_app_distr, <- Hs, rev_involutive. reflexivity.
  - apply Forall_forall. intros c Hc. rewrite Forall_forall in Hws. apply Hws.
    apply list_elem_of_In. apply list_elem_of_In, in_rev in Hc. exact Hc.
Qed.

(** [strip] is idempotent. *)
Lemma strip_idem (s : list char) : strip isspace (strip isspace s) = strip isspace s.
Proof.
  unfold strip. destruct (lstrip_head s) as [->|(c & t & -> & Ec)]; [reflexivity|].
  rewrite rstrip_cons_nonspace by exact Ec.
  rewrite lstrip_nonspace by exact Ec.
  rewrite rstrip_cons_nonspace by exact Ec. rewrite rstrip_idem. reflexivity.
Qed.

Lemma split_from_app_space (w a b : list char) (sp : char) :
  isspace sp = true →
  split_from isspace w (a ++ sp :: b) = split_from isspace w a ++ split isspace b.
Proof.
  intros Esp. revert w. induction a as [|c a IH]; intros w; simpl.
  - rewrite Esp. destruct w; reflexivity.
  - destruct (isspace c); [|apply IH].
    destruct w; rewrite IH; reflexivity.
Qed.

Lemma split_spaces (ws : list char) :
  Forall (fun c => isspace c = true) ws → split isspace ws = [].
Proof.
  unfold split. induction 1 as [|c ws Ec _ IH]; [reflexivity|].
  simpl. rewrite Ec. exact IH.
Qed.

Lemma split_from_app_spaces (w a ws : list char) :
  Forall (fun c => isspace c = true) ws →
  split_from isspace w (a ++ ws) = split_from isspace w a.
Proof.
  intros Hws. destruct Hws as [|c ws Ec Hws]; [rewrite app_nil_r; reflexivity|].
  rewrite split_from_app_space by exact Ec.
  rewrite split_spaces by exact Hws. apply app_nil_r.
Qed.

Lemma split_lstrip (s : list char) : split isspace (lstrip isspace s) = split isspace s.
Proof.
  unfold split. induction s as [|c s IH]; [reflexivity|].
  simpl. destruct (isspace c) eqn:Ec; [exact IH|].
  simpl. rewrite Ec. reflexivity.
Qed.

Lemma split_rstrip (s : list char) : split isspace (rstrip isspace s) = split isspace s.
Proof.
  destruct (rstrip_decomp s) as (ws & Hs & Hws).
  rewrite Hs at 2. unfold split. rewrite split_from_app_spaces by exact Hws. reflexivity.
Qed.

(** Stripping a string keeps its words. *)
Lemma split_strip (s : list char) : split isspace (strip isspace s) = split isspace s.
Proof. unfold strip. rewrite split_rstrip, split_lstrip. reflexivity. Qed.

(** The words of the buffer after a line was appended to it. *)
Lemma split_buffer (buffer line : list char) :
  (buffer = [] ∨ ∃ b, buffer = b ++ [space]) →
  split isspace (buffer ++ line ++ [space]) = split isspace buffer ++ split isspace line.
Proof.
  assert (∀ x, split isspace (x ++ [space]) = split isspace x) as Hend.
  { intros x. unfold split. rewrite split_from_app_space by exact space_isspace.
    apply app_nil_r. }
  intros [->|[b ->]].
  - simpl. apply Hend.
  - rewrite Hend, <- app_assoc. simpl. unfold split at 1.
    rewrite split_from_app_space by exact space_isspace. rewrite Hend. reflexivity.
Qed.

Lemma group_lines_count (n : Z) (lines : list (list char)) :
  ∀ ps buf,
    (Z.of_nat (length ps) < Z.max 1 n)%Z →
    (Z.of_nat (length (group_lines isspace space n lines ps buf)) <= Z.max 1 n)%Z.
Proof.
  induction lines as [|line rest IH]; intros ps buf Hps; simpl; [lia|].
  destruct (100 <? length (split isspace (buf ++ line ++ [space])))%nat.
  - destruct (n <=? Z.of_nat (length (ps ++ [strip isspace (buf ++ line ++ [space])])))%Z
      eqn:Eb.
    + rewrite length_app. simpl. lia.
    + apply IH. apply Z.leb_gt in Eb. lia.
  - destruct (n <=? Z.of_nat (length ps))%Z eqn:Eb; [lia|].
    apply IH. exact Hps.
Qed.

Lemma group_lines_inv (n : Z) (lines : list (list char)) :
  ∀ ps buf,
    (buf = [] ∨ ∃ b, buf = b ++ [space]) →
    Forall (fun p => (100 < length (split isspace p))%nat ∧ strip isspace p = p) ps →
    Forall (fun p => (100 < length (split isspace p))%nat ∧ strip isspace p = p)
      (group_lines isspace space n lines ps buf) ∧
    concat (map (split isspace) (group_lines isspace space n lines ps buf))
    `prefix_of` concat (map (split isspace) ps) ++ split isspace buf
                ++ concat (map (split isspace) lines).
Proof.
  induction lines as [|line rest IH]; intros ps buf Hbuf Hps.
  - simpl. split; [exact Hps|]. apply prefix_app_r. reflexivity.
  - cbn [group_lines map concat].
    pose proof (split_buffer buf line Hbuf) as Hwords.
    destruct (100 <? length (split isspace (buf ++ line ++ [space])))%nat eqn:Ebig.
    + assert (Forall (fun p => (100 < length (split isspace p))%nat ∧ strip isspace p = p)
                (ps ++ [strip isspace (buf ++ line ++ [space])])) as Hps'.
      { apply Forall_app. split; [exact Hps|]. constructor; [|constructor].
        split; [|apply strip_idem]. rewrite split_strip. apply Nat.ltb_lt, Ebig. }
      assert (concat (map (split isspace) (ps ++ [strip isspace (buf ++ line ++ [space])]))
              = concat (map (split isspace) ps) ++ split isspace buf ++ split isspace line)
        as Hcat.
      { rewrite map_app, concat_app. simpl. rewrite app_nil_r, split_strip, Hwords.
        reflexivity. }
      destruct (n <=? Z.of_nat (length (ps ++ [strip isspace (buf ++ line ++ [space])])))%Z.
      * split; [exact Hps'|]. rewrite Hcat.
        exists (concat (map (split isspace) rest)). rewrite <- ?app_assoc. reflexivity.
      * destruct (IH (ps ++ [strip isspace (buf ++ line ++ [space])]) [])
          as [Hall Hpre]; [left; reflexivity | exact Hps' |].
        split; [exact Hall|]. rewrite Hcat in Hpre. simpl in Hpre.
        rewrite <- ?app_assoc in Hpre. rewrite <- ?app_assoc. exact Hpre.
    + destruct (n <=? Z.of_nat (length ps))%Z.
      * split; [exact Hps|]. apply prefix_app_r. reflexivity.
      * destruct (IH ps (buf ++ line ++ [space])) as [Hall Hpre]; [|exact Hps|].
        { right. exists (buf ++ line). rewrite <- app_assoc. reflexivity. }
        split; [exact Hall|]. rewrite Hwords in Hpre.
        rewrite <- ?app_assoc in Hpre. rewrite <- ?app_assoc. exact Hpre.
Qed.

(** X15.  [load_wikitext2] returns at most [max(1, num_samples)] paragraphs:
    the bound is tested after a paragraph was appended, never before, so a
    [num_samples] of [0] or less can still yield one paragraph. *)
Theorem load_wikitext2_count (file : list (list char)) (num_samples : Z) :
  (Z.of_nat (length (load_wikitext2 isspace is_equals_sign space file num_samples))
   <= Z.max 1 num_samples)%Z.
Proof. unfold load_wikitext2. apply group_lines_count. simpl. lia. Qed.

(** X16.  Every paragraph [load_wikitext2] returns has more than 100 words
    and neither leading nor trailing whitespace, and the words of the
    paragraphs, in order, are an initial segment of the words of the kept
    lines: nothing is added or reordered, the words after the last full
    paragraph are dropped.  In particular kept lines of at most 100 words in
    total give no paragraph at all. *)
Theorem load_wikitext2_paragraphs (file : list (list char)) (num_samples : Z) :
  Forall (fun p => (100 < length (split isspace p))%nat ∧ strip isspace p = p)
    (load_wikitext2 isspace is_equals_sign space file num_samples) ∧
  concat (map (split isspace) (load_wikitext2 isspace is_equals_sign space file num_samples))
  `prefix_of` concat (map (split isspace) (kept_lines isspace is_equals_sign file)) ∧
  ((length (concat (map (split isspace) (kept_lines isspace is_equals_sign file))) <= 100)%nat →
   load_wikitext2 isspace is_equals_sign space file num_samples = []).
Proof.
  unfold load_wikitext2.
  destruct (group_lines_inv num_samples (kept_lines isspace is_equals_sign file) [] [])
    as [Hall Hpre]; [left; reflexivity | constructor |].
  simpl in Hpre. split; [exact Hall|]. split; [exact Hpre|].
  intros Hshort.
  destruct (group_lines isspace space num_samples (kept_lines isspace is_equals_sign file) [] [])
    as [|p ps]; [reflexivity|].
  exfalso. apply Forall_cons in Hall. destruct Hall as [[Hp _] _].
  apply prefix_length in Hpre. simpl in Hpre. rewrite length_app in Hpre. lia.
Qed.

End TextProperties.

(** ** The line filter and the paragraphs on ASCII text *)

Lemma load_wikitext2_paragraphs_witness :
  Forall (fun p => (100 < length (split ascii_isspace p))%nat ∧ strip ascii_isspace p = p)
    (load_wikitext2 ascii_isspace ascii_is_equals_sign ascii_space example_file 1) ∧
  concat (map (split ascii_isspace)
            (load_wikitext2 ascii_isspace ascii_is_equals_sign ascii_space example_file 1))
  `prefix_of` concat (map (split ascii_isspace)
                        (kept_lines ascii_isspace ascii_is_equals_sign example_file)) ∧
  ((length (concat (map (split ascii_isspace)
                      (kept_lines ascii_isspace ascii_is_equals_sign example_file))) <= 100)%nat →
   load_wikitext2 ascii_isspace ascii_is_equals_sign ascii_space example_file 1 = []).
Proof.
  apply (load_wikitext2_paragraphs ascii_isspace ascii_is_equals_sign ascii_space).
  reflexivity.
Defined.

Section FilterProperties.

Context {char : Type}.
Variable isspace : char → bool.
Variable is_equals_sign : char → bool.

Lemma kept_lines_cons (line : list char) (file : list (list char)) :
  kept_lines isspace is_equals_sign (line :: file) =
  if nonempty (strip isspace line) && negb (startswith_equals_sign is_equals_sign line)
  then strip isspace line :: kept_lines isspace is_equals_sign file
  else kept_lines isspace is_equals_sign file.
Proof.
  unfold kept_lines. simpl.
  destruct (nonempty (strip isspace line) && negb (startswith_equals_sign is_equals_sign line));
    reflexivity.
Qed.

(** X17.  The line filter tests the raw line for a leading ['='] and the
    stripped line for emptiness.  Every kept line is non-empty and stripped;
    a line that begins with ['='] is dropped; but a heading that is
    indented by one whitespace character is kept, and is stored stripped, so
    that it begins with ['=']. *)
Theorem kept_lines_headings (file : list (list char)) (w c : char) (rest : list char) :
  isspace w = true → is_equals_sign w = false →
  isspace c = false → is_equals_sign c = true →
  Forall (fun l => l ≠ [] ∧ strip isspace l = l) (kept_lines isspace is_equals_sign file) ∧
  kept_lines isspace is_equals_sign ((c :: rest) :: file)
  = kept_lines isspace is_equals_sign file ∧
  kept_lines isspace is_equals_sign ((w :: c :: rest) :: file)
  = (c :: rstrip isspace rest) :: kept_lines isspace is_equals_sign file.
Proof.
  intros Hw Hwe Hc Hce. split; [|split].
  - induction file as [|line file IH]; [constructor|].
    rewrite kept_lines_cons.
    destruct (nonempty (strip isspace line)) eqn:En; [|exact IH].
    destruct (negb (startswith_equals_sign is_equals_sign line)); [|exact IH].
    simpl. constructor; [|exact IH]. split; [|apply strip_idem].
    intros E. rewrite E in En. discriminate.
  - rewrite kept_lines_cons. simpl. rewrite Hce, andb_false_r. reflexivity.
  - rewrite kept_lines_cons.
    assert (strip isspace (w :: c :: rest) = c :: rstrip isspace rest) as ->.
    { unfold strip. simpl. rewrite Hw, Hc. apply rstrip_cons_nonspace, Hc. }
    simpl. rewrite Hwe. reflexivity.
Qed.

End FilterProperties.

Lemma kept_lines_headings_witness :
  Forall (fun l => l ≠ [] ∧ strip ascii_isspace l = l)
    (kept_lines ascii_isspace ascii_is_equals_sign example_file) ∧
  kept_lines ascii_isspace ascii_is_equals_sign
    ((Ascii.ascii_of_nat 61 :: String.list_ascii_of_string " Heading =") :: example_file)
  = kept_lines ascii_isspace ascii_is_equals_sign example_file ∧
  kept_lines ascii_isspace ascii_is_equals_sign
    ((Ascii.ascii_of_nat 32 :: Ascii.ascii_of_nat 61 :: String.list_ascii_of_string " Heading =")
     :: example_file)
  = (Ascii.ascii_of_nat 61 :: rstrip ascii_isspace (String.list_ascii_of_string " Heading ="))
    :: kept_lines ascii_isspace ascii_is_equals_sign example_file.
Proof.
  apply (kept_lines_headings ascii_isspace ascii_is_equals_sign example_file
           (Ascii.ascii_of_nat 32) (Ascii.ascii_of_nat 61)
           (String.list_ascii_of_string " Heading ="));
    reflexivity.
Defined.

(** * Properties of the prepared batch *)

Lemma zip_with_diag {A B : Type} (f : A → A → B) (l : list A) :
  zip_with f l l = map (fun x => f x x) l.
Proof. induction l as [|x l IH]; simpl; [reflexivity|]. rewrite IH. reflexivity. Qed.

(** A row of at least one token: shifted left by one, the last position
    overwritten. *)
Lemma shifted_row (r : list Z) (v : Z) :
  length r ≠ 0%nat →
  <[(length r - 1)%nat := v]> (assign_shifted r r) = drop 1 r ++ [v].
Proof.
  intros Hr. unfold assign_shifted.
  assert (length (drop 1 r) = (length r - 1)%nat) as Hlen by apply length_drop.
  rewrite Hlen.
  replace (length r - 1)%nat with (length (drop 1 r) + 0)%nat at 1 by lia.
  rewrite insert_app_r. f_equal.
  assert (length (drop (length r - 1) r) = 1%nat) as H1 by (rewrite length_drop; lia).
  destruct (drop (length r - 1) r) as [|y [|z t]]; simpl in H1; try lia. reflexivity.
Qed.

Section BatchProperties.

Context {char : Type}.
Variable tokenizer : list (list char) → nat → outcome Tensor2.

(** X18.  [prepare_inputs] on the matrix of token ids the tokenizer returns
    (every row of the matrix's width): when the width is [0] it raises
    [IndexError]; otherwise it returns the token ids as they are, and as
    labels the matrix of the same shape in which every row is the row of
    token ids shifted left by one position with [-100] in the last
    position, padding positions included.  An exception of the tokenizer is
    passed on. *)
Theorem prepare_inputs_spec (texts : list (list char)) (max_len : nat) :
  (∀ e, tokenizer texts max_len = Raise e → prepare_inputs tokenizer texts max_len = Raise e) ∧
  (∀ enc,
     tokenizer texts max_len = Return enc →
     Forall (fun r => length r = width enc) (rows enc) →
     (width enc = 0%nat → prepare_inputs tokenizer texts max_len = Raise IndexError) ∧
     (width enc ≠ 0%nat →
      prepare_inputs tokenizer texts max_len
      = Return {| input_ids := enc;
                  labels := {| rows := map (fun r => drop 1 r ++ [(-100)%Z]) (rows enc);
                               width := width enc |} |})).
Proof.
  unfold prepare_inputs. split.
  - intros e ->. reflexivity.
  - intros enc -> Hrect. simpl. unfold assign_last. simpl. split.
    + intros ->. reflexivity.
    + intros Hw. rewrite decide_False by exact Hw. simpl. do 3 f_equal.
      rewrite zip_with_diag, map_map. apply map_ext_in. intros r Hr.
      rewrite Forall_forall in Hrect. specialize (Hrect r (proj2 (list_elem_of_In _ _) Hr)).
      rewrite <- Hrect. apply shifted_row. rewrite Hrect. exact Hw.
Qed.

End BatchProperties.

(** * Properties of the experiment *)

Lemma pooled_no_scores (self : SmartSparsePruner) :
  layerwise_scores self = ∅ → pooled self = [].
Proof.
  intros Hempty. unfold pooled. rewrite Hempty.
  induction (named_modules (model self)) as [|nm mods IH]; [reflexivity|].
  simpl. rewrite eligible_empty. exact IH.
Qed.

Lemma pooled_nonempty (self : SmartSparsePruner) (name : string) (w : loc) (b : option loc)
    (sc : tensor) :
  In (name, Linear w b) (named_modules (model self)) →
  layerwise_scores self !! name = Some sc → sc ≠ [] → pooled self ≠ [].
Proof.
  intros Hin Hsc Hne. destruct sc as [|v sc]; [congruence|].
  intros Hp.
  assert (In v (pooled self)) as Hv.
  { eapply (eligible_In_pooled self (name, Linear w b)); [exact Hin | exact Hsc | left; reflexivity]. }
  rewrite Hp in Hv. destruct Hv.
Qed.

Lemma scored_layers_In (m : Model) (name : string) (w : loc) (g : tensor) :
  In (name, w, g) (scored_layers m) →
  ∃ b, In (name, Linear w b) (named_modules m) ∧ grad (heap m w) = Some g.
Proof.
  unfold scored_layers. intros Hin.
  apply list_elem_of_In, list_elem_of_omap in Hin. destruct Hin as ([n md] & Hin & Hl).
  simpl in Hl. destruct md as [w' b|ps]; [|discriminate].
  destruct (grad (heap m w')) as [g'|] eqn:Eg; [|discriminate].
  injection Hl as -> -> ->. exists b. split; [apply list_elem_of_In, Hin | exact Eg].
Qed.

Section PassEntries.

Variable Inputs : Type.
Variable backward : Inputs → Model → loc → option tensor.

(** After a pass that returns, every processed layer has an entry of the
    size of its weight. *)
Lemma scored_entry (inputs : Inputs) (self self' : SmartSparsePruner) (rng rng' : Generator)
    (name : string) (w : loc) (g : tensor) :
  unique_names (model self) →
  compute_importance_scores backward inputs (self, rng) = (Return (), (self', rng')) →
  In (name, w, g) (scored_layers (model (run_backward backward inputs self))) →
  ∃ sc, layerwise_scores self' !! name = Some sc ∧
        length sc = length (data (heap (model self) w)).
Proof.
  intros Hnames Hrun Hin.
  assert (∀ a b c,
            Forall (fused_with a b c (heap (model (run_backward backward inputs self)))
                      (layerwise_scores self'))
              (scored_layers (model (run_backward backward inputs self))) →
            ∃ sc, layerwise_scores self' !! name = Some sc ∧
                  length sc = length (data (heap (model self) w))) as Hfused.
  { intros a b c Hall. rewrite Forall_forall in Hall.
    destruct (Hall _ (proj2 (list_elem_of_In _ _) Hin))
      as (pqi & move & hess & fused & Hl & Hf & Hs).
    simpl in Hl, Hf, Hs. exists fused. split; [exact Hs|].
    apply layer_scores_inv in Hl. destruct Hl as (_ & _ & _ & _ & _ & Hp & Hm & Hh).
    apply fuse_length in Hf; congruence. }
  destruct (is_adaptive self) eqn:Had.
  - apply adaptive_pass in Hrun; [|exact Had]. destruct Hrun as [_ Hrun].
    destruct (scored_layers (model (run_backward backward inputs self))) as [|l1 ls] eqn:El;
      [destruct Hin|].
    destruct Hrun as (_ & _ & _ & _ & _ & _ & _ & _ & Hall).
    specialize (Hall Hnames).
    change (scored_layers _) with (scored_layers (model (run_backward backward inputs self)))
      in Hall.
    rewrite El in Hall. exact (Hfused _ _ _ Hall).
  - apply fixed_pass in Hrun; [|exact Had].
    destruct Hrun as (_ & _ & _ & _ & _ & _ & _ & _ & Hall).
    specialize (Hall Hnames). exact (Hfused _ _ _ Hall).
Qed.

End PassEntries.

Lemma chunks_no_scores (self : SmartSparsePruner) :
  layerwise_scores self = ∅ →
  omap (eligible (layerwise_scores self)) (named_modules (model self)) = [].
Proof.
  intros Hempty. rewrite Hempty.
  induction (named_modules (model self)) as [|nm mods IH]; [reflexivity|].
  simpl. rewrite eligible_empty. exact IH.
Qed.

Lemma keep_count_nonpos (s : R) (self : SmartSparsePruner) :
  1 <= s → (keep_count s self <= 0)%Z.
Proof.
  intros Hs. unfold keep_count.
  pose proof (pos_INR (numel (pooled self))) as HN.
  destruct (Rlt_dec ((1 - s) * INR (numel (pooled self))) 0) as [Hneg|Hz].
  - apply int_nonpos, Hneg.
  - assert ((1 - s) * INR (numel (pooled self)) = 0) as -> by nra.
    rewrite int_zero. lia.
Qed.

Section ExperimentProperties.

Context {char : Type}.
Variable isspace : char → bool.
Variable is_equals_sign : char → bool.
Variable space : char.
Variable tokenizer : list (list char) → nat → outcome Tensor2.
Variable backward : Batch → Model → loc → option tensor.
Variable loss : Model → Batch → R.
Variable manual_seed : Z → Generator.
Variable from_pretrained : Model.
Variable profile_model_latency : Model → R * R.

(** An experiment that returns: its three stages returned, and the report
    is read off the pruner and the two losses. *)
Lemma run_experiment_Return (file : list (list char)) (n_calib : Z) (s a b c : R) (seed : Z)
    (r : Report) :
  run_experiment isspace is_equals_sign space tokenizer backward loss manual_seed
    from_pretrained profile_model_latency file n_calib s a b c seed = Return r →
  ∃ inputs self1 rng1 self2,
    prepare_inputs tokenizer (load_wikitext2 isspace is_equals_sign space file n_calib) 64
    = Return inputs ∧
    compute_importance_scores backward inputs (init from_pretrained a b c, manual_seed seed)
    = (Return (), (self1, rng1)) ∧
    prune s self1 = (Return (), self2) ∧
    Seed r = seed ∧ Alpha r = alpha self2 ∧ Beta r = beta self2 ∧ Gamma r = gamma self2 ∧
    Base_PPL r = exp (loss from_pretrained inputs) ∧
    Pruned_PPL r = exp (loss (model self2) inputs) ∧
    Degradation r = exp (loss (model self2) inputs) / exp (loss from_pretrained inputs).
Proof.
  unfold run_experiment.
  destruct (prepare_inputs tokenizer _ 64) as [inputs|e] eqn:Eprep; [|discriminate].
  change (Return inputs ≫= ?f) with (f inputs). unfold eval_perplexity. cbv beta iota zeta.
  destruct (compute_importance_scores backward inputs
              (init from_pretrained a b c, manual_seed seed)) as [[[]|e] [self1 rng1]]
    eqn:Epass; [|discriminate].
  destruct (prune s self1) as [[[]|e] self2] eqn:Eprune; [|discriminate].
  destruct (profile_model_latency (model self2)) as [latency vram].
  intros [= <-]. exists inputs, self1, rng1, self2.
  split; [reflexivity|]. split; [exact Epass|]. split; [exact Eprune|].
  simpl. repeat split; reflexivity.
Qed.

(** X19.  The fusion weights in the report of an experiment that returns.
    Given weights that are not all the sentinel [-1] are reported as given.
    In adaptive mode the reported weights are positive and sum to [1]: a
    report never shows the sentinel, because pruning returns only if some
    layer was scored, and scoring a layer replaces the sentinel. *)
Theorem run_experiment_reported_weights (file : list (list char)) (n_calib : Z)
    (s a b c : R) (seed : Z) (r : Report) :
  run_experiment isspace is_equals_sign space tokenizer backward loss manual_seed
    from_pretrained profile_model_latency file n_calib s a b c seed = Return r →
  Seed r = seed ∧
  (¬ (a = -1 ∧ b = -1 ∧ c = -1) → Alpha r = a ∧ Beta r = b ∧ Gamma r = c) ∧
  (a = -1 ∧ b = -1 ∧ c = -1 →
   0 < Alpha r ∧ 0 < Beta r ∧ 0 < Gamma r ∧ Alpha r + Beta r + Gamma r = 1).
Proof.
  intros Hrun. apply run_experiment_Return in Hrun.
  destruct Hrun as (inputs & self1 & rng1 & self2 & _ & Hpass & Hprune
                    & Hseed & -> & -> & -> & _).
  split; [exact Hseed|].
  pose proof (prune_Return_keep _ _ _ Hprune) as Hk.
  destruct (prune_lengths _ _ _ _ Hprune) as [Hself2 _].
  assert (alpha self2 = alpha self1 ∧ beta self2 = beta self1 ∧ gamma self2 = gamma self1)
    as (-> & -> & ->) by (rewrite Hself2; auto).
  split.
  - intros Hfixed.
    assert (is_adaptive (init from_pretrained a b c) = false) as Hna.
    { destruct (is_adaptive (init from_pretrained a b c)) eqn:E; [|reflexivity].
      apply is_adaptive_true in E. contradiction. }
    apply pass_any in Hpass. destruct Hpass as (_ & _ & _ & Hf & _).
    destruct (Hf Hna) as (_ & Ha & Hb & Hc). auto.
  - intros Had.
    apply adaptive_pass in Hpass; [|apply is_adaptive_true; exact Had].
    destruct Hpass as [_ Hpass].
    destruct (scored_layers _) as [|l1 ls].
    + destruct Hpass as [-> _]. exfalso.
      rewrite pooled_no_scores in Hk by reflexivity. simpl in Hk. lia.
    + destruct Hpass as (pqi & move & hess & _ & Htriple & _).
      apply (adaptive_triple_sum _ _ _ _ _ _ _ Htriple).
Qed.

(** X20.  An experiment at a sparsity of [1] or more never returns: the
    keep-count is at most [0], and if the earlier stages return, [prune]
    raises. *)
Theorem run_experiment_full_sparsity_raises (file : list (list char)) (n_calib : Z)
    (s a b c : R) (seed : Z) :
  1 <= s →
  ∃ e, run_experiment isspace is_equals_sign space tokenizer backward loss manual_seed
         from_pretrained profile_model_latency file n_calib s a b c seed = Raise e.
Proof.
  intros Hs.
  destruct (run_experiment isspace is_equals_sign space tokenizer backward loss manual_seed
              from_pretrained profile_model_latency file n_calib s a b c seed)
    as [r|e] eqn:Hrun; [|eauto].
  exfalso. apply run_experiment_Return in Hrun.
  destruct Hrun as (inputs & self1 & rng1 & self2 & _ & _ & Hprune & _).
  pose proof (prune_Return_keep _ _ _ Hprune) as Hk.
  pose proof (keep_count_nonpos s self1 Hs). lia.
Qed.

(** X21.  An experiment at sparsity [0] that returns reports no change: on
    a model with unique module names, and a loss that depends on the
    modules and the data of the parameters only (not on the gradients that
    scoring leaves), the pruned perplexity is the base perplexity and the
    degradation is [1]. *)
Theorem run_experiment_sparsity_zero (file : list (list char)) (n_calib : Z)
    (a b c : R) (seed : Z) (r : Report) :
  (∀ m m' inputs,
     named_modules m = named_modules m' →
     (∀ l, data (heap m l) = data (heap m' l)) → loss m inputs = loss m' inputs) →
  unique_names from_pretrained →
  run_experiment isspace is_equals_sign space tokenizer backward loss manual_seed
    from_pretrained profile_model_latency file n_calib 0 a b c seed = Return r →
  Pruned_PPL r = Base_PPL r ∧ Degradation r = 1.
Proof.
  intros Hloss Hnames Hrun. apply run_experiment_Return in Hrun.
  destruct Hrun as (inputs & self1 & rng1 & self2 & _ & Hpass & Hprune
                    & _ & _ & _ & _ & -> & -> & ->).
  pose proof (prune_Return_keep _ _ _ Hprune) as Hk.
  apply pass_any in Hpass. destruct Hpass as (Hm & _ & _ & _ & _ & Hsh).
  specialize (Hsh Hnames (shapes_agree_init _ _ _ _)).
  assert (unique_names (model self1)) as Hnames1
    by (unfold unique_names; rewrite Hm; exact Hnames).
  assert (pooled self1 ≠ []) as Hne.
  { intros E. rewrite E in Hk. simpl in Hk. lia. }
  rewrite (prune_sparsity_zero self1 Hnames1 Hsh Hne) in Hprune. injection Hprune as <-.
  assert (loss (model self1) inputs = loss from_pretrained inputs) as ->.
  { apply Hloss; rewrite Hm; reflexivity. }
  split; [reflexivity|]. field. pose proof (exp_pos (loss from_pretrained inputs)). lra.
Qed.

(** X22.  When the backward pass leaves no gradient on the weight of any
    linear layer, and the batch could be prepared, the experiment raises
    the [RuntimeError] of [torch.cat] on the empty list: scoring returns
    with no entry, and [prune] has nothing to concatenate. *)
Theorem run_experiment_no_gradient (file : list (list char)) (n_calib : Z)
    (s a b c : R) (seed : Z) (inputs : Batch) :
  (∀ name w bias, In (name, Linear w bias) (named_modules from_pretrained) →
                  backward inputs from_pretrained w = None) →
  prepare_inputs tokenizer (load_wikitext2 isspace is_equals_sign space file n_calib) 64
  = Return inputs →
  run_experiment isspace is_equals_sign space tokenizer backward loss manual_seed
    from_pretrained profile_model_latency file n_calib s a b c seed = Raise RuntimeError.
Proof.
  intros Hnone Hprep.
  assert (scored_layers (model (run_backward backward inputs (init from_pretrained a b c)))
          = []) as Hlayers.
  { destruct (scored_layers _) as [|[[name w] g] ls] eqn:El; [reflexivity|]. exfalso.
    destruct (scored_layers_In
                (model (run_backward backward inputs (init from_pretrained a b c))) name w g)
      as (bias & Hin & Hg); [rewrite El; left; reflexivity|].
    simpl in Hin, Hg. rewrite (Hnone name w bias Hin) in Hg. discriminate. }
  destruct (pass_total Batch backward inputs (init from_pretrained a b c) (manual_seed seed))
    as (self1 & rng1 & Hpass).
  { intros name w g Hin. rewrite Hlayers in Hin. destruct Hin. }
  assert (layerwise_scores self1 = ∅) as Hempty.
  { apply pass_any in Hpass. destruct Hpass as (_ & _ & Hkeep & _).
    apply map_eq. intros n. rewrite (Hkeep n); [reflexivity|].
    unfold scored_names. rewrite Hlayers. simpl. apply not_elem_of_empty. }
  unfold run_experiment. rewrite Hprep.
  change (Return inputs ≫= ?f) with (f inputs). unfold eval_perplexity. cbv beta iota zeta.
  rewrite Hpass. cbv beta iota zeta.
  rewrite (prune_no_chunks s self1 (chunks_no_scores self1 Hempty)). reflexivity.
Qed.

End ExperimentProperties.

(** ** The experiment on the example model *)

Lemma example_prepare_inputs (texts : list (list Ascii.ascii)) :
  prepare_inputs example_tokenizer texts 64 = Return example_batch.
Proof. reflexivity. Qed.

Lemma example_experiment_stages (a b c : R) :
  ∃ self1 rng1,
    compute_importance_scores (fun _ : Batch => example_backward true) example_batch
      (init example_model a b c, example_rng) = (Return (), (self1, rng1)) ∧
    prune 0 self1 = (Return (), self1).
Proof.
  destruct (pass_total Batch (fun _ => example_backward true) example_batch
              (init example_model a b c) example_rng) as (self1 & rng1 & Hpass).
  { exact (example_well_shaped true (init example_model a b c) eq_refl (fun _ => eq_refl)). }
  exists self1, rng1. split; [exact Hpass|].
  pose proof (pass_any _ _ _ _ _ _ _ _ Hpass) as (Hm & _ & _ & _ & _ & Hsh).
  apply prune_sparsity_zero.
  - unfold unique_names. rewrite Hm. exact example_unique_names.
  - apply Hsh; [exact example_unique_names | apply shapes_agree_init].
  - destruct (scored_entry Batch (fun _ => example_backward true) example_batch
                (init example_model a b c) self1 example_rng rng1 "fc" 0%nat [1; 2]
                example_unique_names Hpass) as (sc & Hsc & Hlen).
    { left. reflexivity. }
    apply (pooled_nonempty self1 "fc" 0%nat (Some 1%nat) sc).
    + rewrite Hm. right. left. reflexivity.
    + exact Hsc.
    + intros ->. simpl in Hlen. discriminate.
Qed.

Lemma example_experiment_returns (a b c : R) :
  ∃ r, example_experiment true 0 a b c = Return r.
Proof.
  destruct (example_experiment_stages a b c) as (self1 & rng1 & Hpass & Hprune).
  unfold example_experiment, run_experiment.
  rewrite example_prepare_inputs.
  change (Return example_batch ≫= ?f) with (f example_batch).
  unfold eval_perplexity. cbv beta iota zeta.
  rewrite Hpass. cbv beta iota zeta. rewrite Hprune. cbv beta iota zeta.
  unfold example_profile. eexists. reflexivity.
Qed.

Lemma run_experiment_reported_weights_witness :
  ∃ r, example_experiment true 0 (-1) (-1) (-1) = Return r ∧
    Seed r = 42%Z ∧
    (¬ (-1 = -1 ∧ -1 = -1 ∧ -1 = -1) → Alpha r = -1 ∧ Beta r = -1 ∧ Gamma r = -1) ∧
    (-1 = -1 ∧ -1 = -1 ∧ -1 = -1 →
     0 < Alpha r ∧ 0 < Beta r ∧ 0 < Gamma r ∧ Alpha r + Beta r + Gamma r = 1).
Proof.
  destruct (example_experiment_returns (-1) (-1) (-1)) as [r Hrun].
  exists r. split; [exact Hrun|].
  apply (run_experiment_reported_weights ascii_isspace ascii_is_equals_sign ascii_space
           example_tokenizer (fun _ => example_backward true) example_loss
           (fun _ => example_rng) example_model example_profile example_file 1 0
           (-1) (-1) (-1) 42 r Hrun).
Defined.

Lemma run_experiment_full_sparsity_raises_witness :
  ∃ e, example_experiment true 1 (-1) (-1) (-1) = Raise e.
Proof.
  apply (run_experiment_full_sparsity_raises ascii_isspace ascii_is_equals_sign ascii_space
           example_tokenizer (fun _ => example_backward true) example_loss
           (fun _ => example_rng) example_model example_profile example_file 1 1
           (-1) (-1) (-1) 42).
  lra.
Defined.

Lemma run_experiment_sparsity_zero_witness :
  ∃ r, example_experiment true 0 (1 / 3) (1 / 3) (1 / 3) = Return r ∧
    Pruned_PPL r = Base_PPL r ∧ Degradation r = 1.
Proof.
  destruct (example_experiment_returns (1 / 3) (1 / 3) (1 / 3)) as [r Hrun].
  exists r. split; [exact Hrun|].
  apply (run_experiment_sparsity_zero ascii_isspace ascii_is_equals_sign ascii_space
           example_tokenizer (fun _ => example_backward true) example_loss
           (fun _ => example_rng) example_model example_profile example_file 1
           (1 / 3) (1 / 3) (1 / 3) 42 r).
  - intros m m' inputs _ Hdata. unfold example_loss. rewrite Hdata. reflexivity.
  - exact example_unique_names.
  - exact Hrun.
Defined.

Lemma run_experiment_no_gradient_witness :
  example_experiment false (1 / 2) (-1) (-1) (-1) = Raise RuntimeError.
Proof.
  apply (run_experiment_no_gradient ascii_isspace ascii_is_equals_sign ascii_space
           example_tokenizer (fun _ => example_backward false) example_loss
           (fun _ => example_rng) example_model example_profile example_file 1 (1 / 2)
           (-1) (-1) (-1) 42 example_batch).
  - intros name w bias [H|[H|[]]]; [discriminate|]. injection H as _ <- _. reflexivity.
  - apply example_prepare_inputs.
Defined.

(** ** The estimators and the batch on concrete inputs *)

Lemma compute_hessian_spec_witness :
  ∃ h, _compute_hessian [1; 2] [0; 3] = Return h ∧ length h = length [1; 2] ∧
    ∀ i wi gi, [1; 2] !! i = Some wi → [0; 3] !! i = Some gi →
      ∃ hi, h !! i = Some hi ∧
        hi = wi ^ 2 / (Rmax (gi ^ 2) 1e-6 * 2) ∧
        0 <= hi <= 500000 * wi ^ 2 ∧
        (Rabs gi <= 1e-3 → hi = 500000 * wi ^ 2) ∧
        (1e-3 <= Rabs gi → hi = wi ^ 2 / (2 * gi ^ 2)).
Proof. apply (compute_hessian_spec [1; 2] [0; 3]). reflexivity. Defined.

Lemma prepare_inputs_spec_witness :
  prepare_inputs example_tokenizer [] 64
  = Return {| input_ids := {| rows := [[2; 7; 9]%Z; [2; 5; 1]%Z]; width := 3 |};
              labels := {| rows := map (fun r => drop 1 r ++ [(-100)%Z])
                                     [[2; 7; 9]%Z; [2; 5; 1]%Z];
                           width := 3 |} |}.
Proof.
  apply (proj2 (prepare_inputs_spec example_tokenizer [] 64)
           {| rows := [[2; 7; 9]%Z; [2; 5; 1]%Z]; width := 3 |}).
  - reflexivity.
  - repeat constructor.
  - simpl. lia.
Defined.

(** * Further properties of the fused scores and of the masks *)






Lemma ge_mask_lookup (sc : tensor) (thr : R) (i : nat) (m : R) :
  ge_mask sc thr !! i = Some m → m = 0 ∨ m = 1.
Proof.
  unfold ge_mask. rewrite lookup_map. destruct (sc !! i) as [v|]; [|discriminate].
  simpl. intros [= <-]. destruct (Rge_dec v thr); auto.
Qed.

Lemma apply_mask_loop_zero_or_kept (thr : R) (mm : list (string * Module)) :
  ∀ self o self',
    for_each (apply_mask thr) mm self = (o, self') →
    ∀ l i x, data (heap (model self') l) !! i = Some x →
             x = 0 ∨ data (heap (model self) l) !! i = Some x.
Proof.
  induction mm as [|[name m] mm IH]; intros self o self' Hrun l i x Hx.
  - simpl in Hrun. injection Hrun as <- <-. auto.
  - simpl in Hrun.
    destruct (layerwise_scores self !! name) as [sc|]; [|injection Hrun as <- <-; auto].
    destruct m as [w b|ps]; [|injection Hrun as <- <-; auto].
    unfold mul_, tmul in Hrun.
    destruct (zipT Rmult (data (heap (model self) w)) (ge_mask sc thr)) as [d|e] eqn:Ez;
      simpl in Hrun; [|injection Hrun as <- <-; auto].
    apply zipT_inv in Ez. destruct Ez as [_ ->].
    destruct (IH _ _ _ Hrun l i x Hx) as [Hz|Hprev]; [auto|].
    simpl in Hprev. destruct (decide (w = l)) as [->|Hne].
    + rewrite fn_lookup_insert in Hprev. simpl in Hprev.
      apply lookup_zip_with_Some in Hprev. destruct Hprev as (y & m & -> & Hy & Hm).
      apply ge_mask_lookup in Hm. destruct Hm as [->| ->].
      * left. lra.
      * right. rewrite Hy. f_equal. lra.
    + rewrite fn_lookup_insert_ne in Hprev by assumption. auto.
Qed.

(** X24.  [prune] only ever zeroes: whatever its outcome, every element of
    every parameter is afterwards what it was before or [0], every
    parameter keeps its size, and when the call raised before the masking
    loop (no pooled scores, keep-count out of range) nothing has changed.
    An exception raised inside the masking loop leaves the layers masked so
    far as they are. *)
Theorem prune_zero_or_kept (s : R) (self self' : SmartSparsePruner) (o : outcome unit) :
  prune s self = (o, self') →
  (∀ l, length (data (heap (model self') l)) = length (data (heap (model self) l))) ∧
  (∀ l i x, data (heap (model self') l) !! i = Some x →
            x = 0 ∨ data (heap (model self) l) !! i = Some x) ∧
  (¬ (1 <= keep_count s self <= Z.of_nat (numel (pooled self)))%Z → self' = self).
Proof.
  intros Hrun. split; [apply (prune_lengths _ _ _ _ Hrun)|]. split.
  - revert Hrun. rewrite prune_cases.
    destruct (omap _ _) as [|ch chs]; [intros [= <- <-]; auto|].
    destruct (topk _ _ ≫= last_item) as [thr|e]; [|intros [= <- <-]; auto].
    apply apply_mask_loop_zero_or_kept.
  - intros Hk. unfold keep_count in Hk.
    destruct (omap (eligible (layerwise_scores self)) (named_modules (model self)))
      as [|ch chs] eqn:Ech.
    { rewrite prune_no_chunks in Hrun by exact Ech. congruence. }
    assert (omap (eligible (layerwise_scores self)) (named_modules (model self)) ≠ [])
      as Hne by (rewrite Ech; discriminate).
    destruct (Z.eq_dec (int ((1 - s) * INR (numel (pooled self)))) 0%Z) as [Hz|Hz].
    { rewrite prune_keep_zero in Hrun by assumption. congruence. }
    rewrite prune_keep_out_of_range in Hrun by (auto; lia). congruence.
Qed.

Lemma prune_zero_or_kept_witness :
  (∀ l, length (data (heap (model example_pruned) l))
        = length (data (heap (model example_pruner) l))) ∧
  (∀ l i x, data (heap (model example_pruned) l) !! i = Some x →
            x = 0 ∨ data (heap (model example_pruner) l) !! i = Some x) ∧
  (¬ (1 <= keep_count (1 / 2) example_pruner
      <= Z.of_nat (numel (pooled example_pruner)))%Z → example_pruned = example_pruner).
Proof.
  apply (prune_zero_or_kept (1 / 2) example_pruner example_pruned (Return ())).
  exact example_prune_half.
Defined.

(** * Outcomes of scoring and of pruning *)

Section Coverage.

Context {char : Type}.
Variable isspace : char → bool.
Variable is_equals_sign : char → bool.
Variable space : char.
Hypothesis space_isspace : isspace space = true.

Lemma group_lines_cover (n : Z) (lines : list (list char)) :
  ∀ ps buf,
    (buf = [] ∨ ∃ b, buf = b ++ [space]) →
    (length (split isspace buf) <= 100)%nat →
    (Z.of_nat (length (group_lines isspace space n lines ps buf)) < n)%Z →
    ∃ tail,
      concat (map (split isspace) ps) ++ split isspace buf
        ++ concat (map (split isspace) lines)
      = concat (map (split isspace) (group_lines isspace space n lines ps buf)) ++ tail ∧
      (length tail <= 100)%nat.
Proof.
  induction lines as [|line rest IH]; intros ps buf Hbuf Hsmall Hfew.
  - simpl. exists (split isspace buf). rewrite app_nil_r. auto.
  - cbn [group_lines map concat] in *.
    pose proof (split_buffer isspace space space_isspace buf line Hbuf) as Hwords.
    destruct (100 <? length (split isspace (buf ++ line ++ [space])))%nat eqn:Ebig.
    + assert (concat (map (split isspace) (ps ++ [strip isspace (buf ++ line ++ [space])]))
              = concat (map (split isspace) ps) ++ split isspace buf ++ split isspace line)
        as Hcat.
      { rewrite map_app, concat_app. simpl. rewrite app_nil_r, split_strip, Hwords.
        reflexivity. }
      destruct (n <=? Z.of_nat (length (ps ++ [strip isspace (buf ++ line ++ [space])])))%Z
        eqn:Eb.
      * apply Z.leb_le in Eb. lia.
      * destruct (IH (ps ++ [strip isspace (buf ++ line ++ [space])]) [])
          as (tail & Ht & Hlen); [left; reflexivity | simpl; lia | exact Hfew |].
        exists tail. split; [|exact Hlen]. rewrite <- Ht, Hcat. simpl.
        rewrite <- ?app_assoc. reflexivity.
    + apply Nat.ltb_ge in Ebig.
      destruct (n <=? Z.of_nat (length ps))%Z eqn:Eb.
      * apply Z.leb_le in Eb. lia.
      * destruct (IH ps (buf ++ line ++ [space])) as (tail & Ht & Hlen);
          [|exact Ebig|exact Hfew|].
        { right. exists (buf ++ line). rewrite <- app_assoc. reflexivity. }
        exists tail. split; [|exact Hlen]. rewrite <- Ht, Hwords.
        rewrite <- ?app_assoc. reflexivity.
Qed.

(** X25.  When [load_wikitext2] returns fewer than [num_samples]
    paragraphs, the whole file was read: the paragraphs hold all the words
    of the kept lines, in order, except for a last stretch of at most 100
    words that did not fill a paragraph. *)
Theorem load_wikitext2_covers (file : list (list char)) (num_samples : Z) :
  (Z.of_nat (length (load_wikitext2 isspace is_equals_sign space file num_samples))
   < num_samples)%Z →
  ∃ tail,
    concat (map (split isspace) (kept_lines isspace is_equals_sign file))
    = concat (map (split isspace)
                (load_wikitext2 isspace is_equals_sign space file num_samples)) ++ tail ∧
    (length tail <= 100)%nat.
Proof.
  unfold load_wikitext2. intros Hfew.
  destruct (group_lines_cover num_samples (kept_lines isspace is_equals_sign file) [] [])
    as (tail & Ht & Hlen); [left; reflexivity | simpl; lia | exact Hfew |].
  exists tail. split; [|exact Hlen]. rewrite <- Ht. reflexivity.
Qed.

End Coverage.

Lemma load_wikitext2_covers_witness :
  ∃ tail,
    concat (map (split ascii_isspace) (kept_lines ascii_isspace ascii_is_equals_sign example_file))
    = concat (map (split ascii_isspace)
                (load_wikitext2 ascii_isspace ascii_is_equals_sign ascii_space example_file 5))
      ++ tail ∧
    (length tail <= 100)%nat.
Proof.
  apply (load_wikitext2_covers ascii_isspace ascii_is_equals_sign ascii_space).
  - reflexivity.
  - vm_compute. reflexivity.
Defined.

Lemma zipT_Raise (f : R → R → R) (a b : tensor) (e : exn) :
  zipT f a b = Raise e → e = RuntimeError.
Proof.
  revert b. induction a as [|x a IH]; intros [|y b]; simpl; try discriminate.
  - intros [= <-]. reflexivity.
  - intros [= <-]. reflexivity.
  - destruct (zipT f a b) as [r|e'] eqn:E; simpl; [discriminate|].
    intros [= <-]. apply (IH b). exact E.
Qed.

(** The scores of a layer whose weight is empty, or whose gradient is not of
    the size of the weight, cannot be computed. *)
Lemma layer_scores_Raise (w g : tensor) :
  ¬ (w ≠ [] ∧ length g = length w) → layer_scores w g = Raise RuntimeError.
Proof.
  intros Hbad. unfold layer_scores. destruct w as [|x w].
  - rewrite compute_pqi_empty. reflexivity.
  - destruct (compute_pqi_total (x :: w) 8) as (q & -> & _); [lia | discriminate |].
    change (Return q ≫= ?f) with (f q). cbv beta.
    assert (_compute_hessian (x :: w) g = Raise RuntimeError) as ->; [|reflexivity].
    unfold _compute_hessian, tdiv. apply zipT_mismatch.
    unfold tpow, mul_scalar, clamp_min. rewrite !length_map.
    intros E. apply Hbad. split; [discriminate | symmetry; exact E].
Qed.

Lemma score_module_outcome (name : string) (md : Module) (self self1 : SmartSparsePruner)
    (rng rng1 : Generator) (o : outcome unit) :
  score_module (name, md) (self, rng) = (o, (self1, rng1)) →
  match md with
  | Linear w _ =>
      match grad (heap (model self) w) with
      | Some g =>
          (data (heap (model self) w) ≠ []
           ∧ length g = length (data (heap (model self) w)) → o = Return ()) ∧
          (¬ (data (heap (model self) w) ≠ []
              ∧ length g = length (data (heap (model self) w))) → o = Raise RuntimeError)
      | None => o = Return ()
      end
  | OtherModule _ => o = Return ()
  end.
Proof.
  intros Hstep. destruct md as [w b|ps]; [|injection Hstep as <- _ _; reflexivity].
  destruct (grad (heap (model self) w)) as [g|] eqn:Eg.
  - split.
    + intros Hok.
      destruct (score_module_total (name, Linear w b) self rng) as (s1 & r1 & Hret & _).
      { simpl. rewrite Eg. exact Hok. }
      rewrite Hret in Hstep. injection Hstep as <- _ _. reflexivity.
    + intros Hbad. unfold score_module in Hstep.
      rewrite Eg, (layer_scores_Raise _ _ Hbad) in Hstep.
      injection Hstep as <- _ _. reflexivity.
  - unfold score_module in Hstep. rewrite Eg in Hstep.
    injection Hstep as <- _ _. reflexivity.
Qed.

Lemma score_loop_outcome (mods : list (string * Module)) :
  ∀ self rng o self' rng',
    for_each score_module mods (self, rng) = (o, (self', rng')) →
    (o = Return () ∨ o = Raise RuntimeError) ∧
    (o = Return () ↔
     ∀ name w g,
       In (name, w, g) (scored_layers {| named_modules := mods; heap := heap (model self) |}) →
       data (heap (model self) w) ≠ [] ∧ length g = length (data (heap (model self) w))).
Proof.
  induction mods as [|[name md] mods IH]; intros self rng o self' rng' Hrun.
  - simpl in Hrun. injection Hrun as <- _ _. split; [left; reflexivity|].
    split; [intros _ n w g []|reflexivity].
  - rewrite for_each_cons in Hrun.
    destruct (score_module (name, md) (self, rng)) as [o1 [self1 rng1]] eqn:Estep.
    pose proof (score_module_outcome _ _ _ _ _ _ _ Estep) as Hout.
    apply score_module_step in Estep. destruct Estep as (Hm & _).
    rewrite scored_layers_cons.
    assert (o1 = Return () →
            (o = Return () ∨ o = Raise RuntimeError) ∧
            (o = Return () ↔
             ∀ n w g,
               In (n, w, g) (scored_layers {| named_modules := mods; heap := heap (model self) |}) →
               data (heap (model self) w) ≠ []
               ∧ length g = length (data (heap (model self) w)))) as Hrest.
    { intros ->. apply IH in Hrun. rewrite Hm in Hrun. exact Hrun. }
    destruct md as [w b|ps]; [|apply Hrest, Hout].
    destruct (grad (heap (model self) w)) as [g|] eqn:Eg; [|apply Hrest, Hout].
    destruct Hout as [Hgood Hbad].
    destruct (data (heap (model self) w)) as [|x d] eqn:Ed.
    + rewrite Hbad in Hrun by (intros [H _]; congruence).
      injection Hrun as <- _ _. split; [right; reflexivity|].
      split; [discriminate|]. intros Hall.
      destruct (Hall name w g (or_introl eq_refl)) as [H _]. rewrite Ed in H. congruence.
    + destruct (Nat.eq_dec (length g) (length (x :: d))) as [Hlen|Hlen].
      * assert (x :: d ≠ []) as Hxd by discriminate.
        destruct (Hrest (Hgood (conj Hxd Hlen))) as [Ho Hiff].
        split; [exact Ho|]. etransitivity; [exact Hiff|]. split.
        -- intros Hall n w' g' [Hhd|Hin]; [|exact (Hall n w' g' Hin)].
           injection Hhd as <- <- <-. rewrite Ed. split; [discriminate | exact Hlen].
        -- intros Hall n w' g' Hin. exact (Hall n w' g' (or_intror Hin)).
      * rewrite Hbad in Hrun by (intros [_ H]; congruence).
        injection Hrun as <- _ _. split; [right; reflexivity|].
        split; [discriminate|]. intros Hall.
        destruct (Hall name w g (or_introl eq_refl)) as [_ H]. rewrite Ed in H. congruence.
Qed.

Section ScoringOutcome.

Variable Inputs : Type.
Variable backward : Inputs → Model → loc → option tensor.

(** X26.  The outcomes of a scoring pass.  It returns exactly when every
    processed layer has a weight with at least one element and a gradient
    of the size of the weight; otherwise it raises, and the only exception
    it ever raises is [RuntimeError] (of [min()] on an empty weight, or of
    the elementwise division in the curvature estimator). *)
Theorem scoring_pass_outcome (inputs : Inputs) (self self' : SmartSparsePruner)
    (rng rng' : Generator) (o : outcome unit) :
  compute_importance_scores backward inputs (self, rng) = (o, (self', rng')) →
  (o = Return () ∨ o = Raise RuntimeError) ∧
  (o = Return () ↔ well_shaped backward inputs self).
Proof.
  unfold compute_importance_scores. intros Hrun.
  apply score_loop_outcome in Hrun. rewrite model_eta in Hrun. exact Hrun.
Qed.

End ScoringOutcome.

Lemma scoring_pass_outcome_witness :
  ∃ o self' rng',
    compute_importance_scores example_backward true
      (init example_model (-1) (-1) (-1), example_rng) = (o, (self', rng')) ∧
    (o = Return () ∨ o = Raise RuntimeError) ∧
    (o = Return () ↔ well_shaped example_backward true (init example_model (-1) (-1) (-1))).
Proof.
  destruct (compute_importance_scores example_backward true
              (init example_model (-1) (-1) (-1), example_rng)) as [o [self' rng']] eqn:Hrun.
  exists o, self', rng'. split; [reflexivity|].
  apply (scoring_pass_outcome bool example_backward true _ _ _ _ _ Hrun).
Defined.

(** The masking loop over modules that are linear and have an entry can
    only fail on the multiplication. *)
Lemma apply_mask_loop_Raise (thr : R) (mm : list (string * Module)) :
  ∀ self e self',
    (∀ name m, In (name, m) mm →
       ∃ w b sc, m = Linear w b ∧ layerwise_scores self !! name = Some sc) →
    for_each (apply_mask thr) mm self = (Raise e, self') → e = RuntimeError.
Proof.
  induction mm as [|[name m] mm IH]; intros self e self' Hok Hrun; [discriminate|].
  simpl in Hrun.
  destruct (Hok name m (or_introl eq_refl)) as (w & b & sc & -> & Esc).
  rewrite Esc in Hrun. unfold mul_, tmul in Hrun.
  destruct (zipT Rmult (data (heap (model self) w)) (ge_mask sc thr)) as [d|e0] eqn:Ez;
    simpl in Hrun.
  - eapply IH; [|exact Hrun]. simpl. intros n m' Hin. apply Hok. right. exact Hin.
  - injection Hrun as <- _. eapply zipT_Raise, Ez.
Qed.

(** X27.  The exceptions of [prune].  A call that raises raises
    [IndexError] or [RuntimeError], never [KeyError] or [AttributeError]:
    every module of the module map is linear and has an entry.  It is
    [IndexError] exactly when something was pooled and the keep-count is
    [0].  When the stored scores have the sizes of their weights, the call
    raised before the masking loop: the keep-count is outside [1..N] and the
    pruner is unchanged. *)
Theorem prune_exceptions (s : R) (self self' : SmartSparsePruner) (e : exn) :
  prune s self = (Raise e, self') →
  (e = IndexError ∨ e = RuntimeError) ∧
  (e = IndexError ↔
   omap (eligible (layerwise_scores self)) (named_modules (model self)) ≠ []
   ∧ keep_count s self = 0%Z) ∧
  (shapes_agree self →
   self' = self ∧ ¬ (1 <= keep_count s self <= Z.of_nat (numel (pooled self)))%Z).
Proof.
  unfold keep_count. intros Hrun.
  destruct (omap (eligible (layerwise_scores self)) (named_modules (model self)))
    as [|ch chs] eqn:Ech.
  { rewrite prune_no_chunks in Hrun by exact Ech. injection Hrun as <- <-.
    split; [right; reflexivity|]. split.
    - split; [discriminate | intros [H _]; congruence].
    - intros _. split; [reflexivity|]. unfold pooled. rewrite Ech. simpl. lia. }
  assert (omap (eligible (layerwise_scores self)) (named_modules (model self)) ≠ [])
    as Hne by (rewrite Ech; discriminate).
  rewrite <- Ech.
  destruct (Z.eq_dec (int ((1 - s) * INR (numel (pooled self)))) 0%Z) as [Hz|Hz].
  { rewrite prune_keep_zero in Hrun by assumption. injection Hrun as <- <-.
    split; [left; reflexivity|]. split; [split; auto|].
    intros _. split; [reflexivity | lia]. }
  destruct (Z_lt_le_dec (int ((1 - s) * INR (numel (pooled self)))) 0%Z) as [Hneg|Hpos].
  { rewrite prune_keep_out_of_range in Hrun by (auto; lia). injection Hrun as <- <-.
    split; [right; reflexivity|]. split.
    - split; [discriminate | intros [_ H]; contradiction].
    - intros _. split; [reflexivity | lia]. }
  destruct (Z_lt_le_dec (Z.of_nat (numel (pooled self)))
              (int ((1 - s) * INR (numel (pooled self))))) as [Hbig|Hok].
  { rewrite prune_keep_out_of_range in Hrun by (auto; lia). injection Hrun as <- <-.
    split; [right; reflexivity|]. split.
    - split; [discriminate | intros [_ H]; contradiction].
    - intros _. split; [reflexivity | lia]. }
  destruct (topk_last_item (pooled self) (int ((1 - s) * INR (numel (pooled self)))))
    as (thr & _ & Htop); [lia|].
  rewrite prune_cases, Htop, Ech in Hrun.
  assert (∀ name m,
            In (name, m) (fold_left (gather (layerwise_scores self))
                            (named_modules (model self)) ([], [])).2 →
            In (name, m) (named_modules (model self)) ∧
            ∃ w b sc, m = Linear w b ∧ layerwise_scores self !! name = Some sc) as Hmap.
  { intros name m Hin. apply gather_map_In in Hin. destruct Hin as [[]|[Hin [sc Hsc]]].
    split; [exact Hin|]. unfold eligible in Hsc. simpl in Hsc.
    destruct m as [w b|ps]; [|discriminate]. eauto. }
  assert (e = RuntimeError) as ->.
  { eapply apply_mask_loop_Raise; [|exact Hrun]. intros name m Hin. apply (Hmap name m Hin). }
  split; [right; reflexivity|]. split.
  - split; [discriminate | intros [_ H]; contradiction].
  - intros Hshapes. exfalso.
    destruct (for_each_apply_mask_total thr
                (fold_left (gather (layerwise_scores self))
                   (named_modules (model self)) ([], [])).2 self) as [self'' Hret].
    { intros name m Hin. destruct (Hmap name m Hin) as (Hin' & w & b & sc & -> & Hsc).
      exists w, b, sc. split; [reflexivity|]. split; [exact Hsc|].
      eapply Hshapes; eassumption. }
    rewrite Hret in Hrun. discriminate.
Qed.

Lemma prune_exceptions_witness :
  (IndexError = IndexError ∨ IndexError = RuntimeError) ∧
  (IndexError = IndexError ↔
   omap (eligible (layerwise_scores uniform_pruner)) (named_modules (model uniform_pruner)) ≠ []
   ∧ keep_count 1 uniform_pruner = 0%Z) ∧
  (shapes_agree uniform_pruner →
   uniform_pruner = uniform_pruner
   ∧ ¬ (1 <= keep_count 1 uniform_pruner <= Z.of_nat (numel (pooled uniform_pruner)))%Z).
Proof.
  apply (prune_exceptions 1 uniform_pruner uniform_pruner IndexError).
  apply prune_sparsity_one. rewrite uniform_chunks. discriminate.
Defined.
